(** * Only-Agent: action extraction and patch application

    A shallow embedding of [src/extension.ts] (class
    [ManualAIChatViewProvider]): the [TOOL_CALL] parser of
    [parseAndConfirmActions], the pending-action queue, [executeAction]
    with its two-stage MODIFY matcher, and [handleApproveAll]. *)

From Stdlib Require Import Ascii String List NArith ZArith Lia Bool.
Import ListNotations.

(** ** JavaScript strings

    A JavaScript string is a sequence of UTF-16 code units. *)

Definition char := N.
Definition str := list char.

(** ASCII literal as a sequence of code units. *)
Definition lit (s : string) : str := map N_of_ascii (list_ascii_of_string s).

Definition LF : char := 10%N.
Definition CR : char := 13%N.

Definition char_eqb (a b : char) : bool := N.eqb a b.

Fixpoint str_eqb (a b : str) : bool :=
  match a, b with
  | [], [] => true
  | x :: a', y :: b' => char_eqb x y && str_eqb a' b'
  | _, _ => false
  end.

(** [WhiteSpace] and [LineTerminator] code points of ECMAScript: the
    set stripped by [String.prototype.trim] and matched by [\s]. *)
Definition isWhiteSpace (c : char) : bool :=
  ((9 <=? c) && (c <=? 13) || (c =? 32) || (c =? 160) || (c =? 5760)
   || (8192 <=? c) && (c <=? 8202) || (c =? 8232) || (c =? 8233)
   || (c =? 8239) || (c =? 8287) || (c =? 12288) || (c =? 65279))%N.

(** [\w] without the unicode flag: [A-Za-z0-9_]. *)
Definition isWord (c : char) : bool :=
  ((65 <=? c) && (c <=? 90) || (97 <=? c) && (c <=? 122)
   || (48 <=? c) && (c <=? 57) || (c =? 95))%N.

(** [.] without the [s] flag: anything but a line terminator. *)
Definition isLineTerminator (c : char) : bool :=
  ((c =? 10) || (c =? 13) || (c =? 8232) || (c =? 8233))%N.

Fixpoint dropWhile {A} (p : A -> bool) (s : list A) : list A :=
  match s with
  | [] => []
  | c :: s' => if p c then dropWhile p s' else s
  end.

Fixpoint takeWhile {A} (p : A -> bool) (s : list A) : list A :=
  match s with
  | [] => []
  | c :: s' => if p c then c :: takeWhile p s' else []
  end.

(** [s.trim()] *)
Definition trim (s : str) : str :=
  rev (dropWhile isWhiteSpace (rev (dropWhile isWhiteSpace s))).

(** [s.startsWith(p)], used to spell out literal pieces of patterns. *)
Fixpoint startsWith (p s : str) : bool :=
  match p, s with
  | [], _ => true
  | x :: p', y :: s' => char_eqb x y && startsWith p' s'
  | _ :: _, [] => false
  end.

(** [s.indexOf(p)]: the least [k] with [s.substring(k, k + p.length) = p];
    [None] stands for [-1].  The empty pattern is found at offset 0. *)
Fixpoint indexOf_from (k : nat) (s p : str) : option nat :=
  if startsWith p s then Some k
  else match s with
       | [] => None
       | _ :: s' => indexOf_from (S k) s' p
       end.

Definition indexOf (s p : str) : option nat := indexOf_from 0 s p.

(** [s.substring(a, b)] for [a <= b]. *)
Definition substring (s : str) (a b : nat) : str := firstn (b - a) (skipn a s).

(** [s.split(/\r?\n/)].  The separator is tried at each position from
    left to right; at a carriage return followed by a line feed it
    takes both, at a lone line feed one, and a carriage return not
    followed by a line feed stays in its line.  The result always has
    at least one element. *)
Definition consHead (c : char) (ls : list str) : list str :=
  match ls with
  | [] => [[c]]
  | l :: ls' => (c :: l) :: ls'
  end.

Fixpoint splitLines (s : str) : list str :=
  match s with
  | [] => [[]]
  | c :: rest =>
      if char_eqb c LF then [] :: splitLines rest
      else match rest with
           | d :: rest' =>
               if char_eqb c CR && char_eqb d LF then [] :: splitLines rest'
               else consHead c (splitLines rest)
           | [] => consHead c (splitLines rest)
           end
  end.

(** [a.slice(start, end)] on arrays, with the negative-index rule. *)
Definition sliceIndex (len i : Z) : Z :=
  if (i <? 0)%Z then Z.max (len + i) 0 else Z.min i len.

Definition slice {A} (l : list A) (start stop : Z) : list A :=
  let len := Z.of_nat (length l) in
  let a := sliceIndex len start in
  let b := sliceIndex len stop in
  firstn (Z.to_nat (b - a)) (skipn (Z.to_nat a) l).

(** ** The MODIFY matcher ([executeAction], case ['MODIFY']) *)

(** Positions are kept as the source builds them. *)
Inductive Position :=
| positionAt (offset : nat)   (* doc.positionAt(offset) *)
| lineStart (line : nat)      (* new vscode.Position(line, 0) *)
| lineEnd (line : nat).       (* doc.lineAt(line).range.end *)

Record Range := mkRange { range_start : Position; range_end : Position }.

(** Outcome of the locate step: the range handed to [e.replace], or one
    of the two errors thrown. *)
Inductive LocateResult :=
| Found (r : Range)
| EmptyPatchBlock   (* Error("原文块为空或全是空白，无法匹配。") *)
| NotFound.         (* Error("找不到原文块，无法修改。") *)

Definition isBlank (l : str) : bool := str_eqb (trim l) [].

Definition lineAtZ (lines : list str) (i : Z) : str :=
  nth (Z.to_nat i) lines [].

(** [while (startSearch <= endSearch && searchLines[startSearch].trim() === '') startSearch++;]
    The loop runs at most [searchLines.length] times; [n] bounds the
    iterations left. *)
Fixpoint skipLeading (searchLines : list str) (endSearch : Z) (n : nat) (startSearch : Z) : Z :=
  match n with
  | O => startSearch
  | S n' =>
      if (startSearch <=? endSearch)%Z && isBlank (lineAtZ searchLines startSearch)
      then skipLeading searchLines endSearch n' (startSearch + 1)%Z
      else startSearch
  end.

(** [while (endSearch >= startSearch && searchLines[endSearch].trim() === '') endSearch--;] *)
Fixpoint skipTrailing (searchLines : list str) (startSearch : Z) (n : nat) (endSearch : Z) : Z :=
  match n with
  | O => endSearch
  | S n' =>
      if (endSearch >=? startSearch)%Z && isBlank (lineAtZ searchLines endSearch)
      then skipTrailing searchLines startSearch n' (endSearch - 1)%Z
      else endSearch
  end.

Definition effectiveSearchLines (searchLines : list str) : list str :=
  let n := length searchLines in
  let startSearch := skipLeading searchLines (Z.of_nat n - 1) n 0%Z in
  let endSearch := skipTrailing searchLines startSearch n (Z.of_nat n - 1)%Z in
  slice searchLines startSearch (endSearch + 1)%Z.

(** The effective line list in the words of the specification: the
    lines of [before] less the leading and the trailing lines that are
    empty once stripped of whitespace. *)
Definition trimBlankLines (searchLines : list str) : list str :=
  rev (dropWhile isBlank (rev (dropWhile isBlank searchLines))).

(** The inner [for (j ...)] loop: every effective line equals the
    document line at [i + j] once both are trimmed. *)
Definition linesMatchAt (docLines effective : list str) (i : nat) : bool :=
  forallb (fun j => str_eqb (trim (nth (i + j) docLines [])) (trim (nth j effective [])))
          (seq 0 (length effective)).

(** The outer [for (i = 0; i <= docLines.length - effective.length; i++)]
    loop, with [n] candidate positions left from [i]. *)
Fixpoint findLineFrom (docLines effective : list str) (n i : nat) : option nat :=
  match n with
  | O => None
  | S n' =>
      if linesMatchAt docLines effective i then Some i
      else findLineFrom docLines effective n' (S i)
  end.

Definition findLineIndex (docLines effective : list str) : option nat :=
  let bound := (Z.of_nat (length docLines) - Z.of_nat (length effective))%Z in
  findLineFrom docLines effective (Z.to_nat (bound + 1)) 0.

Definition locate (fullText before : str) : LocateResult :=
  match indexOf fullText before with
  | Some offset =>
      Found (mkRange (positionAt offset) (positionAt (offset + length before)))
  | None =>
      let docLines := splitLines fullText in
      let searchLines := splitLines before in
      let effective := effectiveSearchLines searchLines in
      if Nat.eqb (length effective) 0 then EmptyPatchBlock
      else match findLineIndex docLines effective with
           | Some foundLineIndex =>
               let lastLineIndex := foundLineIndex + length effective - 1 in
               Found (mkRange (lineStart foundLineIndex) (lineEnd lastLineIndex))
           | None => NotFound
           end
  end.

(** ** The document model of the editor

    The editor addresses text by line and character.  Its lines are the
    ones the source itself indexes, [fullText.split(/\r?\n/)]; each is
    kept here with the length of its terminator (0 for the last). *)
Definition consHeadEol (c : char) (ls : list (str * nat)) : list (str * nat) :=
  match ls with
  | [] => [([c], 0)]
  | (l, e) :: ls' => (c :: l, e) :: ls'
  end.

Fixpoint scanLines (s : str) : list (str * nat) :=
  match s with
  | [] => [([], 0)]
  | c :: rest =>
      if char_eqb c LF then ([], 1) :: scanLines rest
      else match rest with
           | d :: rest' =>
               if char_eqb c CR && char_eqb d LF then ([], 2) :: scanLines rest'
               else consHeadEol c (scanLines rest)
           | [] => consHeadEol c (scanLines rest)
           end
  end.

(** Offset of the first character of line [k]. *)
Fixpoint lineOffset (ls : list (str * nat)) (k : nat) : nat :=
  match k, ls with
  | S k', (l, e) :: ls' => length l + e + lineOffset ls' k'
  | _, _ => 0
  end.

(** [doc.positionAt(offset)] read back as an offset: an offset inside a
    line terminator, or past the end, is clamped to the end of its line. *)
Fixpoint clampOffset (ls : list (str * nat)) (offset : nat) : nat :=
  match ls with
  | [] => 0
  | (l, e) :: ls' =>
      match ls' with
      | [] => Nat.min offset (length l)
      | _ :: _ =>
          if offset <? length l + e then Nat.min offset (length l)
          else length l + e + clampOffset ls' (offset - (length l + e))
      end
  end.

Definition offsetAt (fullText : str) (p : Position) : nat :=
  match p with
  | positionAt offset => clampOffset (scanLines fullText) offset
  | lineStart k => lineOffset (scanLines fullText) k
  | lineEnd k =>
      lineOffset (scanLines fullText) k + length (fst (nth k (scanLines fullText) ([], 0)))
  end.

(** [editor.edit(e => e.replace(range, content))] on the text. *)
Definition replaceRange (fullText : str) (r : Range) (content : str) : str :=
  firstn (offsetAt fullText (range_start r)) fullText
  ++ content
  ++ skipn (offsetAt fullText (range_end r)) fullText.

(** ** Actions, messages and events *)

(** [interface AgentAction].  [type] is declared as one of five
    literals, but the parser stores whatever word the marker carries
    ([type as any]), so it is a string here.  Optional fields are
    [None] when [undefined]. *)
Record AgentAction := mkAction {
  id : str;
  type : str;
  path : option str;
  content : option str;
  before : option str;
  command : option str;
  url : option str
}.

Definition MODIFY := lit "MODIFY".
Definition CREATE := lit "CREATE".
Definition DELETE := lit "DELETE".
Definition SHELL := lit "SHELL".
Definition FETCH := lit "FETCH".

(** What [executeAction] can throw inside its [try]. *)
Inductive ExecError :=
| ErrNoWorkspace      (* Error("未打开工作区") *)
| ErrEmptyPatchBlock  (* Error("原文块为空或全是空白，无法匹配。") *)
| ErrPatchNotFound    (* Error("找不到原文块，无法修改。") *)
| ErrTypeError        (* a required field is undefined *)
| ErrHost.            (* the editor, file system or terminal rejected the call *)

Inductive Role := user | ai | system | error | action.

(** Message texts: the pasted response, or one of the fixed texts. *)
Inductive MsgText :=
| Verbatim (s : str)
| NoToolCallRecognized      (* '❌ 未识别到有效的 TOOL_CALL 指令。' *)
| SkippedShell (n : nat).   (* `⚠️ 已跳过 ${n} 个终端命令 (Approve All 不包含终端指令)。` *)

Record ChatMessage := mkMessage {
  msg_role : Role;
  msg_text : MsgText;
  msg_action : option AgentAction
}.

(** Messages posted to the webview. *)
Inductive WebviewMsg :=
| addMessage (message : ChatMessage)
| toggleApproveAll (show : bool)
| actionComplete (actionId : str)
| actionError (actionId : str) (e : ExecError).

(** Calls that leave the provider, in the order they are made. *)
Inductive Event :=
| PostMessage (m : WebviewMsg)                           (* this._view?.webview.postMessage *)
| ShowErrorMessage (e : ExecError)                       (* vscode.window.showErrorMessage *)
| OpenTextDocument (file : str)                          (* vscode.workspace.openTextDocument *)
| ShowTextDocument (file : str)                          (* vscode.window.showTextDocument *)
| EditReplace (file : str) (r : Range) (c : option str)  (* editor.edit(e => e.replace(r, c)) *)
| WriteFile (file : str) (c : str)                       (* vscode.workspace.fs.writeFile *)
| DeleteFile (file : str)                                (* vscode.workspace.fs.delete *)
| TerminalSendText (c : option str)                      (* terminal.show(); terminal.sendText(c) *)
| OpenExternal (u : str).                                (* vscode.env.openExternal(Uri.parse(u)) *)

(** ** The TOOL_CALL parser ([parseAndConfirmActions]) *)

Definition stripPrefix (p s : str) : option str :=
  if startsWith p s then Some (skipn (length p) s) else None.

(** The marker [{{\s*TOOL_CALL:\s*(\w+)\s*}}] tried at the head of [s]:
    the captured word and the text after the marker.  [\s], [\w] and
    the literals around them are pairwise disjoint, so each greedy
    star takes the whole run and no backtracking can change the
    result. *)
Definition matchMarker (s : str) : option (str * str) :=
  match stripPrefix (lit "{{") s with
  | None => None
  | Some s1 =>
      match stripPrefix (lit "TOOL_CALL:") (dropWhile isWhiteSpace s1) with
      | None => None
      | Some s2 =>
          let s3 := dropWhile isWhiteSpace s2 in
          let word := takeWhile isWord s3 in
          match word with
          | [] => None
          | _ :: _ =>
              match stripPrefix (lit "}}") (dropWhile isWhiteSpace (dropWhile isWord s3)) with
              | None => None
              | Some s4 => Some (word, s4)
              end
          end
      end
  end.

(** The lookahead [(?={{\s*TOOL_CALL:|$)]; [$] is the end of input. *)
Definition atBlockEnd (s : str) : bool :=
  match s with
  | [] => true
  | _ :: _ =>
      match stripPrefix (lit "{{") s with
      | None => false
      | Some s1 => startsWith (lit "TOOL_CALL:") (dropWhile isWhiteSpace s1)
      end
  end.

(** The lazy body [([\s\S]*?)]: the shortest text up to a position
    where the lookahead holds; the rest starts there. *)
Fixpoint takeBody (s : str) : str * str :=
  if atBlockEnd s then ([], s)
  else match s with
       | [] => ([], [])
       | c :: s' => let (b, r) := takeBody s' in (c :: b, r)
       end.

(** One [actionRegex.exec]: the leftmost marker at or after the current
    position, with its body and the text where the next search starts. *)
Fixpoint execAction (s : str) : option (str * str * str) :=
  match matchMarker s with
  | Some (word, rest) => let (b, r) := takeBody rest in Some (word, b, r)
  | None =>
      match s with
      | [] => None
      | _ :: s' => execAction s'
      end
  end.

(** The [while ((match = actionRegex.exec(aiResponse)) !== null)] loop.
    Each match consumes text, so [n] iterations suffice for a text
    shorter than [n]. *)
Fixpoint execLoop (n : nat) (s : str) : list (str * str) :=
  match n with
  | O => []
  | S n' =>
      match execAction s with
      | None => []
      | Some (word, b, r) => (word, b) :: execLoop n' r
      end
  end.

Definition matchBlocks (aiResponse : str) : list (str * str) :=
  execLoop (S (length aiResponse)) aiResponse.

(** Canonicalisation of the [i] flag (no [u] flag).  A code unit
    outside ASCII never canonicalises to an ASCII one, so against the
    ASCII labels only [a-z] fold. *)
Definition canon (c : char) : char :=
  if ((97 <=? c) && (c <=? 122))%N then (c - 32)%N else c.

Fixpoint startsWithCI (p s : str) : bool :=
  match p, s with
  | [], _ => true
  | x :: p', y :: s' => char_eqb (canon x) (canon y) && startsWithCI p' s'
  | _ :: _, [] => false
  end.

(** The text after the first occurrence of [label], any case. *)
Fixpoint afterLabel (label s : str) : option str :=
  if startsWithCI label s then Some (skipn (length label) s)
  else match s with
       | [] => None
       | _ :: s' => afterLabel label s'
       end.

(** The optional emphasis mark (two asterisks) after a label. *)
Definition skipStars (s : str) : str :=
  if startsWith (lit "**") s then skipn 2 s else s.

(** [getField]: the label [FIELD:] under flag [i], optionally wrapped
    in two asterisks on each side, then [\s*] and a capture of the
    rest of the line, which is trimmed.  What follows the label always matches, so the first
    label is the one used. *)
Definition getField (body field : str) : option str :=
  match afterLabel (field ++ lit ":") body with
  | None => None
  | Some r =>
      Some (trim (takeWhile (fun c => negb (isLineTerminator c))
                            (dropWhile isWhiteSpace (skipStars r))))
  end.

(** The text after the first run of three backticks. *)
Fixpoint afterFence (s : str) : option str :=
  if startsWith (lit "```") s then Some (skipn 3 s)
  else match s with
       | [] => None
       | _ :: s' => afterFence s'
       end.

(** The lazy capture [([\s\S]*?)\n?```]: the text up to the closing
    fence, less one line feed right before it. *)
Fixpoint takeCapture (s : str) : option str :=
  if startsWith (LF :: lit "```") s || startsWith (lit "```") s then Some []
  else match s with
       | [] => None
       | c :: s' =>
           match takeCapture s' with
           | Some cap => Some (c :: cap)
           | None => None
           end
       end.

Definition skipLineFeed (s : str) : str :=
  match s with
  | c :: s' => if char_eqb c LF then s' else s
  | [] => s
  end.

(** [getCodeBlock]: the label as in [getField], then
    [\s*[\s\S]*?```[\w]*\n?([\s\S]*?)\n?```].  The lazy gap stops at
    the first fence after the label; a later fence or a later label
    can only succeed if the first ones do, so the first label and the
    first fence decide. *)
Definition getCodeBlock (body field : str) : option str :=
  match afterLabel (field ++ lit ":") body with
  | None => None
  | Some r =>
      match afterFence r with
      | None => None
      | Some r1 => takeCapture (skipLineFeed (dropWhile isWord r1))
      end
  end.

(** The action built from one block: [{ id, type: type as any }], then
    the fields of the five known kinds. *)
Definition buildAction (i ty body : str) : AgentAction :=
  let a := {| id := i; type := ty; path := None; content := None;
              before := None; command := None; url := None |} in
  if str_eqb ty MODIFY then
    {| id := i; type := ty;
       path := getField body (lit "FILE");
       content := getCodeBlock body (lit "AFTER");
       before := getCodeBlock body (lit "BEFORE");
       command := None; url := None |}
  else if str_eqb ty CREATE then
    {| id := i; type := ty;
       path := getField body (lit "FILE");
       content := getCodeBlock body (lit "CONTENT");
       before := None; command := None; url := None |}
  else if str_eqb ty DELETE then
    {| id := i; type := ty;
       path := getField body (lit "FILE");
       content := None; before := None; command := None; url := None |}
  else if str_eqb ty SHELL then
    {| id := i; type := ty; path := None; content := None; before := None;
       command := getField body (lit "COMMAND"); url := None |}
  else if str_eqb ty FETCH then
    {| id := i; type := ty; path := None; content := None; before := None;
       command := None; url := getField body (lit "URL") |}
  else a.

(** Truthiness of a string. *)
Definition truthy (s : str) : bool :=
  match s with
  | [] => false
  | _ :: _ => true
  end.

(** ** The host

    The calls into [vscode] and [path] that [executeAction] makes, over
    a host state [W].  A call that throws, or whose awaited promise
    rejects, returns [None].  [openExternal] is not awaited: [None]
    stands for [Uri.parse] throwing. *)
Class Host (W : Type) := {
  workspaceRoot : W -> option str;       (* workspaceFolders?.[0].uri.fsPath *)
  resolve : str -> str -> str;           (* path.resolve(root, p) *)
  openTextDocument : W -> str -> option str;   (* the opened document's getText() *)
  showTextDocument : W -> str -> option W;
  editReplace : W -> str -> Range -> option str -> option W;
  writeFile : W -> str -> str -> option W;
  deleteFile : W -> str -> option W;
  terminalSendText : W -> option str -> option W;
  openExternal : W -> str -> option W
}.

Section Provider.

Context {W : Type} {host : Host W}.

(** Code inside the [try] of [executeAction]: it threads the host, may
    throw, and makes calls; the calls made are returned in order. *)
Definition Exec (A : Type) : Type := W -> (ExecError + A) * W * list Event.

Definition ret {A} (a : A) : Exec A := fun w => (inr a, w, []).

Definition bind {A B} (c : Exec A) (k : A -> Exec B) : Exec B :=
  fun w => match c w with
           | (inr a, w1, evs) =>
               match k a w1 with
               | (r, w2, evs') => (r, w2, evs ++ evs')
               end
           | (inl err, w1, evs) => (inl err, w1, evs)
           end.

Definition throw {A} (err : ExecError) : Exec A := fun w => (inl err, w, []).

Notation "x <- c ;; k" := (bind c (fun x => k))
  (at level 61, c at next level, right associativity).
Notation "c ;;; k" := (bind c (fun _ => k))
  (at level 61, right associativity).

(** A call that changes the host. *)
Definition call (ev : Event) (f : W -> option W) : Exec unit :=
  fun w => match f w with
           | Some w1 => (inr tt, w1, [ev])
           | None => (inl ErrHost, w, [ev])
           end.

(** A call that reads from the host. *)
Definition query {A} (ev : Event) (f : W -> option A) : Exec A :=
  fun w => match f w with
           | Some a => (inr a, w, [ev])
           | None => (inl ErrHost, w, [ev])
           end.

(** [if (!workspaceRoot) throw new Error("未打开工作区")] *)
Definition getWorkspaceRoot : Exec str :=
  fun w => match workspaceRoot w with
           | Some root => if truthy root then (inr root, w, []) else (inl ErrNoWorkspace, w, [])
           | None => (inl ErrNoWorkspace, w, [])
           end.

(** A field read with [!] and then used as a string: [undefined]
    raises a [TypeError] ([path.resolve], [.length], [.split]). *)
Definition required {A} (o : option A) : Exec A :=
  match o with
  | Some a => ret a
  | None => throw ErrTypeError
  end.

(** [action.content || ''] *)
Definition orEmpty (o : option str) : str :=
  match o with
  | Some s => s
  | None => []
  end.

(** The body of the [try] up to the end of the [switch].  In the MODIFY
    case both branches end in one [e.replace] on the located range, or
    in one of the two errors; [locate] is that computation. *)
Definition runAction (a : AgentAction) : Exec unit :=
  root <- getWorkspaceRoot ;;
  if str_eqb (type a) MODIFY then
    p <- required (path a) ;;
    let file := resolve root p in
    fullText <- query (OpenTextDocument file) (fun w => openTextDocument w file) ;;
    call (ShowTextDocument file) (fun w => showTextDocument w file) ;;;
    b <- required (before a) ;;
    match locate fullText b with
    | Found r => call (EditReplace file r (content a)) (fun w => editReplace w file r (content a))
    | EmptyPatchBlock => throw ErrEmptyPatchBlock
    | NotFound => throw ErrPatchNotFound
    end
  else if str_eqb (type a) CREATE then
    p <- required (path a) ;;
    let file := resolve root p in
    call (WriteFile file (orEmpty (content a))) (fun w => writeFile w file (orEmpty (content a)))
  else if str_eqb (type a) DELETE then
    p <- required (path a) ;;
    let file := resolve root p in
    call (DeleteFile file) (fun w => deleteFile w file)
  else if str_eqb (type a) SHELL then
    call (TerminalSendText (command a)) (fun w => terminalSendText w (command a))
  else if str_eqb (type a) FETCH then
    match url a with
    | Some u => if truthy u then call (OpenExternal u) (fun w => openExternal w u) else ret tt
    | None => ret tt
    end
  else ret tt.

(** The provider: the host with the calls made so far,
    [_pendingActions] and [_chatHistory].  The handlers run on
    messages from the webview, so [_view] is set. *)
Record Provider := mkProvider {
  world : W;
  trace : list Event;
  pendingActions : list AgentAction;
  chatHistory : list ChatMessage
}.

Definition emit (evs : list Event) (st : Provider) : Provider :=
  mkProvider (world st) (trace st ++ evs) (pendingActions st) (chatHistory st).

Definition postMessage (m : WebviewMsg) (st : Provider) : Provider :=
  emit [PostMessage m] st.

Definition addToHistory (message : ChatMessage) (st : Provider) : Provider :=
  postMessage (addMessage message)
    (mkProvider (world st) (trace st) (pendingActions st) (chatHistory st ++ [message])).

(** [arr.findIndex(p)], [None] for [-1]. *)
Fixpoint findIndex {A} (p : A -> bool) (l : list A) : option nat :=
  match l with
  | [] => None
  | x :: l' => if p x then Some 0
               else match findIndex p l' with
                    | Some i => Some (S i)
                    | None => None
                    end
  end.

(** [arr.splice(index, 1)] *)
Fixpoint removeAt {A} (index : nat) (l : list A) : list A :=
  match l, index with
  | [], _ => []
  | _ :: l', O => l'
  | x :: l', S i => x :: removeAt i l'
  end.

Definition isShell (a : AgentAction) : bool := str_eqb (type a) SHELL.
Definition hasId (actionId : str) (a : AgentAction) : bool := str_eqb (id a) actionId.

(** [executeAction] once the action is found at [index]: the [try]
    with its [catch]. *)
Definition settle (actionId : str) (index : nat) (a : AgentAction) (st : Provider) : Provider :=
  match runAction a (world st) with
  | (inr _, w, evs) =>
      let pending := removeAt index (pendingActions st) in
      let remainingNonShell := filter (fun a => negb (isShell a)) pending in
      let st1 := mkProvider w (trace st ++ evs) pending (chatHistory st) in
      let st2 := postMessage (actionComplete actionId) st1 in
      if Nat.eqb (length remainingNonShell) 0
      then postMessage (toggleApproveAll false) st2
      else st2
  | (inl err, w, evs) =>
      let st1 := mkProvider w (trace st ++ evs) (pendingActions st) (chatHistory st) in
      emit [ShowErrorMessage err] (postMessage (actionError actionId err) st1)
  end.

Definition executeAction (actionId : str) (st : Provider) : Provider :=
  match findIndex (hasId actionId) (pendingActions st) with
  | None => st
  | Some index =>
      match nth_error (pendingActions st) index with
      | None => st
      | Some a => settle actionId index a st
      end
  end.

Definition handleApproveAll (st : Provider) : Provider :=
  let safeActions := filter (fun a => negb (isShell a)) (pendingActions st) in
  let skippedCount := length (pendingActions st) - length safeActions in
  let actionIds := map id safeActions in
  let st1 := fold_left (fun s i => executeAction i s) actionIds st in
  let st2 := if Nat.ltb 0 skippedCount
             then addToHistory (mkMessage system (SkippedShell skippedCount) None) st1
             else st1 in
  let remaining :=
    filter (fun a => negb (existsb (str_eqb (id a)) actionIds)) (pendingActions st2) in
  if Nat.eqb (length remaining) 0 || forallb isShell remaining
  then postMessage (toggleApproveAll false) st2
  else st2.

(** The body of the [while] loop of [parseAndConfirmActions] over the
    matched blocks; [rand k] is the id drawn for block [k]. *)
Fixpoint confirmLoop (rand : nat -> str) (k : nat) (blocks : list (str * str))
         (st : Provider) (currentBatch : list AgentAction) : Provider * list AgentAction :=
  match blocks with
  | [] => (st, currentBatch)
  | (ty, body) :: rest =>
      let a := buildAction (rand k) ty body in
      if truthy (type a) then
        let st1 := mkProvider (world st) (trace st) (pendingActions st ++ [a]) (chatHistory st) in
        confirmLoop rand (S k) rest
                    (addToHistory (mkMessage action (Verbatim []) (Some a)) st1)
                    (currentBatch ++ [a])
      else confirmLoop rand (S k) rest st currentBatch
  end.

Definition parseAndConfirmActions (rand : nat -> str) (aiResponse : str) (st : Provider) : Provider :=
  let st0 := addToHistory (mkMessage ai (Verbatim aiResponse) None) st in
  let (st1, currentBatch) := confirmLoop rand 0 (matchBlocks aiResponse) st0 [] in
  if Nat.ltb 0 (length currentBatch)
  then postMessage (toggleApproveAll true) st1
  else addToHistory (mkMessage error NoToolCallRecognized None) st1.

(** Every call a computation makes satisfies [P]. *)
Definition emitsOnly (P : Event -> Prop) {A} (c : Exec A) : Prop :=
  forall w r w' evs, c w = (r, w', evs) -> Forall P evs.

(** Running actions one after the other, each on the host the previous
    one left: the final host and the calls made. *)
Fixpoint runInOrder (l : list AgentAction) (w : W) : W * list Event :=
  match l with
  | [] => (w, [])
  | a :: l' =>
      match runAction a w with
      | (_, w1, evs) => let (w2, evs') := runInOrder l' w1 in (w2, evs ++ evs')
      end
  end.

(** The [currentBatch] of one call. *)
Definition parsedBatch (rand : nat -> str) (aiResponse : str) (st : Provider) : list AgentAction :=
  snd (confirmLoop rand 0 (matchBlocks aiResponse)
                   (addToHistory (mkMessage ai (Verbatim aiResponse) None) st) []).

End Provider.

(** ** A host in memory

    A small file system with a terminal and a browser log, used to run
    the provider on concrete inputs. *)
Record MemWorld := mkMem {
  mem_root : option str;
  mem_files : list (str * str);
  mem_terminal : list (option str);
  mem_opened : list str
}.

Fixpoint lookupFile (f : str) (fs : list (str * str)) : option str :=
  match fs with
  | [] => None
  | (g, t) :: fs' => if str_eqb f g then Some t else lookupFile f fs'
  end.

Fixpoint removeFile (f : str) (fs : list (str * str)) : list (str * str) :=
  match fs with
  | [] => []
  | (g, t) :: fs' => if str_eqb f g then removeFile f fs' else (g, t) :: removeFile f fs'
  end.

Definition storeFile (f t : str) (fs : list (str * str)) : list (str * str) :=
  (f, t) :: removeFile f fs.

Definition withFiles (w : MemWorld) (fs : list (str * str)) : MemWorld :=
  mkMem (mem_root w) fs (mem_terminal w) (mem_opened w).

#[export] Instance memHost : Host MemWorld := {
  workspaceRoot w := mem_root w;
  resolve root p := root ++ lit "/" ++ p;
  openTextDocument w f := lookupFile f (mem_files w);
  showTextDocument w f := Some w;
  editReplace w f r c :=
    match lookupFile f (mem_files w), c with
    | Some t, Some c' => Some (withFiles w (storeFile f (replaceRange t r c') (mem_files w)))
    | _, _ => None
    end;
  writeFile w f c := Some (withFiles w (storeFile f c (mem_files w)));
  deleteFile w f :=
    match lookupFile f (mem_files w) with
    | Some _ => Some (withFiles w (removeFile f (mem_files w)))
    | None => None
    end;
  terminalSendText w c :=
    Some (mkMem (mem_root w) (mem_files w) (mem_terminal w ++ [c]) (mem_opened w));
  openExternal w u :=
    Some (mkMem (mem_root w) (mem_files w) (mem_terminal w) (mem_opened w ++ [u]))
}.

Definition memProvider (w : MemWorld) (pending : list AgentAction) : Provider :=
  mkProvider w [] pending [].

(** ** Notions used in the statements *)

(** The calls into the host, without the messages to the webview and
    the error notifications. *)
Definition isHostCall (ev : Event) : bool :=
  match ev with
  | PostMessage _ | ShowErrorMessage _ => false
  | _ => true
  end.

Definition hostCalls (t : list Event) : list Event := filter isHostCall t.

(** The ids reported as completed or failed, in order. *)
Definition settledId (ev : Event) : list str :=
  match ev with
  | PostMessage (actionComplete i) => [i]
  | PostMessage (actionError i _) => [i]
  | _ => []
  end.

Definition settledIds (t : list Event) : list str := flat_map settledId t.

Definition isTerminalCall (ev : Event) : bool :=
  match ev with
  | TerminalSendText _ => true
  | _ => false
  end.

(** An occurrence of [p] in [s] at offset [k]. *)
Definition occursAt (s p : str) (k : nat) : Prop :=
  substring s k (k + length p) = p.

(** The text kept when the trailing elements satisfying [p] go. *)
Definition dropWhileEnd {A} (p : A -> bool) (l : list A) : list A :=
  rev (dropWhile p (rev l)).

(** Every effective line equals the document line at [i + j] once both
    are trimmed. *)
Definition matchesAt (docLines effective : list str) (i : nat) : Prop :=
  forall j, j < length effective ->
    trim (nth (i + j) docLines []) = trim (nth j effective []).

(** The text of lines with their terminators. *)
Definition eolText (e : nat) : str :=
  match e with
  | 0 => []
  | 1 => [LF]
  | _ => [CR; LF]
  end.

Definition joinLines (ls : list (str * nat)) : str :=
  concat (map (fun le => fst le ++ eolText (snd le)) ls).

(** The actions built from the blocks, block [k] with the id [rand k]. *)
Fixpoint actionsOf (rand : nat -> str) (k : nat) (blocks : list (str * str)) : list AgentAction :=
  match blocks with
  | [] => []
  | (ty, body) :: rest => buildAction (rand k) ty body :: actionsOf rand (S k) rest
  end.

(** The card shown for a queued action. *)
Definition actionMessage (a : AgentAction) : ChatMessage :=
  mkMessage action (Verbatim []) (Some a).

(** ** Sample inputs *)

(** ["  def f():\n    return 1\n"] and ["def f():\nreturn 1"] *)
Definition sampleDoc : str :=
  lit "  def f():" ++ [LF] ++ lit "    return 1" ++ [LF].
Definition sampleBefore : str := lit "def f():" ++ [LF] ++ lit "return 1".

(** A block of blank lines: ["  \n\t\n "] *)
Definition blankBefore : str := lit "  " ++ [LF; 9%N; LF] ++ lit " ".

(** A workspace [/w] holding [f.txt] with text ["abc"]. *)
Definition sampleWorld : MemWorld :=
  mkMem (Some (lit "/w")) [(lit "/w/f.txt", lit "abc")] [] [].

Definition modifyB : AgentAction :=
  {| id := lit "m1"; type := MODIFY; path := Some (lit "f.txt");
     content := Some (lit "B"); before := Some (lit "b");
     command := None; url := None |}.

Definition shellLs : AgentAction :=
  {| id := lit "s1"; type := SHELL; path := None; content := None;
     before := None; command := Some (lit "ls"); url := None |}.

Definition createG : AgentAction :=
  {| id := lit "c1"; type := CREATE; path := Some (lit "g.txt");
     content := Some (lit "hi"); before := None; command := None; url := None |}.

(** A MODIFY whose [before] is not in the file. *)
Definition modifyX : AgentAction :=
  {| id := lit "m2"; type := MODIFY; path := Some (lit "f.txt");
     content := Some (lit "B"); before := Some (lit "x");
     command := None; url := None |}.

(** ["{{TOOL_CALL:CREATE}}\nFILE: a.txt\nCONTENT:\n```\nhello\n```\n"] *)
Definition createSample : str :=
  lit "{{TOOL_CALL:CREATE}}" ++ [LF] ++ lit "FILE: a.txt" ++ [LF]
  ++ lit "CONTENT:" ++ [LF] ++ lit "```" ++ [LF] ++ lit "hello" ++ [LF]
  ++ lit "```" ++ [LF].

(** ["{{TOOL_CALL:FOO}}\n"]: a marker with a kind that is none of the five. *)
Definition fooSample : str := lit "{{TOOL_CALL:FOO}}" ++ [LF].

(** ** The history view ([clearChat], [restoreHistory])

    These two post messages of their own; the messages they post are
    returned in order.  [view] tells whether [_view] is set: the
    command [only-agent.clearHistory] can run before the view is
    resolved. *)
Inductive ViewMsg :=
| coreMsg (m : WebviewMsg)
| clearChatMsg                                   (* { type: 'clearChat' } *)
| restoreHistoryMsg (history : list ChatMessage). (* { type: 'restoreHistory', history } *)

(** ['🗑️ 历史记录已清空。'] in code units. *)
Definition clearedNotice : ChatMessage :=
  mkMessage system
    (Verbatim [55357; 56785; 65039; 32; 21382; 21490; 35760; 24405;
               24050; 28165; 31354; 12290]%N)
    None.

Section View.

Context {W : Type}.

Definition restoreHistory (view : bool) (st : @Provider W) : list ViewMsg :=
  if view then
    restoreHistoryMsg (chatHistory st)
    :: (if Nat.ltb 0 (length (pendingActions st))
        then [coreMsg (toggleApproveAll true)] else [])
  else [].

Definition clearChat (view : bool) (st : @Provider W) : @Provider W * list ViewMsg :=
  let st1 := mkProvider (world st) (trace st) [] [clearedNotice] in
  (st1, (if view then [clearChatMsg] else []) ++ restoreHistory view st1).

End View.

(** ** More notions used in the statements *)

(** The completions posted so far. *)
Definition isCompletion (ev : Event) : bool :=
  match ev with
  | PostMessage (actionComplete _) => true
  | _ => false
  end.

Definition completions (t : list Event) : nat := length (filter isCompletion t).

(** A block as the prompt spells it: the marker, then the body. *)
Definition renderBlock (wb : str * str) : str :=
  lit "{{TOOL_CALL:" ++ fst wb ++ lit "}}" ++ snd wb.

Definition renderBlocks (blocks : list (str * str)) : str :=
  concat (map renderBlock blocks).

(** What [executeAction] leaves when the [try] throws before any call:
    the error is posted and shown, nothing else changes. *)
Definition failedWith {W : Type} (actionId : str) (err : ExecError) (st : @Provider W)
  : @Provider W :=
  mkProvider (world st)
             (trace st ++ [PostMessage (actionError actionId err); ShowErrorMessage err])
             (pendingActions st) (chatHistory st).

(** What [executeAction] leaves when the [try] completes on host [w]
    after the calls [evs]: the action at [index] is spliced out, the
    completion is posted, and the bulk button is hidden when no action
    other than SHELL remains. *)
Definition completedWith {W : Type} (actionId : str) (index : nat) (w : W)
           (evs : list Event) (st : @Provider W) : @Provider W :=
  let pending := removeAt index (pendingActions st) in
  mkProvider w
             (trace st ++ evs
              ++ PostMessage (actionComplete actionId)
                 :: (if Nat.eqb (length (filter (fun a => negb (isShell a)) pending)) 0
                     then [PostMessage (toggleApproveAll false)] else []))
             pending (chatHistory st).

(** A word of a marker: not empty, made of [\w] characters. *)
Definition isMarkerWord (w : str) : bool := truthy w && forallb isWord w.

(** A text without an opening brace. *)
Definition noBrace (s : str) : bool := forallb (fun c => negb (char_eqb c 123%N)) s.

(** A text without a colon. *)
Definition noColon (s : str) : bool := forallb (fun c => negb (char_eqb c 58%N)) s.

(** The call [ev] is one an action of the type of [a] makes: the editor
    for MODIFY, a write for CREATE, a delete for DELETE, the terminal
    for SHELL, the browser for FETCH. *)
Definition callFits (a : AgentAction) (ev : Event) : Prop :=
  match ev with
  | OpenTextDocument _ | ShowTextDocument _ | EditReplace _ _ _ => type a = MODIFY
  | WriteFile _ _ => type a = CREATE
  | DeleteFile _ => type a = DELETE
  | TerminalSendText _ => type a = SHELL
  | OpenExternal _ => type a = FETCH
  | PostMessage _ | ShowErrorMessage _ => False
  end.


Definition deleteNoPath : AgentAction :=
  {| id := lit "d1"; type := DELETE; path := None; content := None;
     before := None; command := None; url := None |}.

Definition fooAction : AgentAction :=
  {| id := lit "x1"; type := lit "FOO"; path := None; content := None;
     before := None; command := None; url := None |}.

Definition fetchNoUrl : AgentAction :=
  {| id := lit "u1"; type := FETCH; path := None; content := None;
     before := None; command := None; url := None |}.

Definition createNoContent : AgentAction :=
  {| id := lit "c2"; type := CREATE; path := Some (lit "e.txt"); content := None;
     before := None; command := None; url := None |}.

(** ** The prompt ([getProjectStructure], [handleCopyPrompt])

    The builder reads the workspace folders, the files [findFiles]
    returns for each (at most 100, those under [node_modules] left out
    by the editor) and the open text documents.  They are given here
    as the editor returns them, each file spelled as [path.relative]
    spells it against its folder. *)
Record WorkspaceFolder := mkFolder {
  folder_name : str;
  folder_files : list str
}.

Record TextDocument := mkDocument {
  fileName : str;
  scheme : str;     (* doc.uri.scheme *)
  getText : str
}.

Record PromptOptions := mkOptions {
  includeStructure : bool;
  includeOpenFiles : bool
}.

(** [s.includes(p)]. *)
Definition includes (s p : str) : bool :=
  match indexOf s p with
  | Some _ => true
  | None => false
  end.

(** [workspaceFolders] is [undefined] when no workspace is open. *)
Definition getProjectStructure (folders : option (list WorkspaceFolder)) : str :=
  match folders with
  | None => lit "No workspace opened."
  | Some fs =>
      fold_left
        (fun structure folder =>
           fold_left (fun structure f => structure ++ lit "- " ++ f ++ [LF])
                     (folder_files folder)
                     (structure ++ lit "Project: " ++ folder_name folder ++ [LF]))
        fs []
  end.

(** The test of the loop over [textDocuments]. *)
Definition isListed (doc : TextDocument) : bool :=
  negb (includes (fileName doc) (lit "node_modules")) && str_eqb (scheme doc) (lit "file").

(** What a listed document adds: its name, then its text in a fence. *)
Definition openFileEntry (doc : TextDocument) : str :=
  LF :: lit "File: " ++ fileName doc ++ [LF]
  ++ lit "```" ++ [LF] ++ getText doc ++ [LF] ++ lit "```" ++ [LF].

Definition openFiles (textDocuments : list TextDocument) : str :=
  fold_left
    (fun openFilesContext doc =>
       if isListed doc then openFilesContext ++ openFileEntry doc else openFilesContext)
    textDocuments [].

(** ['✅ 已复制 Prompt'], [' (含项目结构)'] and [' (含打开文件)']. *)
Definition copiedNotice : str :=
  [9989]%N ++ lit " " ++ [24050; 22797; 21046]%N ++ lit " Prompt".

Definition withStructure : str :=
  lit " (" ++ [21547; 39033; 30446; 32467; 26500]%N ++ lit ")".

Definition withOpenFiles : str :=
  lit " (" ++ [21547; 25171; 24320; 25991; 20214]%N ++ lit ")".

(** ['项目结构：'] and ['当前打开的文件内容：']. *)
Definition structureLabel : str := [39033; 30446; 32467; 26500; 65306]%N.

Definition openFilesLabel : str :=
  [24403; 21069; 25171; 24320; 30340; 25991; 20214; 20869; 23481; 65306]%N.

(** The first half of [handleCopyPrompt]: [contextText] and [logMsg]
    once the two options are dealt with. *)
Definition gatherContext (folders : option (list WorkspaceFolder))
           (textDocuments : list TextDocument) (options : PromptOptions) : str * str :=
  let contextText := [] in
  let logMsg := copiedNotice in
  let '(contextText, logMsg) :=
    if includeStructure options then
      let structure := getProjectStructure folders in
      (contextText ++ structureLabel ++ [LF] ++ structure ++ [LF; LF],
       logMsg ++ withStructure)
    else (contextText, logMsg) in
  if includeOpenFiles options then
    let openFilesContext := openFiles textDocuments in
    if truthy openFilesContext then
      (contextText ++ openFilesLabel ++ [LF] ++ openFilesContext ++ [LF; LF],
       logMsg ++ withOpenFiles)
    else (contextText, logMsg)
  else (contextText, logMsg).

(** The template up to [contextText], line by line:

      你是一个强大的 AI Agent。请用简体中文回复。
      你可以执行以下工具指令，请严格遵守格式：

      1. 修改代码:
      {{TOOL_CALL:MODIFY}}
      FILE: 文件路径
      BEFORE:
      ```
      原代码块
      ```
      AFTER:
      ```
      修改后代码块
      ```

      2. 创建文件:
      {{TOOL_CALL:CREATE}}
      FILE: 文件路径
      CONTENT:
      ```
      文件内容
      ```

      3. 删除文件:
      {{TOOL_CALL:DELETE}}
      FILE: 文件路径

      4. 终端指令:
      {{TOOL_CALL:SHELL}}
      COMMAND: 指令内容

      5. 网络请求:
      {{TOOL_CALL:FETCH}}
      URL: 请求地址
*)
Definition promptHeader : str :=
  [20320; 26159; 19968; 20010; 24378; 22823; 30340]%N ++ lit " AI Agent"
  ++ [12290; 35831; 29992; 31616; 20307; 20013; 25991; 22238; 22797; 12290]%N ++ [LF]
  ++ [20320; 21487; 20197; 25191; 34892; 20197; 19979; 24037; 20855; 25351; 20196;
      65292; 35831; 20005; 26684; 36981; 23432; 26684; 24335; 65306]%N ++ [LF]
  ++ [LF]
  ++ lit "1. " ++ [20462; 25913; 20195; 30721]%N ++ lit ":" ++ [LF]
  ++ lit "{{TOOL_CALL:MODIFY}}" ++ [LF]
  ++ lit "FILE: " ++ [25991; 20214; 36335; 24452]%N ++ [LF]
  ++ lit "BEFORE:" ++ [LF]
  ++ lit "```" ++ [LF]
  ++ [21407; 20195; 30721; 22359]%N ++ [LF]
  ++ lit "```" ++ [LF]
  ++ lit "AFTER:" ++ [LF]
  ++ lit "```" ++ [LF]
  ++ [20462; 25913; 21518; 20195; 30721; 22359]%N ++ [LF]
  ++ lit "```" ++ [LF]
  ++ [LF]
  ++ lit "2. " ++ [21019; 24314; 25991; 20214]%N ++ lit ":" ++ [LF]
  ++ lit "{{TOOL_CALL:CREATE}}" ++ [LF]
  ++ lit "FILE: " ++ [25991; 20214; 36335; 24452]%N ++ [LF]
  ++ lit "CONTENT:" ++ [LF]
  ++ lit "```" ++ [LF]
  ++ [25991; 20214; 20869; 23481]%N ++ [LF]
  ++ lit "```" ++ [LF]
  ++ [LF]
  ++ lit "3. " ++ [21024; 38500; 25991; 20214]%N ++ lit ":" ++ [LF]
  ++ lit "{{TOOL_CALL:DELETE}}" ++ [LF]
  ++ lit "FILE: " ++ [25991; 20214; 36335; 24452]%N ++ [LF]
  ++ [LF]
  ++ lit "4. " ++ [32456; 31471; 25351; 20196]%N ++ lit ":" ++ [LF]
  ++ lit "{{TOOL_CALL:SHELL}}" ++ [LF]
  ++ lit "COMMAND: " ++ [25351; 20196; 20869; 23481]%N ++ [LF]
  ++ [LF]
  ++ lit "5. " ++ [32593; 32476; 35831; 27714]%N ++ lit ":" ++ [LF]
  ++ lit "{{TOOL_CALL:FETCH}}" ++ [LF]
  ++ lit "URL: " ++ [35831; 27714; 22320; 22336]%N ++ [LF]
  ++ [LF].

Section Prompt.

Context {W : Type}.

(** [handleCopyPrompt]: the text handed to [clipboard.writeText], and
    the provider afterwards.  [written] tells whether the clipboard
    took the text; when it did not, the promise is rejected before
    the log line is added. *)
Definition handleCopyPrompt (folders : option (list WorkspaceFolder))
           (textDocuments : list TextDocument) (written : bool)
           (userInstruction : str) (options : PromptOptions) (st : @Provider W)
  : str * @Provider W :=
  let '(contextText, logMsg) := gatherContext folders textDocuments options in
  let prompt := promptHeader ++ contextText ++ lit "User Request: " ++ userInstruction in
  (prompt,
   if written then addToHistory (mkMessage system (Verbatim logMsg) None) st else st).

End Prompt.

(** No marker starts anywhere in the text: the lookahead that ends a
    body fails at every position before the end. *)
Fixpoint noMarkerStart (s : str) : bool :=
  match s with
  | [] => true
  | _ :: s' => negb (atBlockEnd s) && noMarkerStart s'
  end.

(** The five examples of the template as actions: the path [文件路径],
    the blocks [原代码块], [修改后代码块] and [文件内容], the command
    [指令内容] and the address [请求地址]. *)
Definition examplePath : str := [25991; 20214; 36335; 24452]%N.

Definition promptExamples (rand : nat -> str) : list AgentAction :=
  [ mkAction (rand 0) MODIFY (Some examplePath)
             (Some [20462; 25913; 21518; 20195; 30721; 22359]%N)
             (Some [21407; 20195; 30721; 22359]%N) None None;
    mkAction (rand 1) CREATE (Some examplePath)
             (Some [25991; 20214; 20869; 23481]%N) None None None;
    mkAction (rand 2) DELETE (Some examplePath) None None None None;
    mkAction (rand 3) SHELL None None None (Some [25351; 20196; 20869; 23481]%N) None;
    mkAction (rand 4) FETCH None None None None
             (Some [35831; 27714; 22320; 22336]%N) ].

(** Two open documents, one of them under [node_modules], and a
    workspace of one folder. *)
Definition sampleDocuments : list TextDocument :=
  [ mkDocument (lit "/w/a.js") (lit "file") (lit "let a = {x: 1};");
    mkDocument (lit "/w/node_modules/m.js") (lit "file") (lit "{{TOOL_CALL:SHELL}}") ].

Definition sampleFolders : option (list WorkspaceFolder) :=
  Some [mkFolder (lit "w") [lit "a.js"; lit "src/b.js"]].

(** ** The dispatcher ([activate], [resolveWebviewView])

    What reaches the provider: the messages of the webview, and the
    command [only-agent.clearHistory].  A message is given with what
    the environment supplies to its handler: the ids drawn for a
    response, the folders and documents read for a prompt.  Each
    handler is run to its end before the next input is taken. *)
Inductive WebviewData :=
| copyPrompt (folders : option (list WorkspaceFolder)) (textDocuments : list TextDocument)
             (written : bool) (inputValue : str) (options : PromptOptions)
| applyChange (rand : nat -> str) (inputValue : str)
| approveAction (actionId : str)
| approveAll
| ready
| otherData.   (* any other [data.type]: no case of the [switch] *)

Inductive Input :=
| received (data : WebviewData)
| clearHistory (view : bool).   (* the command; [view]: the view is resolved *)

Section Dispatch.

Context {W : Type} {host : Host W}.

(** The provider after the handler of [data].  The text that
    [handleCopyPrompt] hands to the clipboard and the messages that
    [restoreHistory] posts are what these two functions return; they
    leave no mark on the provider. *)
Definition onDidReceiveMessage (data : WebviewData) (st : @Provider W) : @Provider W :=
  match data with
  | copyPrompt folders textDocuments written inputValue options =>
      snd (handleCopyPrompt folders textDocuments written inputValue options st)
  | applyChange rand inputValue => parseAndConfirmActions rand inputValue st
  | approveAction actionId => executeAction actionId st
  | approveAll => handleApproveAll st
  | ready => st
  | otherData => st
  end.

Definition step (i : Input) (st : @Provider W) : @Provider W :=
  match i with
  | received data => onDidReceiveMessage data st
  | clearHistory view => fst (clearChat view st)
  end.

Definition run (inputs : list Input) (st : @Provider W) : @Provider W :=
  fold_left (fun s i => step i s) inputs st.

End Dispatch.


Definition isApply (i : Input) : bool :=
  match i with
  | received (applyChange _ _) => true
  | _ => false
  end.

(** * Properties *)

(** ** Strings *)

Lemma char_eqb_eq (a b : char) : char_eqb a b = true <-> a = b.
Proof. unfold char_eqb. apply N.eqb_eq. Qed.

Lemma char_eqb_refl (a : char) : char_eqb a a = true.
Proof. apply char_eqb_eq. reflexivity. Qed.

Lemma str_eqb_eq (a b : str) : str_eqb a b = true <-> a = b.
Proof.
  revert b. induction a as [|x a IH]; intros [|y b]; simpl; split; intro E;
    try reflexivity; try discriminate.
  - apply andb_true_iff in E. destruct E as [E1 E2].
    apply char_eqb_eq in E1. apply IH in E2. subst. reflexivity.
  - injection E as -> ->. rewrite char_eqb_refl. simpl. apply IH. reflexivity.
Qed.

Lemma str_eqb_refl (a : str) : str_eqb a a = true.
Proof. apply str_eqb_eq. reflexivity. Qed.

Lemma str_eqb_neq (a b : str) : str_eqb a b = false <-> a <> b.
Proof.
  split.
  - intros E ->. rewrite str_eqb_refl in E. discriminate.
  - intro N. destruct (str_eqb a b) eqn:E; [|reflexivity].
    apply str_eqb_eq in E. contradiction.
Qed.

Lemma startsWith_app (p s : str) :
  startsWith p s = true <-> exists t, s = p ++ t.
Proof.
  revert s. induction p as [|x p IH]; intros s; simpl.
  - split; [intros _; exists s; reflexivity | reflexivity].
  - destruct s as [|y s].
    + split; [discriminate | intros [t E]; discriminate].
    + rewrite andb_true_iff, char_eqb_eq, IH. split.
      * intros [-> [t ->]]. exists t. reflexivity.
      * intros [t E]. injection E as -> ->. split; [reflexivity | exists t; reflexivity].
Qed.

Lemma startsWith_firstn (p s : str) :
  startsWith p s = true <-> firstn (length p) s = p.
Proof.
  rewrite startsWith_app. split.
  - intros [t ->]. rewrite firstn_app, Nat.sub_diag, firstn_all. simpl.
    apply app_nil_r.
  - intro E. exists (skipn (length p) s). rewrite <- E at 1.
    symmetry. apply firstn_skipn.
Qed.

Lemma occursAt_startsWith (s p : str) (k : nat) :
  occursAt s p k <-> startsWith p (skipn k s) = true.
Proof.
  unfold occursAt, substring. rewrite startsWith_firstn.
  replace (k + length p - k) with (length p) by lia. reflexivity.
Qed.

Lemma occursAt_app (pre p post : str) : occursAt (pre ++ p ++ post) p (length pre).
Proof.
  apply occursAt_startsWith. rewrite skipn_app, Nat.sub_diag, skipn_all. simpl.
  apply startsWith_app. exists post. reflexivity.
Qed.

Lemma indexOf_from_sound (s p : str) : forall k n,
  indexOf_from k s p = Some n ->
  k <= n /\ occursAt s p (n - k) /\ forall j, j < n - k -> ~ occursAt s p j.
Proof.
  induction s as [|c s IH]; intros k n; simpl.
  - destruct (startsWith p []) eqn:E; [|discriminate].
    intros [= <-]. rewrite Nat.sub_diag. split; [lia|]. split.
    + apply occursAt_startsWith. exact E.
    + intros j Hj. lia.
  - destruct (startsWith p (c :: s)) eqn:E.
    + intros [= <-]. rewrite Nat.sub_diag. split; [lia|]. split.
      * apply occursAt_startsWith. exact E.
      * intros j Hj. lia.
    + intro Hn. apply IH in Hn. destruct Hn as (Hk & Ho & Hm).
      split; [lia|]. replace (n - k) with (S (n - S k)) by lia. split.
      * apply occursAt_startsWith. simpl. apply occursAt_startsWith. exact Ho.
      * intros [|j] Hj Hc.
        -- apply occursAt_startsWith in Hc. simpl in Hc. congruence.
        -- apply (Hm j); [lia|]. apply occursAt_startsWith.
           apply occursAt_startsWith in Hc. exact Hc.
Qed.

Lemma indexOf_from_complete (s p : str) : forall k j,
  occursAt s p j -> j <= length s -> exists n, indexOf_from k s p = Some n.
Proof.
  induction s as [|c s IH]; intros k j Ho Hj; simpl.
  - assert (j = 0) by (simpl in Hj; lia). subst j.
    apply occursAt_startsWith in Ho. simpl in Ho. rewrite Ho. eauto.
  - destruct (startsWith p (c :: s)) eqn:E; [eauto|].
    destruct j as [|j].
    + apply occursAt_startsWith in Ho. simpl in Ho. congruence.
    + apply (IH (S k) j).
      * apply occursAt_startsWith. apply occursAt_startsWith in Ho. exact Ho.
      * simpl in Hj. lia.
Qed.

Lemma indexOf_sound (s p : str) (n : nat) :
  indexOf s p = Some n -> occursAt s p n /\ forall j, j < n -> ~ occursAt s p j.
Proof.
  intro E. apply indexOf_from_sound in E. rewrite Nat.sub_0_r in E. tauto.
Qed.

Lemma indexOf_found (pre p post : str) :
  exists n, indexOf (pre ++ p ++ post) p = Some n /\ n <= length pre.
Proof.
  destruct (indexOf_from_complete (pre ++ p ++ post) p 0 (length pre)) as [n E].
  - apply occursAt_app.
  - rewrite length_app. lia.
  - exists n. split; [exact E|].
    apply indexOf_sound in E. destruct E as [_ Hm].
    destruct (Nat.le_gt_cases n (length pre)) as [L|G]; [exact L|].
    exfalso. apply (Hm (length pre) G). apply occursAt_app.
Qed.

(** ** C1 *)

(** C1. Whenever [before] occurs verbatim in the file text, the locate
    step of MODIFY returns the range from [offset] to
    [offset + before.length], where [offset] is the lowest offset at
    which [before] occurs; the text in that range is [before] itself,
    character for character. *)
Theorem locate_exact_first_occurrence (pre before post : str) :
  exists offset,
    locate (pre ++ before ++ post) before
    = Found (mkRange (positionAt offset) (positionAt (offset + length before)))
    /\ indexOf (pre ++ before ++ post) before = Some offset
    /\ substring (pre ++ before ++ post) offset (offset + length before) = before
    /\ offset <= length pre
    /\ forall k, k < offset ->
         substring (pre ++ before ++ post) k (k + length before) <> before.
Proof.
  destruct (indexOf_found pre before post) as (n & E & L).
  exists n. unfold locate. rewrite E.
  destruct (indexOf_sound _ _ _ E) as [Ho Hm].
  split; [reflexivity|]. split; [reflexivity|].
  split; [exact Ho|]. split; [exact L|].
  intros k Hk. exact (Hm k Hk).
Qed.

(** ** The effective search lines *)

Lemma dropWhile_length {A} (p : A -> bool) (l : list A) :
  length (dropWhile p l) <= length l.
Proof.
  induction l as [|x l IH]; simpl; [lia|]. destruct (p x); simpl; lia.
Qed.

Lemma takeWhile_dropWhile {A} (p : A -> bool) (l : list A) :
  takeWhile p l ++ dropWhile p l = l.
Proof.
  induction l as [|x l IH]; simpl; [reflexivity|].
  destruct (p x); simpl; [rewrite IH|]; reflexivity.
Qed.

Lemma takeWhile_all {A} (p : A -> bool) (l : list A) :
  forallb p (takeWhile p l) = true.
Proof.
  induction l as [|x l IH]; simpl; [reflexivity|].
  destruct (p x) eqn:E; simpl; [rewrite E; exact IH | reflexivity].
Qed.

Lemma dropWhileEnd_snoc {A} (p : A -> bool) (l : list A) (x : A) :
  dropWhileEnd p (l ++ [x]) = if p x then dropWhileEnd p l else l ++ [x].
Proof.
  unfold dropWhileEnd. rewrite rev_app_distr. simpl.
  destruct (p x); [reflexivity|]. simpl. rewrite rev_involutive. reflexivity.
Qed.

Lemma dropWhileEnd_prefix {A} (p : A -> bool) (l : list A) :
  exists t, l = dropWhileEnd p l ++ t /\ forallb p t = true.
Proof.
  induction l as [|x l IH] using rev_ind.
  - exists []. split; reflexivity.
  - rewrite dropWhileEnd_snoc. destruct (p x) eqn:E.
    + destruct IH as (t & Ht & Hp). exists (t ++ [x]). split.
      * rewrite app_assoc, <- Ht. reflexivity.
      * rewrite forallb_app, Hp. simpl. rewrite E. reflexivity.
    + exists []. split; [rewrite app_nil_r|]; reflexivity.
Qed.

Lemma lineAtZ_app (pre rest : list str) :
  lineAtZ (pre ++ rest) (Z.of_nat (length pre)) = nth 0 rest [].
Proof.
  unfold lineAtZ. rewrite Nat2Z.id, app_nth2, Nat.sub_diag; [reflexivity | lia].
Qed.

(** The first loop stops at the first line that is not blank. *)
Lemma skipLeading_spec (rest : list str) : forall (pre : list str) (n : nat),
  length rest <= n ->
  skipLeading (pre ++ rest) (Z.of_nat (length (pre ++ rest)) - 1) n (Z.of_nat (length pre))
  = Z.of_nat (length pre + length (takeWhile isBlank rest)).
Proof.
  induction rest as [|x rest IH]; intros pre n Hn.
  - rewrite app_nil_r. simpl. destruct n as [|n]; simpl.
    + f_equal. lia.
    + replace (Z.of_nat (length pre) <=? Z.of_nat (length pre) - 1)%Z with false
        by (symmetry; apply Z.leb_gt; lia).
      simpl. f_equal. lia.
  - destruct n as [|n]; [simpl in Hn; lia|].
    cbn [skipLeading]. rewrite lineAtZ_app. cbn [nth takeWhile].
    replace (Z.of_nat (length pre) <=? Z.of_nat (length (pre ++ x :: rest)) - 1)%Z
      with true by (symmetry; apply Z.leb_le; rewrite length_app; simpl; lia).
    cbn [andb]. destruct (isBlank x) eqn:E.
    + specialize (IH (pre ++ [x]) n). rewrite <- app_assoc in IH. simpl in IH.
      replace (Z.of_nat (length pre) + 1)%Z with (Z.of_nat (length (pre ++ [x])))
        by (rewrite length_app; simpl; lia).
      rewrite IH by (simpl in Hn; lia).
      f_equal. rewrite length_app. simpl. lia.
    + simpl. f_equal. lia.
Qed.

(** The second loop stops at the last line that is not blank, or just
    below [startSearch]. *)
Lemma skipTrailing_spec (pre : list str) (m : list str) : forall (back : list str) (n : nat),
  length m <= n ->
  skipTrailing (pre ++ m ++ back) (Z.of_nat (length pre)) n
               (Z.of_nat (length pre + length m) - 1)
  = (Z.of_nat (length pre + length (dropWhileEnd isBlank m)) - 1)%Z.
Proof.
  induction m as [|x m IH] using rev_ind; intros back n Hn.
  - simpl. destruct n as [|n]; simpl.
    + reflexivity.
    + replace (Z.of_nat (length pre + 0) - 1 >=? Z.of_nat (length pre))%Z with false
        by (symmetry; rewrite Z.geb_leb; apply Z.leb_gt; lia).
      reflexivity.
  - rewrite length_app in Hn. simpl in Hn. destruct n as [|n]; [lia|].
    cbn [skipTrailing].
    replace (Z.of_nat (length pre + length (m ++ [x])) - 1 >=? Z.of_nat (length pre))%Z
      with true by (symmetry; rewrite Z.geb_leb; apply Z.leb_le; rewrite length_app; simpl; lia).
    cbn [andb].
    assert (Hx : lineAtZ (pre ++ (m ++ [x]) ++ back)
                         (Z.of_nat (length pre + length (m ++ [x])) - 1) = x).
    { unfold lineAtZ. rewrite length_app. simpl.
      replace (Z.to_nat (Z.of_nat (length pre + (length m + 1)) - 1))
        with (length (pre ++ m) + 0) by (rewrite length_app; lia).
      rewrite <- app_assoc. rewrite (app_assoc pre m).
      rewrite app_nth2_plus. reflexivity. }
    rewrite Hx. rewrite dropWhileEnd_snoc. destruct (isBlank x) eqn:E.
    + specialize (IH ([x] ++ back) n). rewrite <- app_assoc.
      replace (Z.of_nat (length pre + length (m ++ [x])) - 1 - 1)%Z
        with (Z.of_nat (length pre + length m) - 1)%Z
        by (rewrite length_app; simpl; lia).
      apply IH. lia.
    + reflexivity.
Qed.

Lemma slice_middle {A} (pre m back : list A) :
  slice (pre ++ m ++ back) (Z.of_nat (length pre)) (Z.of_nat (length pre + length m)) = m.
Proof.
  unfold slice, sliceIndex. rewrite !length_app.
  replace (Z.of_nat (length pre) <? 0)%Z with false by (symmetry; apply Z.ltb_ge; lia).
  replace (Z.of_nat (length pre + length m) <? 0)%Z with false
    by (symmetry; apply Z.ltb_ge; lia).
  rewrite !Z.min_l by lia.
  rewrite Nat2Z.id.
  replace (Z.to_nat (Z.of_nat (length pre + length m) - Z.of_nat (length pre)))
    with (length m) by lia.
  rewrite skipn_app, Nat.sub_diag, skipn_all. simpl.
  rewrite firstn_app, Nat.sub_diag, firstn_all. simpl. apply app_nil_r.
Qed.

(** The two loops and the slice compute what the specification
    describes. *)
Lemma effectiveSearchLines_trimBlankLines (searchLines : list str) :
  effectiveSearchLines searchLines = trimBlankLines searchLines.
Proof.
  unfold effectiveSearchLines, trimBlankLines.
  pose proof (skipLeading_spec searchLines [] (length searchLines) (le_n _)) as H1.
  simpl in H1. rewrite H1.
  set (pre := takeWhile isBlank searchLines).
  set (m := dropWhile isBlank searchLines).
  assert (Hs : searchLines = pre ++ m) by (symmetry; apply takeWhile_dropWhile).
  clearbody pre m. subst searchLines.
  destruct (dropWhileEnd_prefix isBlank m) as (t & Ht & _).
  fold (dropWhileEnd isBlank m).
  pose proof (skipTrailing_spec pre m [] (length (pre ++ m))) as H2.
  rewrite app_nil_r in H2.
  replace (Z.of_nat (length (pre ++ m)) - 1)%Z
    with (Z.of_nat (length pre + length m) - 1)%Z
    by (rewrite length_app; lia).
  rewrite H2 by (rewrite length_app; lia).
  replace (Z.of_nat (length pre + length (dropWhileEnd isBlank m)) - 1 + 1)%Z
    with (Z.of_nat (length pre + length (dropWhileEnd isBlank m))) by lia.
  rewrite Ht at 1. apply slice_middle.
Qed.

Lemma dropWhile_nil_iff {A} (p : A -> bool) (l : list A) :
  dropWhile p l = [] <-> forallb p l = true.
Proof.
  induction l as [|x l IH]; simpl; [tauto|].
  destruct (p x); simpl; [exact IH|]. split; discriminate.
Qed.

Lemma forallb_rev_eq {A} (p : A -> bool) (l : list A) :
  forallb p (rev l) = forallb p l.
Proof.
  induction l as [|x l IH]; simpl; [reflexivity|].
  rewrite forallb_app, IH. simpl. rewrite andb_true_r. apply andb_comm.
Qed.

(** The effective list is empty exactly when every line of the block
    is blank. *)
Lemma effectiveSearchLines_nil_iff (searchLines : list str) :
  effectiveSearchLines searchLines = [] <-> forallb isBlank searchLines = true.
Proof.
  rewrite effectiveSearchLines_trimBlankLines. unfold trimBlankLines. split.
  - intro E. apply (f_equal (@rev str)) in E. rewrite rev_involutive in E. simpl in E.
    apply dropWhile_nil_iff in E. rewrite forallb_rev_eq in E.
    rewrite <- (takeWhile_dropWhile isBlank searchLines), forallb_app.
    rewrite takeWhile_all, E. reflexivity.
  - intro E. apply dropWhile_nil_iff in E. rewrite E. reflexivity.
Qed.

(** ** The line scan *)

Lemma linesMatchAt_iff (docLines effective : list str) (i : nat) :
  linesMatchAt docLines effective i = true <-> matchesAt docLines effective i.
Proof.
  unfold linesMatchAt, matchesAt. rewrite forallb_forall. split.
  - intros H j Hj. apply str_eqb_eq. apply H. apply in_seq. lia.
  - intros H j Hj. apply in_seq in Hj. apply str_eqb_eq. apply H. lia.
Qed.

Lemma linesMatchAt_false_iff (docLines effective : list str) (i : nat) :
  linesMatchAt docLines effective i = false <-> ~ matchesAt docLines effective i.
Proof.
  rewrite <- linesMatchAt_iff.
  destruct (linesMatchAt docLines effective i); split; intro H.
  - discriminate.
  - exfalso. apply H. reflexivity.
  - discriminate.
  - reflexivity.
Qed.

Lemma findLineFrom_Some (docLines effective : list str) : forall n i0 i,
  findLineFrom docLines effective n i0 = Some i ->
  i0 <= i < i0 + n /\ matchesAt docLines effective i
  /\ forall i', i0 <= i' < i -> ~ matchesAt docLines effective i'.
Proof.
  induction n as [|n IH]; intros i0 i; simpl; [discriminate|].
  destruct (linesMatchAt docLines effective i0) eqn:E.
  - intros [= <-]. split; [lia|]. split; [apply linesMatchAt_iff; exact E|].
    intros i' Hi'. lia.
  - intro H. apply IH in H. destruct H as (Hr & Hm & Hl).
    split; [lia|]. split; [exact Hm|].
    intros i' Hi'. destruct (Nat.eq_dec i' i0) as [->|Hne].
    + apply linesMatchAt_false_iff. exact E.
    + apply Hl. lia.
Qed.

Lemma findLineFrom_None (docLines effective : list str) : forall n i0,
  findLineFrom docLines effective n i0 = None ->
  forall i, i0 <= i < i0 + n -> ~ matchesAt docLines effective i.
Proof.
  induction n as [|n IH]; intros i0; simpl; [intros _ i Hi; lia|].
  destruct (linesMatchAt docLines effective i0) eqn:E; [discriminate|].
  intros H i Hi. destruct (Nat.eq_dec i i0) as [->|Hne].
  - apply linesMatchAt_false_iff. exact E.
  - apply (IH (S i0) H). lia.
Qed.

Lemma findLineFrom_first (docLines effective : list str) : forall n i0 i,
  i0 <= i < i0 + n ->
  matchesAt docLines effective i ->
  (forall i', i0 <= i' < i -> ~ matchesAt docLines effective i') ->
  findLineFrom docLines effective n i0 = Some i.
Proof.
  intros n i0 i Hi Hm Hl.
  destruct (findLineFrom docLines effective n i0) as [k|] eqn:E.
  - apply findLineFrom_Some in E. destruct E as (Hr & Hk & Hkl).
    f_equal. destruct (Nat.lt_trichotomy k i) as [L|[Q|G]].
    + exfalso. apply (Hl k); [lia | exact Hk].
    + exact Q.
    + exfalso. apply (Hkl i); [lia | exact Hm].
  - exfalso. exact (findLineFrom_None _ _ _ _ E i Hi Hm).
Qed.

(** The candidates are the [i] with [i + effective.length <= docLines.length]. *)
Lemma candidate_count (d e i : nat) :
  i < Z.to_nat (Z.of_nat d - Z.of_nat e + 1) <-> i + e <= d.
Proof. lia. Qed.

Lemma findLineIndex_nil (docLines : list str) : findLineIndex docLines [] = Some 0.
Proof.
  unfold findLineIndex. simpl.
  destruct (Z.to_nat (Z.of_nat (length docLines) - 0 + 1)) eqn:E; [lia|].
  reflexivity.
Qed.

(** ** The document model *)

Lemma scanLines_not_nil (s : str) : scanLines s <> [].
Proof.
  assert (G : forall ls c, consHeadEol c ls <> []).
  { intros [|[l e] ls] c; discriminate. }
  destruct s as [|c s]; simpl; [discriminate|].
  destruct (char_eqb c LF); [discriminate|].
  destruct s as [|d s]; [apply G|].
  destruct (char_eqb c CR && char_eqb d LF); [discriminate | apply G].
Qed.

Lemma consHeadEol_fst (c : char) (ls : list (str * nat)) :
  map fst (consHeadEol c ls) = consHead c (map fst ls).
Proof. destruct ls as [|[l e] ls]; reflexivity. Qed.

Lemma consHeadEol_join (c : char) (ls : list (str * nat)) :
  joinLines (consHeadEol c ls) = c :: joinLines ls.
Proof. destruct ls as [|[l e] ls]; reflexivity. Qed.

(** The lines the source indexes are the lines of the document. *)
Lemma scanLines_fst (s : str) : forall n, length s <= n ->
  map fst (scanLines s) = splitLines s.
Proof.
  intros n; revert s. induction n as [|n IH]; intros s Hn.
  - destruct s; [reflexivity | simpl in Hn; lia].
  - destruct s as [|c s]; [reflexivity|]. simpl in Hn. simpl.
    destruct (char_eqb c LF).
    + simpl. rewrite (IH s) by lia. reflexivity.
    + destruct s as [|d s]; [reflexivity|].
      destruct (char_eqb c CR && char_eqb d LF).
      * simpl. rewrite (IH s) by (simpl in Hn; lia). reflexivity.
      * rewrite consHeadEol_fst. rewrite (IH (d :: s)) by lia. reflexivity.
Qed.

Lemma joinLines_scanLines (s : str) : forall n, length s <= n ->
  joinLines (scanLines s) = s.
Proof.
  intros n; revert s. induction n as [|n IH]; intros s Hn.
  - destruct s; [reflexivity | simpl in Hn; lia].
  - destruct s as [|c s]; [reflexivity|]. simpl in Hn. simpl.
    destruct (char_eqb c LF) eqn:E1.
    + apply char_eqb_eq in E1. subst c. unfold joinLines. simpl.
      fold (joinLines (scanLines s)). rewrite (IH s) by lia. reflexivity.
    + destruct s as [|d s]; [reflexivity|].
      destruct (char_eqb c CR && char_eqb d LF) eqn:E2.
      * apply andb_true_iff in E2. destruct E2 as [E2 E3].
        apply char_eqb_eq in E2, E3. subst c d. unfold joinLines. simpl.
        fold (joinLines (scanLines s)). rewrite (IH s) by (simpl in Hn; lia).
        reflexivity.
      * rewrite consHeadEol_join. rewrite (IH (d :: s)) by lia. reflexivity.
Qed.

Lemma joinLines_cons (l : str) (e : nat) (ls : list (str * nat)) :
  joinLines ((l, e) :: ls) = l ++ eolText e ++ joinLines ls.
Proof. unfold joinLines. simpl. rewrite <- app_assoc. reflexivity. Qed.

Lemma eolText_length (e : nat) : e <= 2 -> length (eolText e) = e.
Proof. destruct e as [|[|[|e]]]; simpl; lia. Qed.

Lemma scanLines_eol (s : str) : forall n, length s <= n ->
  Forall (fun le => snd le <= 2) (scanLines s).
Proof.
  assert (G : forall c ls, Forall (fun le : str * nat => snd le <= 2) ls ->
                           Forall (fun le : str * nat => snd le <= 2) (consHeadEol c ls)).
  { intros c [|[l e] ls] H; simpl.
    - constructor; [simpl; lia | constructor].
    - inversion H; subst. constructor; assumption. }
  intros n; revert s. induction n as [|n IH]; intros s Hn.
  - destruct s; [|simpl in Hn; lia]. simpl. constructor; [simpl; lia | constructor].
  - destruct s as [|c s]; simpl.
    + constructor; [simpl; lia | constructor].
    + simpl in Hn. destruct (char_eqb c LF).
      * constructor; [simpl; lia | apply IH; lia].
      * destruct s as [|d s]; [constructor; [simpl; lia | constructor]|].
        destruct (char_eqb c CR && char_eqb d LF).
        -- constructor; [simpl; lia | apply IH; simpl in Hn; lia].
        -- apply G. apply IH. lia.
Qed.

Lemma firstn_lineOffset (ls : list (str * nat)) : forall k,
  Forall (fun le => snd le <= 2) ls -> k <= length ls ->
  firstn (lineOffset ls k) (joinLines ls) = joinLines (firstn k ls).
Proof.
  induction ls as [|[l e] ls IH]; intros k Hf Hk.
  - destruct k; reflexivity.
  - destruct k as [|k]; [reflexivity|]. inversion Hf; subst. simpl in *.
    rewrite !joinLines_cons, !app_assoc.
    rewrite firstn_app.
    replace (length l + e + lineOffset ls k - length (l ++ eolText e))
      with (lineOffset ls k) by (rewrite length_app, eolText_length; lia).
    rewrite firstn_all2 by (rewrite length_app, eolText_length; lia).
    rewrite IH by (assumption || lia). reflexivity.
Qed.

Lemma skipn_lineOffset (ls : list (str * nat)) : forall k,
  Forall (fun le => snd le <= 2) ls -> k < length ls ->
  skipn (lineOffset ls k + length (fst (nth k ls ([], 0)))) (joinLines ls)
  = eolText (snd (nth k ls ([], 0))) ++ joinLines (skipn (S k) ls).
Proof.
  induction ls as [|[l e] ls IH]; intros k Hf Hk; [simpl in Hk; lia|].
  inversion Hf; subst. simpl in *. destruct k as [|k].
  - simpl. rewrite joinLines_cons, skipn_app, Nat.sub_diag, skipn_all. reflexivity.
  - rewrite joinLines_cons, app_assoc, skipn_app.
    rewrite skipn_all2 by (rewrite length_app, eolText_length; lia).
    replace (length l + e + lineOffset ls k + length (fst (nth k ls ([], 0)))
             - length (l ++ eolText e))
      with (lineOffset ls k + length (fst (nth k ls ([], 0))))
      by (rewrite length_app, eolText_length; lia).
    simpl. apply IH; [assumption | lia].
Qed.

(** Replacing from the start of line [i] to the end of line [k] keeps
    the lines before [i] and everything from the terminator of line
    [k] on, and puts [content] between them. *)
Lemma replaceRange_whole_lines (fullText content : str) (i k : nat) :
  i <= k -> k < length (splitLines fullText) ->
  replaceRange fullText (mkRange (lineStart i) (lineEnd k)) content
  = joinLines (firstn i (scanLines fullText)) ++ content
    ++ eolText (snd (nth k (scanLines fullText) ([], 0)))
    ++ joinLines (skipn (S k) (scanLines fullText)).
Proof.
  intros Hik Hk. rewrite <- (scanLines_fst fullText (length fullText) (le_n _)) in Hk.
  rewrite length_map in Hk.
  pose proof (scanLines_eol fullText (length fullText) (le_n _)) as Hf.
  pose proof (joinLines_scanLines fullText (length fullText) (le_n _)) as Hj.
  unfold replaceRange. cbn [offsetAt range_start range_end].
  set (ls := scanLines fullText) in *. clearbody ls. subst fullText.
  rewrite firstn_lineOffset by (assumption || lia).
  rewrite skipn_lineOffset by assumption. reflexivity.
Qed.

(** ** C2, C6: the line stage of the matcher *)

(** What [locate] returns when the exact stage fails. *)
Lemma locate_line_stage (fullText before : str) :
  indexOf fullText before = None ->
  locate fullText before
  = match effectiveSearchLines (splitLines before) with
    | [] => EmptyPatchBlock
    | (_ :: _) as effective =>
        match findLineIndex (splitLines fullText) effective with
        | Some i => Found (mkRange (lineStart i) (lineEnd (i + length effective - 1)))
        | None => NotFound
        end
    end.
Proof.
  intro E. unfold locate. rewrite E.
  destruct (effectiveSearchLines (splitLines before)); reflexivity.
Qed.

(** X23. A line range comes from the scan, and only after the exact
    stage found nothing: its first line is the lowest candidate at
    which the trimmed lines agree, its last line is the line of the
    last effective search line, and the block fits in the document. *)
Lemma locate_line_range (fullText before : str) (i k : nat) :
  locate fullText before = Found (mkRange (lineStart i) (lineEnd k)) ->
  let docLines := splitLines fullText in
  let effective := effectiveSearchLines (splitLines before) in
  indexOf fullText before = None
  /\ effective <> []
  /\ k = i + length effective - 1
  /\ i + length effective <= length docLines
  /\ matchesAt docLines effective i
  /\ forall i', i' < i -> ~ matchesAt docLines effective i'.
Proof.
  intros H docLines effective. unfold locate in H.
  destruct (indexOf fullText before) as [offset|] eqn:Hx; [discriminate|].
  fold docLines effective in H. cbv zeta in H.
  destruct (Nat.eqb (length effective) 0) eqn:Hz; [discriminate|].
  destruct (findLineIndex docLines effective) as [j|] eqn:Hf; [|discriminate].
  injection H as <- <-.
  unfold findLineIndex in Hf. apply findLineFrom_Some in Hf.
  destruct Hf as (Hr & Hm & Hl).
  split; [reflexivity|]. split.
  { intro E. rewrite E in Hz. discriminate. }
  split; [reflexivity|]. split.
  { apply candidate_count. lia. }
  split; [exact Hm|]. intros i' Hi'. apply Hl. lia.
Qed.

(** C2. When the exact stage fails and the effective block is not
    empty, the line stage succeeds at the lowest candidate line [i] at
    which every effective line equals the document line [i + j] after
    both are trimmed.  The range runs from the start of line [i] to
    the end of line [i + effective.length - 1]: replacing it keeps the
    lines before [i] and what follows the last matched line, and puts
    [content] verbatim in place of the matched lines, indentation and
    trailing whitespace included. *)
Theorem fuzzy_first_match_whole_lines (fullText before : str) (i : nat) :
  let docLines := splitLines fullText in
  let effective := effectiveSearchLines (splitLines before) in
  let last := i + length effective - 1 in
  indexOf fullText before = None ->
  effective <> [] ->
  i + length effective <= length docLines ->
  matchesAt docLines effective i ->
  (forall i', i' < i -> ~ matchesAt docLines effective i') ->
  locate fullText before = Found (mkRange (lineStart i) (lineEnd last))
  /\ forall content,
       replaceRange fullText (mkRange (lineStart i) (lineEnd last)) content
       = joinLines (firstn i (scanLines fullText)) ++ content
         ++ eolText (snd (nth last (scanLines fullText) ([], 0)))
         ++ joinLines (skipn (S last) (scanLines fullText)).
Proof.
  intros docLines effective last Hx Hne Hi Hm Hl.
  assert (Hlen : 0 < length effective).
  { destruct effective; [contradiction | simpl; lia]. }
  split.
  - rewrite (locate_line_stage _ _ Hx). fold effective.
    destruct effective as [|l0 ls] eqn:Ee; [contradiction|].
    unfold findLineIndex. fold docLines.
    rewrite (findLineFrom_first docLines (l0 :: ls) _ 0 i).
    + reflexivity.
    + pose proof (proj2 (candidate_count (length docLines) (length (l0 :: ls)) i) Hi).
      lia.
    + exact Hm.
    + intros i' Hi'. apply Hl. lia.
  - intro content. apply replaceRange_whole_lines; unfold last; fold docLines; lia.
Qed.

Lemma fuzzy_first_match_whole_lines_witness :
  locate sampleDoc sampleBefore = Found (mkRange (lineStart 0) (lineEnd 1))
  /\ forall content,
       replaceRange sampleDoc (mkRange (lineStart 0) (lineEnd 1)) content
       = [] ++ content ++ [LF] ++ [].
Proof.
  apply (fuzzy_first_match_whole_lines sampleDoc sampleBefore 0).
  - vm_compute. reflexivity.
  - vm_compute. discriminate.
  - vm_compute. lia.
  - apply linesMatchAt_iff. vm_compute. reflexivity.
  - intros i' Hi'. lia.
Defined.

(** C6. When the exact stage fails and no line of [before] survives the
    trimming of blank leading and trailing lines, the locate step ends
    in the empty-search-block error, not in the not-found error. *)
Theorem empty_block_is_reported (fullText before : str) :
  indexOf fullText before = None ->
  effectiveSearchLines (splitLines before) = [] ->
  locate fullText before = EmptyPatchBlock /\ locate fullText before <> NotFound.
Proof.
  intros Hx He. rewrite (locate_line_stage _ _ Hx), He. split; [reflexivity | discriminate].
Qed.

Lemma empty_block_is_reported_witness :
  locate (lit "abc") blankBefore = EmptyPatchBlock
  /\ locate (lit "abc") blankBefore <> NotFound.
Proof.
  apply (empty_block_is_reported (lit "abc") blankBefore).
  - vm_compute. reflexivity.
  - vm_compute. reflexivity.
Defined.

(** ** Arrays *)

Lemma findIndex_None {A} (p : A -> bool) (l : list A) :
  findIndex p l = None <-> forall x, In x l -> p x = false.
Proof.
  induction l as [|y l IH]; simpl.
  - split; [intros _ x [] | reflexivity].
  - destruct (p y) eqn:E.
    + split; [discriminate|]. intro H. rewrite (H y (or_introl eq_refl)) in E. discriminate.
    + destruct (findIndex p l) as [i|].
      * split; [discriminate|]. intro H.
        assert (N : Some i = None) by (apply IH; intros x Hx; apply H; right; exact Hx).
        discriminate.
      * split; [|reflexivity]. intros _ x [<-|Hx]; [exact E|].
        apply IH; [reflexivity | exact Hx].
Qed.

Lemma findIndex_first (l : list AgentAction) : forall a,
  NoDup (map id l) -> In a l ->
  exists i, findIndex (hasId (id a)) l = Some i /\ nth_error l i = Some a.
Proof.
  induction l as [|x l IH]; intros a Hnd Hin; [destruct Hin|].
  simpl in Hnd. inversion Hnd as [|? ? Hx Hnd']; subst. simpl.
  unfold hasId at 1. destruct (str_eqb (id x) (id a)) eqn:E.
  - exists 0. split; [reflexivity|]. apply str_eqb_eq in E.
    destruct Hin as [->|Hin]; [reflexivity|].
    exfalso. apply Hx. rewrite E. apply in_map. exact Hin.
  - destruct Hin as [->|Hin]; [rewrite str_eqb_refl in E; discriminate|].
    destruct (IH a Hnd' Hin) as (i & Hi & Hn). exists (S i). rewrite Hi.
    split; [reflexivity | exact Hn].
Qed.

Lemma removeAt_length {A} (l : list A) : forall i a,
  nth_error l i = Some a -> S (length (removeAt i l)) = length l.
Proof.
  induction l as [|x l IH]; intros [|i] a H; simpl in *; try discriminate.
  - reflexivity.
  - rewrite (IH i a H). reflexivity.
Qed.

Lemma removeAt_In {A} (l : list A) : forall i b, In b (removeAt i l) -> In b l.
Proof.
  induction l as [|x l IH]; intros [|i] b H; simpl in *; try contradiction.
  - right. exact H.
  - destruct H as [->|H]; [left; reflexivity | right; exact (IH i b H)].
Qed.

Lemma removeAt_keeps {A} (l : list A) : forall i a b,
  nth_error l i = Some a -> In b l -> b <> a -> In b (removeAt i l).
Proof.
  induction l as [|x l IH]; intros [|i] a b Hn Hin Hne; simpl in *; try discriminate.
  - injection Hn as ->. destruct Hin as [->|Hin]; [contradiction | exact Hin].
  - destruct Hin as [->|Hin]; [left; reflexivity | right; exact (IH i a b Hn Hin Hne)].
Qed.

Lemma removeAt_filter {A} (p : A -> bool) (l : list A) : forall i a,
  nth_error l i = Some a -> p a = false -> filter p (removeAt i l) = filter p l.
Proof.
  induction l as [|x l IH]; intros [|i] a Hn Hp; simpl in *; try discriminate.
  - injection Hn as ->. rewrite Hp. reflexivity.
  - rewrite (IH i a Hn Hp). reflexivity.
Qed.

Lemma removeAt_NoDup {A B} (f : A -> B) (l : list A) : forall i,
  NoDup (map f l) -> NoDup (map f (removeAt i l)).
Proof.
  induction l as [|x l IH]; intros [|i] H; simpl in *; try exact H.
  - inversion H; assumption.
  - inversion H as [|? ? Hx Hnd]; subst. constructor.
    + intro Hin. apply Hx. apply in_map_iff in Hin. destruct Hin as (y & Hy & Hin).
      apply in_map_iff. exists y. split; [exact Hy | exact (removeAt_In _ _ _ Hin)].
    + apply IH. exact Hnd.
Qed.

(** Ids stay distinct in any part of the queue picked by a test. *)
Lemma distinct_ids_filter (keep : AgentAction -> bool) (queue : list AgentAction) :
  NoDup (map id queue) -> NoDup (map id (filter keep queue)).
Proof.
  induction queue as [|x queue IH]; intro H; simpl in *; [exact H|].
  apply NoDup_cons_iff in H. destruct H as [Hx Hnd].
  destruct (keep x); [|exact (IH Hnd)].
  simpl. constructor; [|exact (IH Hnd)].
  intro Hin. apply Hx. apply in_map_iff in Hin. destruct Hin as (y & Hy & Hin).
  apply filter_In in Hin. apply in_map_iff. exists y. tauto.
Qed.

Lemma filter_partition_length {A} (p : A -> bool) (l : list A) :
  length l - length (filter (fun a => negb (p a)) l) = length (filter p l).
Proof.
  assert (H : length (filter (fun a => negb (p a)) l) + length (filter p l) = length l).
  { induction l as [|x l IH]; simpl; [reflexivity|]. destruct (p x); simpl; lia. }
  lia.
Qed.

(** ** The executor *)

Section ExecutorFacts.

Context {W : Type} {host : Host W}.

Lemma emitsOnly_ret (P : Event -> Prop) {A} (a : A) : emitsOnly P (@ret W A a).
Proof. intros w r w' evs [= <- <- <-]. constructor. Qed.

Lemma emitsOnly_throw (P : Event -> Prop) {A} (err : ExecError) :
  emitsOnly P (@throw W A err).
Proof. intros w r w' evs [= <- <- <-]. constructor. Qed.

Lemma emitsOnly_bind (P : Event -> Prop) {A B} (c : @Exec W A) (k : A -> @Exec W B) :
  emitsOnly P c -> (forall a, emitsOnly P (k a)) -> emitsOnly P (bind c k).
Proof.
  intros Hc Hk w r w' evs. unfold bind.
  destruct (c w) as [[[err|a] w1] evs1] eqn:Ec.
  - intros [= <- <- <-]. exact (Hc _ _ _ _ Ec).
  - destruct (k a w1) as [[r2 w2] evs2] eqn:Ek. intros [= <- <- <-].
    apply Forall_app. split; [exact (Hc _ _ _ _ Ec) | exact (Hk _ _ _ _ _ Ek)].
Qed.

Lemma emitsOnly_call (P : Event -> Prop) (ev : Event) (f : W -> option W) :
  P ev -> emitsOnly P (call ev f).
Proof.
  intros Hp w r w' evs. unfold call.
  destruct (f w); intros [= <- <- <-]; constructor; (exact Hp || constructor).
Qed.

Lemma emitsOnly_query (P : Event -> Prop) {A} (ev : Event) (f : W -> option A) :
  P ev -> emitsOnly P (query ev f).
Proof.
  intros Hp w r w' evs. unfold query.
  destruct (f w); intros [= <- <- <-]; constructor; (exact Hp || constructor).
Qed.

Lemma emitsOnly_root (P : Event -> Prop) : emitsOnly P (@getWorkspaceRoot W host).
Proof.
  intros w r w' evs. unfold getWorkspaceRoot.
  destruct (workspaceRoot w) as [root|]; [destruct (truthy root)|];
    intros [= <- <- <-]; constructor.
Qed.

Lemma emitsOnly_required (P : Event -> Prop) {A} (o : option A) :
  emitsOnly P (@required W A o).
Proof. destruct o; [apply emitsOnly_ret | apply emitsOnly_throw]. Qed.

Ltac emits_step :=
  first [ apply emitsOnly_bind | apply emitsOnly_root | apply emitsOnly_required
        | apply emitsOnly_ret | apply emitsOnly_throw
        | apply emitsOnly_query | apply emitsOnly_call
        | progress intros
        | reflexivity ].

(** Inside the [try] only the editor, the file system, the terminal and
    the browser are called. *)
Lemma runAction_host_calls (a : AgentAction) :
  emitsOnly (fun ev => isHostCall ev = true) (runAction a).
Proof.
  unfold runAction. apply emitsOnly_bind; [apply emitsOnly_root|]. intro root.
  destruct (str_eqb (type a) MODIFY).
  { repeat emits_step. destruct (locate _ _); repeat emits_step. }
  destruct (str_eqb (type a) CREATE); [repeat emits_step|].
  destruct (str_eqb (type a) DELETE); [repeat emits_step|].
  destruct (str_eqb (type a) SHELL); [repeat emits_step|].
  destruct (str_eqb (type a) FETCH); [|repeat emits_step].
  destruct (url a) as [u|]; [destruct (truthy u)|]; repeat emits_step.
Qed.

(** An action that is not a SHELL action sends nothing to the terminal. *)
Lemma runAction_no_terminal (a : AgentAction) :
  isShell a = false ->
  emitsOnly (fun ev => isTerminalCall ev = false) (runAction a).
Proof.
  unfold isShell. intro Hs.
  unfold runAction. apply emitsOnly_bind; [apply emitsOnly_root|]. intro root.
  destruct (str_eqb (type a) MODIFY).
  { repeat emits_step. destruct (locate _ _); repeat emits_step. }
  destruct (str_eqb (type a) CREATE); [repeat emits_step|].
  destruct (str_eqb (type a) DELETE); [repeat emits_step|].
  rewrite Hs.
  destruct (str_eqb (type a) FETCH); [|repeat emits_step].
  destruct (url a) as [u|]; [destruct (truthy u)|]; repeat emits_step.
Qed.

(** A MODIFY action with its fields, on a host that opens and shows the
    file: the outcome of the locate step decides. *)
Lemma runAction_modify (a : AgentAction) (w w1 : W) (root p b fullText : str) :
  type a = MODIFY ->
  workspaceRoot w = Some root -> truthy root = true ->
  path a = Some p -> before a = Some b ->
  openTextDocument w (resolve root p) = Some fullText ->
  showTextDocument w (resolve root p) = Some w1 ->
  let file := resolve root p in
  runAction a w
  = match locate fullText b with
    | Found r =>
        match editReplace w1 file r (content a) with
        | Some w2 =>
            (inr tt, w2,
             [OpenTextDocument file; ShowTextDocument file; EditReplace file r (content a)])
        | None =>
            (inl ErrHost, w1,
             [OpenTextDocument file; ShowTextDocument file; EditReplace file r (content a)])
        end
    | EmptyPatchBlock =>
        (inl ErrEmptyPatchBlock, w1, [OpenTextDocument file; ShowTextDocument file])
    | NotFound =>
        (inl ErrPatchNotFound, w1, [OpenTextDocument file; ShowTextDocument file])
    end.
Proof.
  intros Ht Hr Htr Hp Hb Ho Hs file. subst file.
  unfold runAction, bind, getWorkspaceRoot, required, query, call, ret, throw.
  rewrite Hr, Htr, Ht, str_eqb_refl, Hp, Ho, Hs, Hb.
  destruct (locate fullText b) as [r| |]; try reflexivity.
  destruct (editReplace w1 (resolve root p) r (content a)); reflexivity.
Qed.

(** A MODIFY whose [before] occurs in the file replaces the range of the
    first occurrence with [action.content]. *)
Lemma runAction_modify_exact (a : AgentAction) (w w1 w2 : W)
      (root p b fullText : str) (offset : nat) :
  type a = MODIFY ->
  workspaceRoot w = Some root -> truthy root = true ->
  path a = Some p -> before a = Some b ->
  openTextDocument w (resolve root p) = Some fullText ->
  showTextDocument w (resolve root p) = Some w1 ->
  indexOf fullText b = Some offset ->
  let file := resolve root p in
  let r := mkRange (positionAt offset) (positionAt (offset + length b)) in
  editReplace w1 file r (content a) = Some w2 ->
  runAction a w
  = (inr tt, w2, [OpenTextDocument file; ShowTextDocument file; EditReplace file r (content a)]).
Proof.
  intros Ht Hr Htr Hp Hb Ho Hs Hx file r He.
  rewrite (runAction_modify a w w1 root p b fullText Ht Hr Htr Hp Hb Ho Hs).
  unfold locate. rewrite Hx. fold r. fold file. rewrite He. reflexivity.
Qed.

(** ** C7 *)

(** C7. A MODIFY whose [before] is found neither by the exact stage nor
    by the line scan ends in the not-found error: after the document
    is opened and shown no further call is made, so no range of the
    file is replaced and the host is the one [showTextDocument] left. *)
Theorem modify_not_found_leaves_text (a : AgentAction) (w w1 : W)
        (root p b fullText : str) :
  type a = MODIFY ->
  workspaceRoot w = Some root -> truthy root = true ->
  path a = Some p -> before a = Some b ->
  openTextDocument w (resolve root p) = Some fullText ->
  showTextDocument w (resolve root p) = Some w1 ->
  indexOf fullText b = None ->
  findLineIndex (splitLines fullText) (effectiveSearchLines (splitLines b)) = None ->
  locate fullText b = NotFound
  /\ runAction a w
     = (inl ErrPatchNotFound, w1,
        [OpenTextDocument (resolve root p); ShowTextDocument (resolve root p)]).
Proof.
  intros Ht Hr Htr Hp Hb Ho Hs Hx Hf.
  assert (Hl : locate fullText b = NotFound).
  { rewrite (locate_line_stage _ _ Hx).
    destruct (effectiveSearchLines (splitLines b)) as [|l0 ls].
    - rewrite findLineIndex_nil in Hf. discriminate.
    - cbv beta iota zeta. rewrite Hf. reflexivity. }
  split; [exact Hl|].
  rewrite (runAction_modify a w w1 root p b fullText Ht Hr Htr Hp Hb Ho Hs), Hl.
  reflexivity.
Qed.

End ExecutorFacts.

Lemma modify_not_found_leaves_text_witness :
  locate (lit "abc") (lit "x") = NotFound
  /\ runAction modifyX sampleWorld
     = (inl ErrPatchNotFound, sampleWorld,
        [OpenTextDocument (lit "/w/f.txt"); ShowTextDocument (lit "/w/f.txt")]).
Proof.
  change (lit "/w/f.txt") with (resolve (lit "/w") (lit "f.txt")).
  apply (modify_not_found_leaves_text modifyX sampleWorld sampleWorld
           (lit "/w") (lit "f.txt") (lit "x") (lit "abc")); vm_compute; reflexivity.
Defined.

(** ** The pending queue *)

Section QueueFacts.

Context {W : Type} {host : Host W}.

Lemma filter_all {A} (p : A -> bool) (l : list A) :
  Forall (fun x => p x = true) l -> filter p l = l.
Proof.
  induction 1 as [|x l Hx Hl IH]; simpl; [reflexivity|]. rewrite Hx, IH. reflexivity.
Qed.

Lemma hostCalls_app (t u : list Event) : hostCalls (t ++ u) = hostCalls t ++ hostCalls u.
Proof. apply filter_app. Qed.

Lemma hostCalls_all (evs : list Event) :
  Forall (fun ev => isHostCall ev = true) evs -> hostCalls evs = evs.
Proof. apply filter_all. Qed.

Lemma settledIds_app (t u : list Event) :
  settledIds (t ++ u) = settledIds t ++ settledIds u.
Proof. apply flat_map_app. Qed.

Lemma settledIds_host (evs : list Event) :
  Forall (fun ev => isHostCall ev = true) evs -> settledIds evs = [].
Proof.
  induction 1 as [|ev evs Hev _ IH]; [reflexivity|].
  unfold settledIds in *. simpl. rewrite IH.
  destruct ev; try discriminate; reflexivity.
Qed.

(** C10. Approving an id that no queued action carries changes
    nothing: the host, the calls made, the queue and the history are
    the ones before. *)
Theorem executeAction_unknown_id (actionId : str) (st : @Provider W) :
  (forall a, In a (pendingActions st) -> id a <> actionId) ->
  executeAction actionId st = st.
Proof.
  intro H. unfold executeAction.
  replace (findIndex (hasId actionId) (pendingActions st)) with (@None nat); [reflexivity|].
  symmetry. apply findIndex_None. intros a Ha. apply str_eqb_neq. exact (H a Ha).
Qed.

(** What [executeAction] does once the action is found. *)
Lemma settle_facts (actionId : str) (index : nat) (a : AgentAction) (st : @Provider W)
      (r : ExecError + unit) (w1 : W) (evs : list Event) :
  runAction a (world st) = (r, w1, evs) ->
  let st' := settle actionId index a st in
  world st' = w1
  /\ hostCalls (trace st') = hostCalls (trace st) ++ evs
  /\ settledIds (trace st') = settledIds (trace st) ++ [actionId]
  /\ chatHistory st' = chatHistory st
  /\ pendingActions st'
     = match r with
       | inr _ => removeAt index (pendingActions st)
       | inl _ => pendingActions st
       end.
Proof.
  intros Hr st'. subst st'. unfold settle. rewrite Hr.
  pose proof (runAction_host_calls a _ _ _ _ Hr) as Hh.
  destruct r as [err|u].
  - cbn [world trace chatHistory pendingActions emit postMessage].
    rewrite !hostCalls_app, !settledIds_app, (hostCalls_all _ Hh), (settledIds_host _ Hh).
    simpl. rewrite !app_nil_r. repeat split; reflexivity.
  - destruct (Nat.eqb _ 0);
      cbn [world trace chatHistory pendingActions emit postMessage];
      rewrite !hostCalls_app, !settledIds_app, (hostCalls_all _ Hh), (settledIds_host _ Hh);
      simpl; rewrite ?app_nil_r; repeat split; reflexivity.
Qed.

(** C4, as the code has it.  Let [a] be the first queued action with the
    approved id.  When its execution succeeds, [a] is spliced out of
    the queue and the completion is posted.  When it throws, the
    error is posted and shown, and the queue is left as it was: the
    failed action stays queued and can be approved again. *)
Theorem executeAction_outcome (actionId : str) (index : nat) (a : AgentAction)
        (st : @Provider W) (r : ExecError + unit) (w1 : W) (evs : list Event) :
  findIndex (hasId actionId) (pendingActions st) = Some index ->
  nth_error (pendingActions st) index = Some a ->
  runAction a (world st) = (r, w1, evs) ->
  let st' := executeAction actionId st in
  match r with
  | inr _ =>
      pendingActions st' = removeAt index (pendingActions st)
      /\ S (length (pendingActions st')) = length (pendingActions st)
      /\ In (PostMessage (actionComplete actionId)) (trace st')
  | inl err =>
      pendingActions st' = pendingActions st
      /\ In a (pendingActions st')
      /\ trace st'
         = trace st ++ evs ++ [PostMessage (actionError actionId err); ShowErrorMessage err]
  end.
Proof.
  intros Hi Hn Hr st'. subst st'. unfold executeAction. rewrite Hi, Hn.
  unfold settle. rewrite Hr. destruct r as [err|u].
  - cbn [world trace chatHistory pendingActions emit postMessage].
    split; [reflexivity|]. split; [exact (nth_error_In _ _ Hn)|].
    rewrite <- !app_assoc. reflexivity.
  - destruct (Nat.eqb _ 0); cbn [trace pendingActions emit postMessage];
      (split; [reflexivity|]); (split; [exact (removeAt_length _ _ _ Hn)|]).
    + apply in_or_app. left. apply in_or_app. right. left. reflexivity.
    + apply in_or_app. right. left. reflexivity.
Qed.

End QueueFacts.

Lemma executeAction_unknown_id_witness :
  executeAction (lit "zz") (memProvider sampleWorld [modifyB; shellLs; createG])
  = memProvider sampleWorld [modifyB; shellLs; createG].
Proof.
  apply (executeAction_unknown_id (lit "zz")
           (memProvider sampleWorld [modifyB; shellLs; createG])).
  intros a Ha. simpl in Ha.
  destruct Ha as [<-|[<-|[<-|[]]]]; vm_compute; discriminate.
Defined.

(** A MODIFY that fails with the not-found error is still queued after
    its approval; the error is posted and shown. *)
Lemma failed_action_stays_queued :
  let st' := executeAction (id modifyX) (memProvider sampleWorld [modifyX]) in
  In modifyX (pendingActions st')
  /\ pendingActions st' = [modifyX]
  /\ trace st'
     = [OpenTextDocument (lit "/w/f.txt"); ShowTextDocument (lit "/w/f.txt");
        PostMessage (actionError (id modifyX) ErrPatchNotFound);
        ShowErrorMessage ErrPatchNotFound].
Proof.
  vm_compute. split; [left; reflexivity|]. split; reflexivity.
Qed.

Lemma executeAction_outcome_witness :
  let st' := executeAction (id modifyX) (memProvider sampleWorld [modifyX]) in
  pendingActions st' = [modifyX]
  /\ In modifyX (pendingActions st')
  /\ trace st'
     = [] ++ [OpenTextDocument (lit "/w/f.txt"); ShowTextDocument (lit "/w/f.txt")]
       ++ [PostMessage (actionError (id modifyX) ErrPatchNotFound);
           ShowErrorMessage ErrPatchNotFound].
Proof.
  apply (executeAction_outcome (id modifyX) 0 modifyX (memProvider sampleWorld [modifyX])
           (inl ErrPatchNotFound) sampleWorld
           [OpenTextDocument (lit "/w/f.txt"); ShowTextDocument (lit "/w/f.txt")]);
    vm_compute; reflexivity.
Defined.

(** ** C5: bulk approval *)

Section ApprovalFacts.

Context {W : Type} {host : Host W}.

Lemma runInOrder_no_terminal (l : list AgentAction) : forall w : W,
  (forall a, In a l -> isShell a = false) ->
  Forall (fun ev => isTerminalCall ev = false) (snd (runInOrder l w)).
Proof.
  induction l as [|a l IH]; intros w Hl; simpl; [constructor|].
  destruct (runAction a w) as [[r w1] evs] eqn:Er.
  specialize (IH w1 (fun b Hb => Hl b (or_intror Hb))).
  destruct (runInOrder l w1) as [w2 evs2]. simpl in *.
  apply Forall_app. split; [|exact IH].
  exact (runAction_no_terminal a (Hl a (or_introl eq_refl)) _ _ _ _ Er).
Qed.

(** The loop of [handleApproveAll] over the ids of actions that are
    queued, not SHELL and told apart by their ids: each id resolves to
    its own action, which is run on the host the previous one left. *)
Lemma approve_loop (l : list AgentAction) : forall st : @Provider W,
  NoDup (map id (pendingActions st)) ->
  NoDup (map id l) ->
  (forall a, In a l -> In a (pendingActions st)) ->
  (forall a, In a l -> isShell a = false) ->
  let st' := fold_left (fun s i => executeAction i s) (map id l) st in
  world st' = fst (runInOrder l (world st))
  /\ hostCalls (trace st') = hostCalls (trace st) ++ snd (runInOrder l (world st))
  /\ settledIds (trace st') = settledIds (trace st) ++ map id l
  /\ filter isShell (pendingActions st') = filter isShell (pendingActions st)
  /\ (forall a, In a (pendingActions st') -> In a (pendingActions st))
  /\ chatHistory st' = chatHistory st.
Proof.
  induction l as [|a l IH]; intros st Hnd Hl Hin Hsh; simpl.
  - rewrite !app_nil_r. repeat split; auto.
  - destruct (findIndex_first _ a Hnd (Hin a (or_introl eq_refl))) as (i & Hi & Hn).
    assert (He : executeAction (id a) st = settle (id a) i a st).
    { unfold executeAction. rewrite Hi, Hn. reflexivity. }
    rewrite He. clear He.
    destruct (runAction a (world st)) as [[r w1] evs] eqn:Er.
    destruct (settle_facts (id a) i a st r w1 evs Er) as (Hw & Hh & Hs & Hc & Hp).
    set (st1 := settle (id a) i a st) in *.
    simpl in Hl. apply NoDup_cons_iff in Hl. destruct Hl as [Ha Hl'].
    assert (Hsub : forall b, In b (pendingActions st1) -> In b (pendingActions st)).
    { intros b Hb. rewrite Hp in Hb. destruct r; [exact Hb | exact (removeAt_In _ _ _ Hb)]. }
    assert (Hnd1 : NoDup (map id (pendingActions st1))).
    { rewrite Hp. destruct r; [exact Hnd | apply removeAt_NoDup; exact Hnd]. }
    assert (Hin1 : forall b, In b l -> In b (pendingActions st1)).
    { intros b Hb. rewrite Hp. destruct r; [apply Hin; right; exact Hb|].
      apply (removeAt_keeps _ _ a b Hn); [apply Hin; right; exact Hb|].
      intros ->. apply Ha. apply in_map. exact Hb. }
    assert (Hf1 : filter isShell (pendingActions st1) = filter isShell (pendingActions st)).
    { rewrite Hp. destruct r; [reflexivity|].
      apply (removeAt_filter _ _ _ a Hn). apply Hsh. left. reflexivity. }
    destruct (IH st1 Hnd1 Hl' Hin1 (fun b Hb => Hsh b (or_intror Hb)))
      as (Iw & Ih & Is & If & Ii & Ic).
    rewrite Hw in Iw, Ih.
    destruct (runInOrder l w1) as [w2 evs2]. simpl in *.
    split; [exact Iw|]. split; [rewrite Ih, Hh, app_assoc; reflexivity|].
    split; [rewrite Is, Hs, <- app_assoc; reflexivity|].
    split; [rewrite If; exact Hf1|].
    split; [intros b Hb; apply Hsub; apply Ii; exact Hb|].
    rewrite Ic. exact Hc.
Qed.

(** C5. On a queue whose actions are told apart by their ids, bulk
    approval takes the actions that are not SHELL as they stand at the
    call, and runs exactly these, in queue order, each on the host the
    previous one left; each is reported, completed or failed, in that
    order.  Nothing is sent to the terminal, every SHELL action is
    still queued afterwards, and when there are SHELL actions their
    number is reported in a system message. *)
Theorem approveAll_runs_non_shell_in_order (st : @Provider W) :
  let queue := pendingActions st in
  let safeActions := filter (fun a => negb (isShell a)) queue in
  let skipped := length (filter isShell queue) in
  let st' := handleApproveAll st in
  NoDup (map id queue) ->
  world st' = fst (runInOrder safeActions (world st))
  /\ hostCalls (trace st') = hostCalls (trace st) ++ snd (runInOrder safeActions (world st))
  /\ settledIds (trace st') = settledIds (trace st) ++ map id safeActions
  /\ (forall c, ~ In (TerminalSendText c) (snd (runInOrder safeActions (world st))))
  /\ filter isShell (pendingActions st') = filter isShell queue
  /\ (forall a, In a (pendingActions st') -> In a queue)
  /\ chatHistory st'
     = chatHistory st
       ++ (if Nat.ltb 0 skipped then [mkMessage system (SkippedShell skipped) None] else []).
Proof.
  intros queue safeActions skipped st' Hnd.
  assert (Hsafe : forall a, In a safeActions -> In a queue /\ isShell a = false).
  { intros a Ha. apply filter_In in Ha. destruct Ha as [Ha Hs].
    split; [exact Ha|]. apply negb_true_iff. exact Hs. }
  destruct (approve_loop safeActions st Hnd (distinct_ids_filter _ _ Hnd)
              (fun a Ha => proj1 (Hsafe a Ha)) (fun a Ha => proj2 (Hsafe a Ha)))
    as (Hw & Hh & Hs & Hf & Hi & Hc).
  set (st1 := fold_left (fun s i => executeAction i s) (map id safeActions) st) in *.
  assert (Hst : exists evs,
             Forall (fun ev => isHostCall ev = false /\ settledId ev = []) evs
             /\ world st' = world st1 /\ trace st' = trace st1 ++ evs
             /\ pendingActions st' = pendingActions st1
             /\ chatHistory st'
                = chatHistory st1
                  ++ (if Nat.ltb 0 skipped
                      then [mkMessage system (SkippedShell skipped) None] else [])).
  { assert (Hk : length queue - length safeActions = skipped)
      by apply filter_partition_length.
    subst st'. unfold handleApproveAll. cbv zeta.
    fold queue. fold safeActions. fold st1. rewrite Hk.
    destruct (Nat.ltb 0 skipped).
    - match goal with |- context [if ?c then _ else _] => destruct c end.
      + exists [PostMessage (addMessage (mkMessage system (SkippedShell skipped) None));
                PostMessage (toggleApproveAll false)].
        cbn [world trace pendingActions chatHistory emit postMessage addToHistory].
        rewrite <- app_assoc. repeat split; repeat constructor.
      + exists [PostMessage (addMessage (mkMessage system (SkippedShell skipped) None))].
        cbn [world trace pendingActions chatHistory emit postMessage addToHistory].
        repeat split; repeat constructor.
    - match goal with |- context [if ?c then _ else _] => destruct c end.
      + exists [PostMessage (toggleApproveAll false)].
        cbn [world trace pendingActions chatHistory emit postMessage addToHistory].
        rewrite app_nil_r. repeat split; repeat constructor.
      + exists []. rewrite !app_nil_r. repeat split; constructor. }
  destruct Hst as (evs & Hevs & Ew & Et & Ep & Ec).
  assert (Hh0 : hostCalls evs = []).
  { clear - Hevs. induction Hevs as [|ev evs [H1 _] _ IH]; [reflexivity|].
    unfold hostCalls in *. simpl. rewrite H1. exact IH. }
  assert (Hs0 : settledIds evs = []).
  { clear - Hevs. induction Hevs as [|ev evs [_ H2] _ IH]; [reflexivity|].
    unfold settledIds in *. simpl. rewrite H2. exact IH. }
  split; [rewrite Ew; exact Hw|].
  split; [rewrite Et, hostCalls_app, Hh0, app_nil_r; exact Hh|].
  split; [rewrite Et, settledIds_app, Hs0, app_nil_r; exact Hs|].
  split.
  { intros c Hc'.
    pose proof (runInOrder_no_terminal safeActions (world st)
                  (fun a Ha => proj2 (Hsafe a Ha))) as Hn.
    rewrite Forall_forall in Hn. specialize (Hn _ Hc'). discriminate. }
  split; [rewrite Ep; exact Hf|].
  split; [rewrite Ep; exact Hi|].
  rewrite Ec, Hc. reflexivity.
Qed.

End ApprovalFacts.

Lemma approveAll_runs_non_shell_in_order_witness :
  let st' := handleApproveAll (memProvider sampleWorld [modifyB; shellLs; createG]) in
  world st' = fst (runInOrder [modifyB; createG] sampleWorld)
  /\ hostCalls (trace st') = [] ++ snd (runInOrder [modifyB; createG] sampleWorld)
  /\ settledIds (trace st') = [] ++ [id modifyB; id createG]
  /\ (forall c, ~ In (TerminalSendText c) (snd (runInOrder [modifyB; createG] sampleWorld)))
  /\ filter isShell (pendingActions st') = [shellLs]
  /\ (forall a, In a (pendingActions st') -> In a [modifyB; shellLs; createG])
  /\ chatHistory st' = [] ++ [mkMessage system (SkippedShell 1) None].
Proof.
  apply (approveAll_runs_non_shell_in_order
           (memProvider sampleWorld [modifyB; shellLs; createG])).
  vm_compute. repeat constructor; simpl; intuition discriminate.
Defined.

(** The queue [Modify, Shell, Create]: the MODIFY is run, then the
    CREATE; the SHELL action stays queued and one skipped command is
    reported. *)
Example approveAll_modify_shell_create :
  let st' := handleApproveAll (memProvider sampleWorld [modifyB; shellLs; createG]) in
  pendingActions st' = [shellLs]
  /\ trace st'
     = [OpenTextDocument (lit "/w/f.txt"); ShowTextDocument (lit "/w/f.txt");
        EditReplace (lit "/w/f.txt") (mkRange (positionAt 1) (positionAt 2)) (Some (lit "B"));
        PostMessage (actionComplete (lit "m1"));
        WriteFile (lit "/w/g.txt") (lit "hi");
        PostMessage (actionComplete (lit "c1"));
        PostMessage (toggleApproveAll false);
        PostMessage (addMessage (mkMessage system (SkippedShell 1) None));
        PostMessage (toggleApproveAll false)]
  /\ mem_files (world st') = [(lit "/w/g.txt", lit "hi"); (lit "/w/f.txt", lit "aBc")]
  /\ mem_terminal (world st') = []
  /\ chatHistory st' = [mkMessage system (SkippedShell 1) None].
Proof. vm_compute. repeat split; reflexivity. Qed.

(** ** The parser *)

Lemma stripPrefix_Some (p s r : str) : stripPrefix p s = Some r -> s = p ++ r.
Proof.
  unfold stripPrefix. destruct (startsWith p s) eqn:E; [|discriminate].
  intros [= <-]. apply startsWith_app in E. destruct E as [t ->].
  rewrite skipn_app, Nat.sub_diag, skipn_all. reflexivity.
Qed.

(** A matched marker carries a word that is not empty, consumes text,
    and contains the text [TOOL_CALL]. *)
Lemma matchMarker_Some (s word rest : str) :
  matchMarker s = Some (word, rest) ->
  word <> [] /\ length rest < length s
  /\ exists pre post, s = pre ++ lit "TOOL_CALL" ++ post.
Proof.
  unfold matchMarker.
  destruct (stripPrefix (lit "{{") s) as [s1|] eqn:E1; [|discriminate].
  destruct (stripPrefix (lit "TOOL_CALL:") (dropWhile isWhiteSpace s1)) as [s2|] eqn:E2;
    [|discriminate].
  destruct (takeWhile isWord (dropWhile isWhiteSpace s2)) as [|c word'] eqn:Ew;
    [discriminate|].
  destruct (stripPrefix (lit "}}") _) as [s4|] eqn:E4; [|discriminate].
  intros [= <- <-].
  apply stripPrefix_Some in E1, E2, E4.
  pose proof (takeWhile_dropWhile isWhiteSpace s1) as H1.
  pose proof (dropWhile_length isWhiteSpace s1) as L1.
  pose proof (dropWhile_length isWhiteSpace s2) as L2.
  pose proof (dropWhile_length isWord (dropWhile isWhiteSpace s2)) as L3.
  pose proof (dropWhile_length isWhiteSpace (dropWhile isWord (dropWhile isWhiteSpace s2)))
    as L4.
  split; [discriminate|]. split.
  - rewrite E4 in L4. rewrite E2 in L1. subst s.
    rewrite !length_app in *. simpl in *. lia.
  - exists (lit "{{" ++ takeWhile isWhiteSpace s1), (lit ":" ++ s2).
    subst s. rewrite <- H1 at 1. rewrite E2, <- !app_assoc. reflexivity.
Qed.

Lemma takeBody_length (s : str) : length (snd (takeBody s)) <= length s.
Proof.
  induction s as [|c s IH]; [simpl; lia|].
  cbn [takeBody]. destruct (atBlockEnd (c :: s)); [simpl; lia|].
  destruct (takeBody s) as [b r]. simpl in *. lia.
Qed.

Lemma execAction_Some (s word body rest : str) :
  execAction s = Some (word, body, rest) ->
  word <> [] /\ length rest < length s
  /\ exists pre post, s = pre ++ lit "TOOL_CALL" ++ post.
Proof.
  induction s as [|c s IH].
  - simpl. discriminate.
  - cbn [execAction]. destruct (matchMarker (c :: s)) as [[w r]|] eqn:Em.
    + destruct (matchMarker_Some _ _ _ Em) as (Hw & Hl & Hc).
      pose proof (takeBody_length r) as Hb.
      destruct (takeBody r) as [b r']. intros [= <- <- <-].
      split; [exact Hw|]. split; [simpl in *; lia | exact Hc].
    + intro H. destruct (IH H) as (Hw & Hl & pre & post & ->).
      split; [exact Hw|]. split; [cbn [length]; lia|].
      exists (c :: pre), post. reflexivity.
Qed.

(** The loop has run out of matches, not of iterations: any bound above
    the length of the text gives the same blocks. *)
Lemma execLoop_enough : forall (n m : nat) (s : str),
  length s < n -> length s < m -> execLoop n s = execLoop m s.
Proof.
  induction n as [|n IH]; intros m s Hn Hm; [lia|].
  destruct m as [|m]; [lia|]. simpl.
  destruct (execAction s) as [[[w b] r]|] eqn:E; [|reflexivity].
  destruct (execAction_Some _ _ _ _ E) as (_ & Hl & _).
  f_equal. apply IH; lia.
Qed.

Lemma execLoop_words (n : nat) : forall s : str,
  Forall (fun wb => fst wb <> []) (execLoop n s).
Proof.
  induction n as [|n IH]; intro s; simpl; [constructor|].
  destruct (execAction s) as [[[w b] r]|] eqn:E; [|constructor].
  constructor; [|apply IH]. simpl. exact (proj1 (execAction_Some _ _ _ _ E)).
Qed.

Lemma matchBlocks_no_marker (aiResponse : str) :
  indexOf aiResponse (lit "TOOL_CALL") = None -> matchBlocks aiResponse = [].
Proof.
  intro H. unfold matchBlocks. simpl.
  destruct (execAction aiResponse) as [[[w b] r]|] eqn:E; [|reflexivity].
  destruct (execAction_Some _ _ _ _ E) as (_ & _ & pre & post & ->).
  destruct (indexOf_found pre (lit "TOOL_CALL") post) as (k & Hk & _).
  rewrite Hk in H. discriminate.
Qed.

Lemma buildAction_type (i ty body : str) : type (buildAction i ty body) = ty.
Proof.
  unfold buildAction.
  repeat match goal with |- context [if ?c then _ else _] => destruct c end; reflexivity.
Qed.

Section ParserFacts.

Context {W : Type}.

(** The loop queues one action for every block: the word of a marker is
    never empty, so the test on [action.type] always passes. *)
Lemma confirmLoop_all (rand : nat -> str) (blocks : list (str * str)) :
  forall (k : nat) (st : @Provider W) (currentBatch : list AgentAction),
  Forall (fun wb => fst wb <> []) blocks ->
  let acts := actionsOf rand k blocks in
  confirmLoop rand k blocks st currentBatch
  = (mkProvider (world st)
                (trace st ++ map (fun a => PostMessage (addMessage (actionMessage a))) acts)
                (pendingActions st ++ acts)
                (chatHistory st ++ map actionMessage acts),
     currentBatch ++ acts).
Proof.
  induction blocks as [|[ty body] blocks IH]; intros k st cb Hf; simpl.
  - rewrite !app_nil_r. destruct st; reflexivity.
  - inversion Hf as [|? ? Hty Hf']; subst. simpl in Hty.
    rewrite buildAction_type.
    destruct ty as [|c ty]; [contradiction|]. cbn [truthy].
    rewrite (IH (S k) _ _ Hf').
    cbn [world trace pendingActions chatHistory addToHistory postMessage emit].
    unfold actionMessage. rewrite <- !app_assoc. reflexivity.
Qed.

Lemma parsedBatch_all (rand : nat -> str) (aiResponse : str) (st : @Provider W) :
  parsedBatch rand aiResponse st = actionsOf rand 0 (matchBlocks aiResponse).
Proof.
  unfold parsedBatch. rewrite confirmLoop_all by apply execLoop_words. reflexivity.
Qed.

(** Parsing appends the batch to the queue and keeps what was queued. *)
Lemma parse_queues_batch (rand : nat -> str) (aiResponse : str) (st : @Provider W) :
  pendingActions (parseAndConfirmActions rand aiResponse st)
  = pendingActions st ++ parsedBatch rand aiResponse st.
Proof.
  rewrite parsedBatch_all. unfold parseAndConfirmActions.
  rewrite confirmLoop_all by apply execLoop_words.
  destruct (Nat.ltb 0 _); reflexivity.
Qed.

Lemma actionsOf_nil (rand : nat -> str) (k : nat) (blocks : list (str * str)) :
  actionsOf rand k blocks = [] -> blocks = [].
Proof. destruct blocks as [|[ty body] blocks]; [reflexivity | discriminate]. Qed.

(** C8. A text in which [TOOL_CALL] does not occur yields an empty
    batch; and whenever the batch is empty, nothing is queued and the
    error message saying that no tool call was recognised is added to
    the history and posted, right after the pasted response. *)
Theorem empty_batch_reports_error (rand : nat -> str) (aiResponse : str) (st : @Provider W) :
  (indexOf aiResponse (lit "TOOL_CALL") = None -> parsedBatch rand aiResponse st = [])
  /\ (parsedBatch rand aiResponse st = [] ->
      let st' := parseAndConfirmActions rand aiResponse st in
      let pasted := mkMessage ai (Verbatim aiResponse) None in
      let failure := mkMessage error NoToolCallRecognized None in
      pendingActions st' = pendingActions st
      /\ chatHistory st' = chatHistory st ++ [pasted; failure]
      /\ trace st' = trace st ++ [PostMessage (addMessage pasted);
                                  PostMessage (addMessage failure)]
      /\ world st' = world st).
Proof.
  split.
  - intro H. rewrite parsedBatch_all, (matchBlocks_no_marker _ H). reflexivity.
  - intros H st' pasted failure. subst st'.
    rewrite parsedBatch_all in H. apply actionsOf_nil in H.
    unfold parseAndConfirmActions. rewrite H. simpl.
    rewrite <- !app_assoc. repeat split; reflexivity.
Qed.

(** C9. The sample CREATE block parses to one action, of type CREATE,
    with path [a.txt] and content [hello], and that action is queued. *)
Theorem parse_create_sample (rand : nat -> str) (st : @Provider W) :
  let a := {| id := rand 0; type := CREATE; path := Some (lit "a.txt");
              content := Some (lit "hello"); before := None;
              command := None; url := None |} in
  parsedBatch rand createSample st = [a]
  /\ pendingActions (parseAndConfirmActions rand createSample st)
     = pendingActions st ++ [a].
Proof. split; reflexivity. Qed.

(** C3, at a marker of kind [FOO]: the block is not dropped.  An action
    of type [FOO] with no fields is appended to the queue and shown
    for approval, and no error is reported. *)
Theorem unknown_kind_is_queued (rand : nat -> str) (st : @Provider W) :
  let a := {| id := rand 0; type := lit "FOO"; path := None; content := None;
              before := None; command := None; url := None |} in
  let st' := parseAndConfirmActions rand fooSample st in
  parsedBatch rand fooSample st = [a]
  /\ pendingActions st' = pendingActions st ++ [a]
  /\ chatHistory st'
     = chatHistory st ++ [mkMessage ai (Verbatim fooSample) None; actionMessage a].
Proof. repeat split; simpl; rewrite <- ?app_assoc; reflexivity. Qed.

End ParserFacts.

Lemma empty_batch_reports_error_witness :
  let rand := fun _ : nat => lit "id" in
  let st := memProvider sampleWorld [] in
  let st' := parseAndConfirmActions rand (lit "hello") st in
  parsedBatch rand (lit "hello") st = []
  /\ pendingActions st' = []
  /\ chatHistory st'
     = [mkMessage ai (Verbatim (lit "hello")) None;
        mkMessage error NoToolCallRecognized None].
Proof.
  intros rand st st'.
  destruct (empty_batch_reports_error rand (lit "hello") st) as [H1 H2].
  assert (E : parsedBatch rand (lit "hello") st = []) by (apply H1; vm_compute; reflexivity).
  destruct (H2 E) as (Hp & Hc & _).
  split; [exact E|]. split; [exact Hp | exact Hc].
Defined.

(** * Further properties of the executor *)

Section ExecutorEdges.

Context {W : Type} {host : Host W}.

Lemma executeAction_throws_early (actionId : str) (index : nat) (a : AgentAction)
      (st : @Provider W) (err : ExecError) :
  findIndex (hasId actionId) (pendingActions st) = Some index ->
  nth_error (pendingActions st) index = Some a ->
  runAction a (world st) = (inl err, world st, []) ->
  executeAction actionId st = failedWith actionId err st.
Proof.
  intros Hi Hn Hr. unfold executeAction, settle, failedWith. rewrite Hi, Hn, Hr.
  unfold postMessage, emit. cbn [world trace pendingActions chatHistory].
  rewrite app_nil_r, <- app_assoc. reflexivity.
Qed.

Lemma executeAction_completes (actionId : str) (index : nat) (a : AgentAction)
      (st : @Provider W) (w : W) (evs : list Event) :
  findIndex (hasId actionId) (pendingActions st) = Some index ->
  nth_error (pendingActions st) index = Some a ->
  runAction a (world st) = (inr tt, w, evs) ->
  executeAction actionId st = completedWith actionId index w evs st.
Proof.
  intros Hi Hn Hr. unfold executeAction, settle, completedWith. rewrite Hi, Hn, Hr.
  cbv zeta. destruct (Nat.eqb _ 0); unfold postMessage, emit;
    cbn [world trace pendingActions chatHistory];
    rewrite <- ?app_assoc; reflexivity.
Qed.


(** X2. A MODIFY, CREATE or DELETE action that carries no path fails
    with a type error before any call is made, and stays queued. *)
Theorem missing_path_fails_early (actionId : str) (index : nat) (a : AgentAction)
        (st : @Provider W) (root : str) :
  findIndex (hasId actionId) (pendingActions st) = Some index ->
  nth_error (pendingActions st) index = Some a ->
  workspaceRoot (world st) = Some root -> truthy root = true ->
  type a = MODIFY \/ type a = CREATE \/ type a = DELETE ->
  path a = None ->
  executeAction actionId st = failedWith actionId ErrTypeError st.
Proof.
  intros Hi Hn Hr Ht Hk Hp. apply (executeAction_throws_early actionId index a st _ Hi Hn).
  unfold runAction, bind, getWorkspaceRoot. rewrite Hr, Ht, Hp.
  destruct Hk as [-> | [-> | ->]]; reflexivity.
Qed.

(** X3. An action whose type is none of the five known ones passes
    through the [switch] untouched: no call is made, the host is
    unchanged, and the action is spliced out and reported as
    completed. *)
Theorem unknown_kind_completes_silently (actionId : str) (index : nat) (a : AgentAction)
        (st : @Provider W) (root : str) :
  findIndex (hasId actionId) (pendingActions st) = Some index ->
  nth_error (pendingActions st) index = Some a ->
  workspaceRoot (world st) = Some root -> truthy root = true ->
  type a <> MODIFY -> type a <> CREATE -> type a <> DELETE ->
  type a <> SHELL -> type a <> FETCH ->
  executeAction actionId st = completedWith actionId index (world st) [] st.
Proof.
  intros Hi Hn Hr Ht H1 H2 H3 H4 H5.
  apply (executeAction_completes actionId index a st _ _ Hi Hn).
  unfold runAction, bind, getWorkspaceRoot. rewrite Hr, Ht.
  apply str_eqb_neq in H1, H2, H3, H4, H5. rewrite H1, H2, H3, H4, H5. reflexivity.
Qed.

(** X4. A FETCH action with no url, or an empty one, opens nothing: no
    call is made and the action is spliced out and reported as
    completed. *)
Theorem fetch_without_url_completes (actionId : str) (index : nat) (a : AgentAction)
        (st : @Provider W) (root : str) :
  findIndex (hasId actionId) (pendingActions st) = Some index ->
  nth_error (pendingActions st) index = Some a ->
  workspaceRoot (world st) = Some root -> truthy root = true ->
  type a = FETCH ->
  url a = None \/ url a = Some [] ->
  executeAction actionId st = completedWith actionId index (world st) [] st.
Proof.
  intros Hi Hn Hr Ht Hk Hu.
  apply (executeAction_completes actionId index a st _ _ Hi Hn).
  unfold runAction, bind, getWorkspaceRoot. rewrite Hr, Ht, Hk.
  destruct Hu as [-> | ->]; reflexivity.
Qed.

(** X5. A CREATE action with a path but no captured content writes the
    empty text to the resolved path; that single write is its only
    call, and when it succeeds the action is spliced out. *)
Theorem create_without_content_writes_empty (actionId : str) (index : nat)
        (a : AgentAction) (st : @Provider W) (root p : str) (w1 : W) :
  findIndex (hasId actionId) (pendingActions st) = Some index ->
  nth_error (pendingActions st) index = Some a ->
  workspaceRoot (world st) = Some root -> truthy root = true ->
  type a = CREATE -> path a = Some p -> content a = None ->
  writeFile (world st) (resolve root p) [] = Some w1 ->
  executeAction actionId st
  = completedWith actionId index w1 [WriteFile (resolve root p) []] st.
Proof.
  intros Hi Hn Hr Ht Hk Hp Hc Hw.
  apply (executeAction_completes actionId index a st _ _ Hi Hn).
  unfold runAction, bind, getWorkspaceRoot, required, ret, call.
  rewrite Hr, Ht, Hk, Hp, Hc.
  change (str_eqb CREATE MODIFY) with false. rewrite str_eqb_refl.
  cbv beta iota zeta. unfold orEmpty. rewrite Hw. reflexivity.
Qed.

End ExecutorEdges.


Lemma missing_path_fails_early_witness :
  executeAction (id deleteNoPath) (memProvider sampleWorld [deleteNoPath])
  = failedWith (id deleteNoPath) ErrTypeError (memProvider sampleWorld [deleteNoPath]).
Proof.
  apply (missing_path_fails_early (id deleteNoPath) 0 deleteNoPath
           (memProvider sampleWorld [deleteNoPath]) (lit "/w")).
  - vm_compute. reflexivity.
  - reflexivity.
  - reflexivity.
  - reflexivity.
  - right. right. reflexivity.
  - reflexivity.
Defined.

Lemma unknown_kind_completes_silently_witness :
  executeAction (id fooAction) (memProvider sampleWorld [fooAction; shellLs])
  = completedWith (id fooAction) 0 sampleWorld [] (memProvider sampleWorld [fooAction; shellLs]).
Proof.
  apply (unknown_kind_completes_silently (id fooAction) 0 fooAction
           (memProvider sampleWorld [fooAction; shellLs]) (lit "/w"));
    try (vm_compute; reflexivity); vm_compute; discriminate.
Defined.

Lemma fetch_without_url_completes_witness :
  executeAction (id fetchNoUrl) (memProvider sampleWorld [fetchNoUrl])
  = completedWith (id fetchNoUrl) 0 sampleWorld [] (memProvider sampleWorld [fetchNoUrl]).
Proof.
  apply (fetch_without_url_completes (id fetchNoUrl) 0 fetchNoUrl
           (memProvider sampleWorld [fetchNoUrl]) (lit "/w"));
    try (vm_compute; reflexivity).
  left. reflexivity.
Defined.

Lemma create_without_content_writes_empty_witness :
  executeAction (id createNoContent) (memProvider sampleWorld [createNoContent])
  = completedWith (id createNoContent) 0
      (mkMem (Some (lit "/w")) [(lit "/w/e.txt", []); (lit "/w/f.txt", lit "abc")] [] [])
      [WriteFile (lit "/w/e.txt") []]
      (memProvider sampleWorld [createNoContent]).
Proof.
  exact (create_without_content_writes_empty (id createNoContent) 0 createNoContent
           (memProvider sampleWorld [createNoContent]) (lit "/w") (lit "e.txt")
           (mkMem (Some (lit "/w")) [(lit "/w/e.txt", []); (lit "/w/f.txt", lit "abc")] [] [])
           eq_refl eq_refl eq_refl eq_refl eq_refl eq_refl eq_refl eq_refl).
Defined.

(** * Further properties of the queue *)

Section QueueInvariants.

Context {W : Type} {host : Host W}.

Lemma completions_app (t u : list Event) :
  completions (t ++ u) = completions t + completions u.
Proof. unfold completions. rewrite filter_app, length_app. reflexivity. Qed.

Lemma completions_host (evs : list Event) :
  Forall (fun ev => isHostCall ev = true) evs -> completions evs = 0.
Proof.
  induction 1 as [|ev evs Hev _ IH]; [reflexivity|].
  unfold completions in *. simpl.
  destruct ev; try discriminate; exact IH.
Qed.

Lemma executeAction_balance (actionId : str) (st : @Provider W) :
  length (pendingActions (executeAction actionId st))
  + completions (trace (executeAction actionId st))
  = length (pendingActions st) + completions (trace st).
Proof.
  unfold executeAction.
  destruct (findIndex (hasId actionId) (pendingActions st)) as [index|]; [|reflexivity].
  destruct (nth_error (pendingActions st) index) as [a|] eqn:Hn; [|reflexivity].
  unfold settle. destruct (runAction a (world st)) as [[r w] evs] eqn:Hr.
  pose proof (completions_host _ (runAction_host_calls a _ _ _ _ Hr)) as Hc.
  pose proof (removeAt_length _ _ _ Hn) as Hl.
  destruct r as [err|u].
  - unfold postMessage, emit. cbn [trace pendingActions].
    rewrite !completions_app, Hc. unfold completions. simpl. lia.
  - destruct (Nat.eqb _ 0); unfold postMessage, emit; cbn [trace pendingActions];
      rewrite !completions_app, Hc; unfold completions; simpl; lia.
Qed.

Lemma executeAction_keeps_or_removes (actionId : str) (st : @Provider W) (a : AgentAction) :
  In a (pendingActions (executeAction actionId st)) -> In a (pendingActions st).
Proof.
  unfold executeAction.
  destruct (findIndex (hasId actionId) (pendingActions st)) as [index|]; [|tauto].
  destruct (nth_error (pendingActions st) index) as [b|]; [|tauto].
  unfold settle. destruct (runAction b (world st)) as [[[err|u] w] evs].
  - unfold postMessage, emit. cbn [pendingActions]. tauto.
  - destruct (Nat.eqb _ 0); unfold postMessage, emit; cbn [pendingActions];
      apply removeAt_In.
Qed.

Lemma approve_ids_balance (ids : list str) : forall st : @Provider W,
  let st' := fold_left (fun s i => executeAction i s) ids st in
  length (pendingActions st') + completions (trace st')
  = length (pendingActions st) + completions (trace st)
  /\ forall a, In a (pendingActions st') -> In a (pendingActions st).
Proof.
  induction ids as [|i ids IH]; intro st; simpl; [tauto|].
  destruct (IH (executeAction i st)) as [Hb Hs]. split.
  - rewrite Hb. apply executeAction_balance.
  - intros a Ha. apply (executeAction_keeps_or_removes i). apply Hs. exact Ha.
Qed.

(** The shape of [handleApproveAll] after its loop: at most the skipped
    notice, then the final message. *)
Lemma handleApproveAll_tail (st : @Provider W) :
  let ids := map id (filter (fun a => negb (isShell a)) (pendingActions st)) in
  let st1 := fold_left (fun s i => executeAction i s) ids st in
  let skipped := length (filter isShell (pendingActions st)) in
  let notice := mkMessage system (SkippedShell skipped) None in
  handleApproveAll st
  = mkProvider (world st1)
               (trace st1
                ++ (if Nat.ltb 0 skipped then [PostMessage (addMessage notice)] else [])
                ++ [PostMessage (toggleApproveAll false)])
               (pendingActions st1)
               (chatHistory st1 ++ (if Nat.ltb 0 skipped then [notice] else [])).
Proof.
  intros ids st1 skipped notice. unfold handleApproveAll. cbv zeta.
  fold ids. fold st1. rewrite (filter_partition_length isShell (pendingActions st)).
  fold skipped. fold notice.
  assert (Hsub : forall a, In a (pendingActions st1) -> In a (pendingActions st)).
  { intros a Ha. exact (proj2 (approve_ids_balance ids st) a Ha). }
  assert (Hall : forall pending : list AgentAction,
             (forall a, In a pending -> In a (pendingActions st)) ->
             forallb isShell
               (filter (fun a => negb (existsb (str_eqb (id a)) ids)) pending) = true).
  { intros pending Hp. apply forallb_forall. intros a Ha.
    apply filter_In in Ha. destruct Ha as [Ha Hn].
    destruct (isShell a) eqn:Es; [reflexivity|]. exfalso.
    apply negb_true_iff in Hn.
    assert (He : existsb (str_eqb (id a)) ids = true).
    { apply existsb_exists. exists (id a). split; [|apply str_eqb_refl].
      unfold ids. apply in_map. apply filter_In. split; [apply Hp; exact Ha|].
      rewrite Es. reflexivity. }
    rewrite He in Hn. discriminate. }
  destruct (Nat.ltb 0 skipped).
  - unfold addToHistory, postMessage, emit. cbn [world trace pendingActions chatHistory].
    rewrite (Hall _ Hsub), orb_true_r. cbn [world trace pendingActions chatHistory].
    rewrite <- app_assoc. reflexivity.
  - rewrite (Hall _ Hsub), orb_true_r. unfold postMessage, emit.
    rewrite !app_nil_r. reflexivity.
Qed.


(** X7. [handleApproveAll] always ends by hiding the bulk button.  The
    actions it looks at for that decision are the queued ones whose
    id is not in the snapshot, and these are all SHELL actions; so
    the button is hidden even when actions of the snapshot failed and
    are still queued. *)
Theorem approveAll_always_hides_button (st : @Provider W) :
  exists t, trace (handleApproveAll st) = t ++ [PostMessage (toggleApproveAll false)].
Proof.
  rewrite handleApproveAll_tail. cbn [trace]. eexists. rewrite app_assoc. reflexivity.
Qed.

(** X8. On a queue that holds only SHELL actions (or nothing), bulk
    approval runs nothing: host and queue are unchanged, and the only
    messages are the skipped notice, when there is something to skip,
    and the hiding of the bulk button. *)
Theorem approveAll_only_shell (st : @Provider W) :
  (forall a, In a (pendingActions st) -> isShell a = true) ->
  let skipped := length (pendingActions st) in
  let notice := mkMessage system (SkippedShell skipped) None in
  handleApproveAll st
  = mkProvider (world st)
               (trace st
                ++ (if Nat.ltb 0 skipped then [PostMessage (addMessage notice)] else [])
                ++ [PostMessage (toggleApproveAll false)])
               (pendingActions st)
               (chatHistory st ++ (if Nat.ltb 0 skipped then [notice] else [])).
Proof.
  intros Hall skipped notice. rewrite handleApproveAll_tail.
  assert (Hs : filter (fun a => negb (isShell a)) (pendingActions st) = []).
  { induction (pendingActions st) as [|x l IH]; [reflexivity|]. simpl.
    rewrite (Hall x (or_introl eq_refl)). simpl. apply IH.
    intros a Ha. apply Hall. right. exact Ha. }
  assert (Hf : filter isShell (pendingActions st) = pendingActions st).
  { apply filter_all. apply Forall_forall. exact Hall. }
  rewrite Hs, Hf. reflexivity.
Qed.

End QueueInvariants.

Lemma approveAll_only_shell_witness :
  let st := memProvider sampleWorld [shellLs] in
  let notice := mkMessage system (SkippedShell 1) None in
  handleApproveAll st
  = mkProvider sampleWorld
      ([] ++ [PostMessage (addMessage notice)] ++ [PostMessage (toggleApproveAll false)])
      [shellLs] ([] ++ [notice]).
Proof.
  apply (approveAll_only_shell (memProvider sampleWorld [shellLs])).
  intros a [<-|[]]. reflexivity.
Defined.

(** * Further properties of the parser *)

Lemma isWord_not_space (c : char) : isWord c = true -> isWhiteSpace c = false.
Proof.
  unfold isWord, isWhiteSpace. intro H.
  repeat rewrite ?orb_true_iff, ?andb_true_iff, ?N.leb_le, ?N.eqb_eq in H.
  repeat rewrite ?orb_false_iff, ?andb_false_iff, ?N.leb_gt, ?N.eqb_neq.
  lia.
Qed.

Lemma dropWhile_app_stop {A} (p : A -> bool) (l : list A) (x : A) (t : list A) :
  forallb p l = true -> p x = false -> dropWhile p (l ++ x :: t) = x :: t.
Proof.
  intros Hl Hx. induction l as [|y l IH]; simpl in *.
  - rewrite Hx. reflexivity.
  - apply andb_true_iff in Hl. destruct Hl as [Hy Hl]. rewrite Hy. exact (IH Hl).
Qed.

Lemma takeWhile_app_stop {A} (p : A -> bool) (l : list A) (x : A) (t : list A) :
  forallb p l = true -> p x = false -> takeWhile p (l ++ x :: t) = l.
Proof.
  intros Hl Hx. induction l as [|y l IH]; simpl in *.
  - rewrite Hx. reflexivity.
  - apply andb_true_iff in Hl. destruct Hl as [Hy Hl]. rewrite Hy, (IH Hl). reflexivity.
Qed.

Lemma dropWhile_stop {A} (p : A -> bool) (x : A) (t : list A) :
  p x = false -> dropWhile p (x :: t) = x :: t.
Proof. intro H. simpl. rewrite H. reflexivity. Qed.

(** The marker as the prompt spells it is matched, whatever follows. *)
Lemma matchMarker_render (w t : str) :
  isMarkerWord w = true ->
  matchMarker (lit "{{TOOL_CALL:" ++ w ++ lit "}}" ++ t) = Some (w, t).
Proof.
  unfold isMarkerWord. intro H. apply andb_true_iff in H. destruct H as [Hne Hw].
  destruct w as [|c w]; [discriminate|].
  assert (Hc : isWord c = true) by (simpl in Hw; apply andb_true_iff in Hw; tauto).
  unfold matchMarker, stripPrefix. simpl.
  rewrite (isWord_not_space c Hc).
  change (c :: w ++ 125%N :: 125%N :: t) with ((c :: w) ++ 125%N :: 125%N :: t).
  pose proof (takeWhile_app_stop isWord (c :: w) 125%N (125%N :: t) Hw eq_refl) as H1.
  pose proof (dropWhile_app_stop isWord (c :: w) 125%N (125%N :: t) Hw eq_refl) as H2.
  unfold str, char in *. rewrite H1, H2. reflexivity.
Qed.

Lemma stripPrefix_no_brace (c : char) (s : str) :
  char_eqb c 123%N = false -> stripPrefix (lit "{{") (c :: s) = None.
Proof.
  intro H. unfold stripPrefix.
  replace (startsWith (lit "{{") (c :: s)) with false; [reflexivity|].
  change (lit "{{") with [123%N; 123%N]. cbn [startsWith].
  unfold char_eqb in *. rewrite N.eqb_sym, H. reflexivity.
Qed.

Lemma atBlockEnd_renderBlocks (blocks : list (str * str)) :
  atBlockEnd (renderBlocks blocks) = true.
Proof. destruct blocks as [|[w b] blocks]; reflexivity. Qed.

Lemma takeBody_noBrace (b t : str) :
  noBrace b = true -> atBlockEnd t = true -> takeBody (b ++ t) = (b, t).
Proof.
  intros Hb Ht. induction b as [|c b IH].
  - simpl. destruct t as [|x t]; [reflexivity|].
    cbn [takeBody]. rewrite Ht. reflexivity.
  - simpl in Hb. apply andb_true_iff in Hb. destruct Hb as [Hc Hb].
    apply negb_true_iff in Hc.
    assert (He : atBlockEnd ((c :: b) ++ t) = false).
    { change ((c :: b) ++ t) with (c :: (b ++ t)). cbn [atBlockEnd].
      rewrite (stripPrefix_no_brace c _ Hc). reflexivity. }
    change (takeBody ((c :: b) ++ t))
      with (if atBlockEnd ((c :: b) ++ t) then ([], (c :: b) ++ t)
            else let (b', r) := takeBody (b ++ t) in (c :: b', r)).
    rewrite He, (IH Hb). reflexivity.
Qed.

Lemma matchMarker_noBrace (c : char) (s : str) :
  char_eqb c 123%N = false -> matchMarker (c :: s) = None.
Proof.
  intro H. unfold matchMarker. rewrite (stripPrefix_no_brace c s H). reflexivity.
Qed.

Lemma execAction_prose (prose s : str) :
  noBrace prose = true -> execAction (prose ++ s) = execAction s.
Proof.
  intro H. induction prose as [|c prose IH]; [reflexivity|].
  simpl in H. apply andb_true_iff in H. destruct H as [Hc H].
  apply negb_true_iff in Hc.
  change (execAction ((c :: prose) ++ s))
    with (match matchMarker (c :: prose ++ s) with
          | Some (word, rest) => let (b, r) := takeBody rest in Some (word, b, r)
          | None => execAction (prose ++ s)
          end).
  rewrite (matchMarker_noBrace c _ Hc). exact (IH H).
Qed.

Lemma execAction_render (w b : str) (rest : list (str * str)) :
  isMarkerWord w = true -> noBrace b = true ->
  execAction (renderBlocks ((w, b) :: rest)) = Some (w, b, renderBlocks rest).
Proof.
  intros Hw Hb.
  assert (E : renderBlocks ((w, b) :: rest)
              = lit "{{TOOL_CALL:" ++ w ++ lit "}}" ++ b ++ renderBlocks rest).
  { unfold renderBlocks, renderBlock. simpl. rewrite <- !app_assoc. reflexivity. }
  rewrite E.
  change (lit "{{TOOL_CALL:" ++ w ++ lit "}}" ++ b ++ renderBlocks rest)
    with (123%N :: (lit "{TOOL_CALL:" ++ w ++ lit "}}" ++ b ++ renderBlocks rest)).
  cbn [execAction].
  change (123%N :: (lit "{TOOL_CALL:" ++ w ++ lit "}}" ++ b ++ renderBlocks rest))
    with (lit "{{TOOL_CALL:" ++ w ++ lit "}}" ++ (b ++ renderBlocks rest)).
  rewrite (matchMarker_render w _ Hw).
  rewrite (takeBody_noBrace b _ Hb (atBlockEnd_renderBlocks rest)). reflexivity.
Qed.

Lemma execLoop_render (blocks : list (str * str)) : forall n,
  Forall (fun wb => isMarkerWord (fst wb) = true /\ noBrace (snd wb) = true) blocks ->
  length blocks < n ->
  execLoop n (renderBlocks blocks) = blocks.
Proof.
  induction blocks as [|[w b] blocks IH]; intros n Hf Hn.
  - destruct n as [|n]; [lia|]. reflexivity.
  - destruct n as [|n]; [lia|]. inversion Hf as [|? ? [Hw Hb] Hf']; subst.
    simpl in Hw, Hb. cbn [execLoop]. rewrite (execAction_render w b blocks Hw Hb).
    rewrite (IH n Hf') by (simpl in Hn; lia). reflexivity.
Qed.

Lemma renderBlocks_length (blocks : list (str * str)) :
  length blocks <= length (renderBlocks blocks).
Proof.
  induction blocks as [|[w b] blocks IH]; [simpl; lia|].
  unfold renderBlocks in *. simpl. rewrite length_app. simpl. lia.
Qed.

Section ParserOrder.

Context {W : Type}.

(** X9. A response made of prose without braces followed by blocks as
    the prompt spells them is cut into exactly these blocks, in their
    textual order: the prose is skipped, each body runs up to the next
    marker, and one action per block is built, block [k] with the
    [k]-th id drawn. *)
Theorem blocks_in_textual_order (rand : nat -> str) (prose : str)
        (blocks : list (str * str)) (st : @Provider W) :
  noBrace prose = true ->
  Forall (fun wb => isMarkerWord (fst wb) = true /\ noBrace (snd wb) = true) blocks ->
  matchBlocks (prose ++ renderBlocks blocks) = blocks
  /\ parsedBatch rand (prose ++ renderBlocks blocks) st = actionsOf rand 0 blocks.
Proof.
  intros Hp Hf.
  assert (E : matchBlocks (prose ++ renderBlocks blocks) = blocks).
  { unfold matchBlocks. cbn [execLoop]. rewrite (execAction_prose prose _ Hp).
    change (execLoop (S (length (prose ++ renderBlocks blocks))) (renderBlocks blocks)
            = blocks).
    apply (execLoop_render blocks _ Hf).
    rewrite length_app. pose proof (renderBlocks_length blocks). lia. }
  split; [exact E|]. rewrite parsedBatch_all, E. reflexivity.
Qed.

(** X10. Applying a second response keeps what the first one queued:
    the queue after both is the old queue, then the first batch, then
    the second, and each batch is read off its own text alone. *)
Theorem parse_twice_accumulates (rand1 rand2 : nat -> str) (s1 s2 : str) (st : @Provider W) :
  pendingActions (parseAndConfirmActions rand2 s2 (parseAndConfirmActions rand1 s1 st))
  = pendingActions st
    ++ actionsOf rand1 0 (matchBlocks s1) ++ actionsOf rand2 0 (matchBlocks s2).
Proof.
  rewrite !parse_queues_batch, !parsedBatch_all, <- app_assoc. reflexivity.
Qed.

End ParserOrder.

Lemma blocks_in_textual_order_witness :
  let blocks := [(SHELL, LF :: lit "COMMAND: ls" ++ [LF]);
                 (DELETE, LF :: lit "FILE: x.txt" ++ [LF])] in
  let st := memProvider sampleWorld [] in
  matchBlocks (lit "Sure: " ++ renderBlocks blocks) = blocks
  /\ parsedBatch (fun _ => lit "id") (lit "Sure: " ++ renderBlocks blocks) st
     = actionsOf (fun _ => lit "id") 0 blocks.
Proof.
  intros blocks st.
  apply (blocks_in_textual_order (fun _ => lit "id") (lit "Sure: ") blocks st).
  - vm_compute. reflexivity.
  - repeat constructor.
Defined.

(** ** Scalar fields *)

Lemma canon_space (c : char) : isWhiteSpace c = true -> canon c = c.
Proof.
  unfold isWhiteSpace, canon. intro H.
  destruct ((97 <=? c) && (c <=? 122))%N eqn:E; [|reflexivity]. exfalso.
  repeat rewrite ?orb_true_iff, ?andb_true_iff, ?N.leb_le, ?N.eqb_eq in H.
  repeat rewrite ?andb_true_iff, ?N.leb_le in E. lia.
Qed.

Lemma space_not_upper (c x : char) :
  isWhiteSpace c = true -> (65 <= x <= 90)%N -> char_eqb (canon x) (canon c) = false.
Proof.
  intros Hc Hx. rewrite (canon_space c Hc). unfold canon.
  replace ((97 <=? x) && (x <=? 122))%N with false
    by (symmetry; apply andb_false_iff; left; apply N.leb_gt; lia).
  unfold char_eqb. apply N.eqb_neq. intros ->.
  unfold isWhiteSpace in Hc.
  repeat rewrite ?orb_true_iff, ?andb_true_iff, ?N.leb_le, ?N.eqb_eq in Hc. lia.
Qed.

Lemma startsWithCI_same (label : str) : forall (lab rest : str),
  map canon lab = map canon label -> startsWithCI label (lab ++ rest) = true.
Proof.
  induction label as [|x label IH]; intros lab rest H; [reflexivity|].
  destruct lab as [|y lab]; [discriminate|]. simpl in H. injection H as Hy Hl.
  simpl. rewrite Hy, char_eqb_refl. simpl. apply IH. exact Hl.
Qed.

(** A label in any letter case, after whitespace only, is the first
    occurrence of the label. *)
Lemma afterLabel_after_space (x : char) (label lab pre rest : str) :
  (65 <= x <= 90)%N ->
  map canon lab = map canon (x :: label) ->
  forallb isWhiteSpace pre = true ->
  afterLabel (x :: label) (pre ++ lab ++ rest) = Some rest.
Proof.
  intros Hx Hl Hp. induction pre as [|c pre IH].
  - assert (Hn : length lab = length (x :: label)).
    { rewrite <- (length_map canon lab), Hl, length_map. reflexivity. }
    cbn [app]. destruct lab as [|y lab]; [discriminate|].
    cbn [afterLabel app].
    change (startsWithCI (x :: label) (y :: lab ++ rest))
      with (startsWithCI (x :: label) ((y :: lab) ++ rest)).
    rewrite (startsWithCI_same (x :: label) (y :: lab) rest Hl).
    rewrite <- Hn.
    change (skipn (length (y :: lab)) (y :: lab ++ rest))
      with (skipn (length (y :: lab)) ((y :: lab) ++ rest)).
    rewrite skipn_app, Nat.sub_diag, skipn_all. reflexivity.
  - simpl in Hp. apply andb_true_iff in Hp. destruct Hp as [Hc Hp].
    cbn [app afterLabel startsWithCI].
    rewrite (space_not_upper c x Hc Hx). cbn [andb]. exact (IH Hp).
Qed.

Lemma skipStars_value (stars : bool) (gap : str) (c : char) (t : str) :
  forallb isWhiteSpace gap = true -> c <> 42%N ->
  skipStars ((if stars then lit "**" else []) ++ gap ++ c :: t) = gap ++ c :: t.
Proof.
  intros Hg Hc. destruct stars; [reflexivity|].
  cbn [app]. unfold skipStars.
  replace (startsWith (lit "**") (gap ++ c :: t)) with false; [reflexivity|].
  symmetry. change (lit "**") with [42%N; 42%N].
  destruct gap as [|g gap]; cbn [app startsWith].
  - unfold char_eqb. replace (42 =? c)%N with false; [reflexivity|].
    symmetry. apply N.eqb_neq. congruence.
  - simpl in Hg. apply andb_true_iff in Hg. destruct Hg as [Hg _].
    unfold char_eqb. replace (42 =? g)%N with false; [reflexivity|].
    symmetry. apply N.eqb_neq. intros <-. discriminate.
Qed.

Lemma getField_value (field lab pre gap rest : str) (stars : bool)
        (c : char) (v : str) :
  In field [lit "FILE"; lit "COMMAND"; lit "URL"] ->
  map canon lab = map canon (field ++ lit ":") ->
  forallb isWhiteSpace pre = true ->
  forallb isWhiteSpace gap = true ->
  isWhiteSpace c = false -> c <> 42%N ->
  forallb (fun x => negb (isLineTerminator x)) (c :: v) = true ->
  getField (pre ++ lab ++ (if stars then lit "**" else []) ++ gap ++ (c :: v) ++ LF :: rest)
           field
  = Some (trim (c :: v)).
Proof.
  intros Hf Hl Hp Hg Hc Hs Hv. unfold getField.
  assert (Ha : afterLabel (field ++ lit ":")
                 (pre ++ lab ++ (if stars then lit "**" else []) ++ gap
                  ++ (c :: v) ++ LF :: rest)
               = Some ((if stars then lit "**" else []) ++ gap ++ (c :: v) ++ LF :: rest)).
  { destruct Hf as [<-|[<-|[<-|[]]]];
      (apply afterLabel_after_space;
       [split; vm_compute; discriminate | exact Hl | exact Hp]). }
  rewrite Ha.
  change (gap ++ (c :: v) ++ LF :: rest) with (gap ++ c :: (v ++ LF :: rest)).
  rewrite (skipStars_value stars gap c _ Hg Hs).
  rewrite (dropWhile_app_stop isWhiteSpace gap c _ Hg Hc).
  change (c :: v ++ LF :: rest) with ((c :: v) ++ LF :: rest).
  rewrite (takeWhile_app_stop (fun x => negb (isLineTerminator x)) (c :: v) LF rest Hv eq_refl).
  reflexivity.
Qed.

(** X11. A scalar field is read as follows.  The label may come in any
    letter case after leading whitespace, and may be followed by two
    asterisks; whitespace after it, line breaks included, is skipped;
    the value runs from the first character that is not whitespace to
    the end of that line, and is trimmed.  So a label with nothing on
    its own line takes its value from the next line that is not
    blank. *)
Theorem getField_reads_value (field lab pre gap rest : str) (stars : bool)
        (c : char) (v : str) :
  In field [lit "FILE"; lit "COMMAND"; lit "URL"] ->
  map canon lab = map canon (field ++ lit ":") ->
  forallb isWhiteSpace pre = true ->
  forallb isWhiteSpace gap = true ->
  isWhiteSpace c = false -> c <> 42%N ->
  forallb (fun x => negb (isLineTerminator x)) (c :: v) = true ->
  getField (pre ++ lab ++ (if stars then lit "**" else []) ++ gap ++ (c :: v) ++ LF :: rest)
           field
  = Some (trim (c :: v)).
Proof. apply getField_value. Qed.

Lemma getField_reads_value_witness :
  getField (LF :: lit "file:" ++ lit "**" ++ [32%N; LF; 32%N] ++ lit "a.txt  " ++ LF :: lit "x")
           (lit "FILE")
  = Some (trim (lit "a.txt  ")).
Proof.
  apply (getField_reads_value (lit "FILE") (lit "file:") [LF] [32%N; LF; 32%N] (lit "x")
           true 97%N (lit ".txt  ")).
  - left. reflexivity.
  - vm_compute. reflexivity.
  - vm_compute. reflexivity.
  - vm_compute. reflexivity.
  - vm_compute. reflexivity.
  - discriminate.
  - vm_compute. reflexivity.
Defined.

(** ** Blocks without fields *)

Lemma startsWithCI_no_colon (f : str) : forall s : str,
  noColon s = true -> startsWithCI (f ++ lit ":") s = false.
Proof.
  induction f as [|x f IH]; intros [|y s] H; try reflexivity.
  - simpl in H. apply andb_true_iff in H. destruct H as [Hy _].
    apply negb_true_iff in Hy. change (lit ":") with [58%N]. cbn [app startsWithCI].
    replace (char_eqb (canon 58%N) (canon y)) with false; [reflexivity|].
    symmetry. unfold char_eqb in *. apply N.eqb_neq. apply N.eqb_neq in Hy.
    unfold canon. change ((97 <=? 58) && (58 <=? 122))%N with false. cbv iota.
    destruct ((97 <=? y) && (y <=? 122))%N eqn:E; [|congruence].
    apply andb_true_iff in E. destruct E as [E1 E2]. apply N.leb_le in E1, E2. lia.
  - simpl in H. apply andb_true_iff in H. destruct H as [_ H].
    cbn [app startsWithCI]. rewrite (IH s H). apply andb_false_r.
Qed.

Lemma afterLabel_no_colon (f s : str) :
  noColon s = true -> afterLabel (f ++ lit ":") s = None.
Proof.
  intro H. induction s as [|y s IH].
  - cbn [afterLabel]. rewrite (startsWithCI_no_colon f [] H). reflexivity.
  - cbn [afterLabel]. rewrite (startsWithCI_no_colon f _ H).
    simpl in H. apply andb_true_iff in H. exact (IH (proj2 H)).
Qed.

(** X12. A block whose body holds no colon has no label in it: whatever
    its kind, the action built from it carries no field at all. *)
Theorem colonless_block_has_no_fields (i ty body : str) :
  noColon body = true ->
  buildAction i ty body
  = {| id := i; type := ty; path := None; content := None; before := None;
       command := None; url := None |}.
Proof.
  intro H. unfold buildAction, getField, getCodeBlock.
  rewrite !(afterLabel_no_colon _ body H).
  repeat match goal with |- context [if ?c then _ else _] => destruct c end; reflexivity.
Qed.

Lemma colonless_block_has_no_fields_witness :
  buildAction (lit "id") DELETE (lit " the old file ")
  = {| id := lit "id"; type := DELETE; path := None; content := None; before := None;
       command := None; url := None |}.
Proof.
  apply (colonless_block_has_no_fields (lit "id") DELETE (lit " the old file ")).
  vm_compute. reflexivity.
Defined.

(** ** Code blocks *)

Lemma startsWithCI_canon (p : str) : forall s : str,
  startsWithCI p s = startsWith (map canon p) (map canon s).
Proof.
  induction p as [|x p IH]; intros [|y s]; try reflexivity.
  simpl. rewrite IH. reflexivity.
Qed.

Lemma indexOf_from_ge (s p : str) (k n : nat) :
  indexOf_from k s p = Some n -> k <= n.
Proof. intro H. exact (proj1 (indexOf_from_sound s p k n H)). Qed.

(** The label search is the first occurrence of the label once letter
    case is folded on both sides. *)
Lemma afterLabel_indexOf_from (label : str) : forall (s : str) (k n : nat),
  indexOf_from k (map canon s) (map canon label) = Some n ->
  afterLabel label s = Some (skipn (n - k + length label) s).
Proof.
  induction s as [|c s IH]; intros k n H.
  - cbn [map indexOf_from afterLabel] in *. rewrite startsWithCI_canon. cbn [map].
    destruct (startsWith (map canon label) []); [|discriminate].
    injection H as <-. rewrite Nat.sub_diag. reflexivity.
  - cbn [afterLabel]. rewrite startsWithCI_canon.
    cbn [map indexOf_from] in H.
    destruct (startsWith (map canon label) (map canon (c :: s))) eqn:E.
    + cbn [map] in E. rewrite E in H. injection H as <-. rewrite Nat.sub_diag. reflexivity.
    + cbn [map] in E. rewrite E in H.
      pose proof (indexOf_from_ge _ _ _ _ H) as Hk.
      rewrite (IH (S k) n H).
      replace (n - k + length label) with (S (n - S k + length label)) by lia.
      reflexivity.
Qed.

Lemma afterLabel_first (label pre rest : str) :
  indexOf (map canon (pre ++ label ++ rest)) (map canon label) = Some (length pre) ->
  afterLabel label (pre ++ label ++ rest) = Some rest.
Proof.
  intro H. rewrite (afterLabel_indexOf_from label _ 0 (length pre) H).
  rewrite Nat.sub_0_r, app_assoc, skipn_app, length_app, Nat.sub_diag.
  rewrite skipn_all2 by (rewrite length_app; lia). reflexivity.
Qed.

Lemma afterFence_after_space (gap t : str) :
  forallb isWhiteSpace gap = true -> afterFence (gap ++ lit "```" ++ t) = Some t.
Proof.
  intro H. induction gap as [|g gap IH]; [reflexivity|].
  simpl in H. apply andb_true_iff in H. destruct H as [Hg H].
  cbn [app afterFence]. change (lit "```") with [96%N; 96%N; 96%N]. cbn [startsWith].
  replace (char_eqb 96%N g) with false; [exact (IH H)|].
  symmetry. unfold char_eqb. apply N.eqb_neq. intros <-. discriminate.
Qed.

Lemma no_fence_tail (x : char) (c : str) :
  (forall pre post, x :: c <> pre ++ lit "```" ++ post) ->
  forall pre post, c <> pre ++ lit "```" ++ post.
Proof. intros H pre post ->. exact (H (x :: pre) post eq_refl). Qed.

Lemma backtick_eq (a : char) : char_eqb 96%N a = true -> a = 96%N.
Proof. intro H. apply char_eqb_eq in H. congruence. Qed.

(** The capture stops at the closing fence and drops the line feed
    before it. *)
Lemma takeCapture_closed (c rest : str) :
  (forall pre post, c <> pre ++ lit "```" ++ post) ->
  takeCapture (c ++ LF :: lit "```" ++ rest) = Some c.
Proof.
  induction c as [|x c IH]; intro H; [reflexivity|].
  assert (H1 : startsWith (lit "```") ((x :: c) ++ LF :: lit "```" ++ rest) = false).
  { change (lit "```") with [96%N; 96%N; 96%N].
    destruct c as [|y [|z c]]; cbn [app startsWith];
      destruct (char_eqb 96%N x) eqn:Ex; try reflexivity; cbn [andb].
    - destruct (char_eqb 96%N y) eqn:Ey; reflexivity.
    - destruct (char_eqb 96%N y) eqn:Ey; try reflexivity; cbn [andb].
      destruct (char_eqb 96%N z) eqn:Ez; try reflexivity.
      exfalso. apply backtick_eq in Ex, Ey, Ez. subst.
      exact (H [] c eq_refl). }
  assert (H2 : startsWith (LF :: lit "```") ((x :: c) ++ LF :: lit "```" ++ rest) = false).
  { change (lit "```") with [96%N; 96%N; 96%N].
    destruct c as [|y [|z [|u c]]]; cbn [app startsWith];
      destruct (char_eqb LF x) eqn:Ex; try reflexivity; cbn [andb].
    - destruct (char_eqb 96%N y) eqn:Ey; reflexivity.
    - destruct (char_eqb 96%N y) eqn:Ey; try reflexivity; cbn [andb].
      destruct (char_eqb 96%N z) eqn:Ez; reflexivity.
    - destruct (char_eqb 96%N y) eqn:Ey; try reflexivity; cbn [andb].
      destruct (char_eqb 96%N z) eqn:Ez; try reflexivity; cbn [andb].
      destruct (char_eqb 96%N u) eqn:Eu; try reflexivity.
      exfalso. apply backtick_eq in Ey, Ez, Eu. subst.
      exact (H [x] c eq_refl). }
  change ((x :: c) ++ LF :: lit "```" ++ rest) with (x :: (c ++ LF :: lit "```" ++ rest)) in *.
  cbn [takeCapture]. rewrite H1, H2. cbn [orb].
  rewrite (IH (no_fence_tail x c H)). reflexivity.
Qed.

Lemma no_occurrence (s p : str) :
  indexOf s p = None -> forall pre post, s <> pre ++ p ++ post.
Proof.
  intros H pre post ->. destruct (indexOf_found pre p post) as (n & Hn & _).
  rewrite Hn in H. discriminate.
Qed.

Lemma getCodeBlock_written (field pre gap tag c rest : str) :
  let body := pre ++ (field ++ lit ":")
              ++ gap ++ lit "```" ++ tag ++ LF :: c ++ LF :: lit "```" ++ rest in
  indexOf (map canon body) (map canon (field ++ lit ":")) = Some (length pre) ->
  forallb isWhiteSpace gap = true ->
  forallb isWord tag = true ->
  indexOf c (lit "```") = None ->
  getCodeBlock body field = Some c.
Proof.
  intros body Hl Hg Ht Hc. unfold getCodeBlock. subst body.
  rewrite (afterLabel_first _ _ _ Hl).
  rewrite (afterFence_after_space gap _ Hg).
  rewrite (dropWhile_app_stop isWord tag LF _ Ht eq_refl).
  cbn [skipLineFeed]. change (char_eqb LF LF) with true. cbv iota.
  apply takeCapture_closed. apply no_occurrence. exact Hc.
Qed.

(** X13. A fenced block written after its label is read back as it was
    written.  When the label's first occurrence, in any letter case,
    is the one meant, the fence follows it after whitespace, the tag
    is a word, and the text holds no fence of its own, the capture is
    the text between the line after the opening fence and the line
    feed before the closing fence, blank lines inside included. *)
Theorem getCodeBlock_round_trip (field pre gap tag c rest : str) :
  let body := pre ++ (field ++ lit ":")
              ++ gap ++ lit "```" ++ tag ++ LF :: c ++ LF :: lit "```" ++ rest in
  indexOf (map canon body) (map canon (field ++ lit ":")) = Some (length pre) ->
  forallb isWhiteSpace gap = true ->
  forallb isWord tag = true ->
  indexOf c (lit "```") = None ->
  getCodeBlock body field = Some c.
Proof. apply getCodeBlock_written. Qed.

Lemma getCodeBlock_round_trip_witness :
  getCodeBlock (LF :: lit "FILE: a.txt" ++ [LF] ++ lit "content:" ++ [LF] ++ lit "```ts"
                ++ LF :: (lit "let a = `x`;" ++ [LF; LF] ++ lit "f(a)")
                ++ LF :: lit "```" ++ [LF])
               (lit "content")
  = Some (lit "let a = `x`;" ++ [LF; LF] ++ lit "f(a)").
Proof.
  apply (getCodeBlock_round_trip (lit "content") (LF :: lit "FILE: a.txt" ++ [LF]) [LF]
           (lit "ts") (lit "let a = `x`;" ++ [LF; LF] ++ lit "f(a)") [LF]);
    vm_compute; reflexivity.
Defined.

Lemma afterLabel_suffix (label : str) : forall s r : str,
  afterLabel label s = Some r -> exists p, s = p ++ r.
Proof.
  induction s as [|c s IH]; intros r H; cbn [afterLabel] in H.
  - destruct (startsWithCI label []); [|discriminate]. injection H as <-.
    exists (firstn (length label) []). symmetry. apply firstn_skipn.
  - destruct (startsWithCI label (c :: s)).
    + injection H as <-. exists (firstn (length label) (c :: s)).
      symmetry. apply firstn_skipn.
    + destruct (IH r H) as [p ->]. exists (c :: p). reflexivity.
Qed.

Lemma afterFence_Some : forall s r : str,
  afterFence s = Some r -> exists x, s = x ++ lit "```" ++ r.
Proof.
  induction s as [|c s IH]; intros r H; cbn [afterFence] in H.
  - destruct (startsWith (lit "```") []) eqn:E; discriminate.
  - destruct (startsWith (lit "```") (c :: s)) eqn:E.
    + injection H as <-. apply startsWith_app in E. destruct E as [t E].
      exists []. change (lit "```" ++ t) with (96%N :: 96%N :: 96%N :: t) in E.
      injection E as -> ->. reflexivity.
    + destruct (IH r H) as [x ->]. exists (c :: x). reflexivity.
Qed.

Lemma takeCapture_Some : forall s cap : str,
  takeCapture s = Some cap ->
  exists t, s = cap ++ t
            /\ (startsWith (LF :: lit "```") t = true \/ startsWith (lit "```") t = true).
Proof.
  induction s as [|c s IH]; intros cap H; cbn [takeCapture] in H.
  - destruct (startsWith (LF :: lit "```") [] || startsWith (lit "```") []) eqn:E;
      discriminate.
  - destruct (startsWith (LF :: lit "```") (c :: s) || startsWith (lit "```") (c :: s)) eqn:E.
    + injection H as <-. exists (c :: s). split; [reflexivity|].
      apply orb_true_iff. exact E.
    + destruct (takeCapture s) as [cap'|] eqn:Et; [|discriminate].
      injection H as <-. destruct (IH cap' eq_refl) as (t & -> & Ht).
      exists t. split; [reflexivity | exact Ht].
Qed.

(** X14. Whatever [getCodeBlock] returns is a piece of the body, taken
    as it stands: it comes after a fence and a tag line made of word
    characters and at most one line feed, and it is followed by the
    closing fence, with or without a line feed before it.  A body
    with fewer than two fences yields nothing. *)
Theorem getCodeBlock_is_verbatim (body field cap : str) :
  getCodeBlock body field = Some cap ->
  exists head tag nl tail,
    body = head ++ lit "```" ++ tag ++ nl ++ cap ++ tail
    /\ forallb isWord tag = true
    /\ (nl = [] \/ nl = [LF])
    /\ (startsWith (LF :: lit "```") tail = true \/ startsWith (lit "```") tail = true).
Proof.
  unfold getCodeBlock. intro H.
  destruct (afterLabel (field ++ lit ":") body) as [r|] eqn:Ea; [|discriminate].
  destruct (afterFence r) as [r1|] eqn:Ef; [|discriminate].
  destruct (afterLabel_suffix _ _ _ Ea) as [p ->].
  destruct (afterFence_Some _ _ Ef) as [x ->].
  destruct (takeCapture_Some _ _ H) as (t & Ht & Hend).
  pose proof (takeWhile_dropWhile isWord r1) as Hr1.
  assert (Hnl : exists nl, (nl = [] \/ nl = [LF])
                           /\ dropWhile isWord r1
                              = nl ++ skipLineFeed (dropWhile isWord r1)).
  { destruct (dropWhile isWord r1) as [|d r2]; [exists []; split; [left|]; reflexivity|].
    cbn [skipLineFeed]. destruct (char_eqb d LF) eqn:Ed.
    - apply char_eqb_eq in Ed. subst d. exists [LF]. split; [right|]; reflexivity.
    - exists []. split; [left|]; reflexivity. }
  destruct Hnl as (nl & Hnl & Hd).
  exists (p ++ x), (takeWhile isWord r1), nl, t.
  split; [|split; [apply takeWhile_all | split; [exact Hnl | exact Hend]]].
  rewrite <- Ht, <- Hd, Hr1, <- app_assoc. reflexivity.
Qed.

Lemma getCodeBlock_is_verbatim_witness :
  exists head tag nl tail,
    LF :: lit "BEFORE:" ++ [LF] ++ lit "```py" ++ [LF] ++ lit "x = 1" ++ [LF] ++ lit "```"
    = head ++ lit "```" ++ tag ++ nl ++ lit "x = 1" ++ tail
    /\ forallb isWord tag = true
    /\ (nl = [] \/ nl = [LF])
    /\ (startsWith (LF :: lit "```") tail = true \/ startsWith (lit "```") tail = true).
Proof.
  apply (getCodeBlock_is_verbatim
           (LF :: lit "BEFORE:" ++ [LF] ++ lit "```py" ++ [LF] ++ lit "x = 1" ++ [LF]
            ++ lit "```")
           (lit "BEFORE") (lit "x = 1")).
  vm_compute. reflexivity.
Defined.

(** * Further properties of the matcher *)

Lemma clampOffset_zero (ls : list (str * nat)) : clampOffset ls 0 = 0.
Proof.
  induction ls as [|[l e] ls IH]; [reflexivity|].
  cbn [clampOffset]. destruct ls as [|le ls]; [reflexivity|].
  destruct (0 <? length l + e) eqn:E; [reflexivity|].
  apply Nat.ltb_ge in E. rewrite Nat.sub_0_l, IH. lia.
Qed.

(** X15. An empty [before] is found by the exact stage at offset 0 of
    any file, so the MODIFY does not fail: the range is empty and
    replacing it puts [content] in front of the text. *)
Theorem empty_before_prepends (fullText content : str) :
  locate fullText [] = Found (mkRange (positionAt 0) (positionAt 0))
  /\ replaceRange fullText (mkRange (positionAt 0) (positionAt 0)) content
     = content ++ fullText.
Proof.
  split.
  - unfold locate, indexOf. destruct fullText; reflexivity.
  - unfold replaceRange. cbn [offsetAt range_start range_end].
    rewrite clampOffset_zero. reflexivity.
Qed.

Lemma forallb_same {A} (f g : A -> bool) (l : list A) :
  (forall x, In x l -> f x = g x) -> forallb f l = forallb g l.
Proof.
  induction l as [|x l IH]; intro H; [reflexivity|]. simpl.
  rewrite (H x (or_introl eq_refl)), IH; [reflexivity|].
  intros y Hy. apply H. right. exact Hy.
Qed.

Lemma trim_nth (lines : list str) (k : nat) :
  trim (nth k lines []) = nth k (map trim lines) [].
Proof. change (@nil char) with (trim []) at 2. symmetry. apply map_nth. Qed.

(** X16. The line scan sees the lines of the document and of the block
    only through [trim]: two documents whose lines agree once trimmed,
    and two blocks whose lines agree once trimmed, give the same
    line, or both none.  Indentation and trailing whitespace never
    change where a block is found. *)
Theorem line_scan_ignores_indentation (doc1 doc2 eff1 eff2 : list str) :
  map trim doc1 = map trim doc2 ->
  map trim eff1 = map trim eff2 ->
  findLineIndex doc1 eff1 = findLineIndex doc2 eff2.
Proof.
  intros Hd He.
  assert (Ld : length doc1 = length doc2).
  { rewrite <- (length_map trim doc1), Hd, length_map. reflexivity. }
  assert (Le : length eff1 = length eff2).
  { rewrite <- (length_map trim eff1), He, length_map. reflexivity. }
  assert (Hm : forall i, linesMatchAt doc1 eff1 i = linesMatchAt doc2 eff2 i).
  { intro i. unfold linesMatchAt. rewrite Le. apply forallb_same. intros j _.
    rewrite !trim_nth, Hd, He. reflexivity. }
  unfold findLineIndex. rewrite Ld, Le.
  generalize (Z.to_nat (Z.of_nat (length doc2) - Z.of_nat (length eff2) + 1)).
  generalize 0.
  intros i n. revert i. induction n as [|n IH]; intro i; [reflexivity|].
  cbn [findLineFrom]. rewrite Hm, IH. reflexivity.
Qed.

Lemma line_scan_ignores_indentation_witness :
  findLineIndex [lit "  a "; lit "b"; [9%N] ++ lit "c"] [lit "b "; lit "   c"]
  = findLineIndex [lit "a"; lit " b"; lit "c  "] [lit "b"; lit "c"].
Proof.
  apply (line_scan_ignores_indentation
           [lit "  a "; lit "b"; [9%N] ++ lit "c"] [lit "a"; lit " b"; lit "c  "]
           [lit "b "; lit "   c"] [lit "b"; lit "c"]);
    vm_compute; reflexivity.
Defined.

Lemma locate_line_range_witness :
  let docLines := splitLines sampleDoc in
  let effective := effectiveSearchLines (splitLines sampleBefore) in
  indexOf sampleDoc sampleBefore = None
  /\ effective <> []
  /\ 1 = 0 + length effective - 1
  /\ 0 + length effective <= length docLines
  /\ matchesAt docLines effective 0
  /\ forall i', i' < 0 -> ~ matchesAt docLines effective i'.
Proof.
  apply (locate_line_range sampleDoc sampleBefore 0 1). vm_compute. reflexivity.
Defined.

Lemma dropWhile_head {A} (p : A -> bool) (l : list A) (x : A) (t : list A) :
  dropWhile p l = x :: t -> p x = false.
Proof.
  induction l as [|y l IH]; simpl; [discriminate|].
  destruct (p y) eqn:E; [exact IH|]. intros [= <- <-]. exact E.
Qed.

(** X17. The effective search lines are the lines of the block with its
    blank ends cut off: the block is some blank lines, then the
    effective lines, then some blank lines, and the first and the
    last effective line are not blank.  Blank lines between them are
    kept. *)
Theorem effective_lines_shape (searchLines : list str) :
  let effective := effectiveSearchLines searchLines in
  (exists lead trail,
      searchLines = lead ++ effective ++ trail
      /\ forallb isBlank lead = true /\ forallb isBlank trail = true)
  /\ (forall l rest, effective = l :: rest -> isBlank l = false)
  /\ (forall front l, effective = front ++ [l] -> isBlank l = false).
Proof.
  intro effective. subst effective. rewrite effectiveSearchLines_trimBlankLines.
  unfold trimBlankLines. fold (dropWhileEnd isBlank (dropWhile isBlank searchLines)).
  set (m := dropWhile isBlank searchLines).
  destruct (dropWhileEnd_prefix isBlank m) as (t & Ht & Hb).
  split; [|split].
  - exists (takeWhile isBlank searchLines), t. split; [|split].
    + rewrite <- Ht. symmetry. apply takeWhile_dropWhile.
    + apply takeWhile_all.
    + exact Hb.
  - intros l rest E. rewrite E in Ht. apply (dropWhile_head isBlank searchLines l (rest ++ t)).
    exact Ht.
  - intros front l E. unfold dropWhileEnd in E.
    apply (f_equal (@rev str)) in E. rewrite rev_involutive, rev_app_distr in E.
    exact (dropWhile_head isBlank _ _ _ E).
Qed.

(** * Further properties of the executor and the view *)

Section CallsAndView.

Context {W : Type} {host : Host W}.

(** X18. Each kind of action makes only its own calls: a MODIFY opens,
    shows and edits a document, a CREATE writes, a DELETE deletes, a
    SHELL action writes to the terminal, a FETCH opens the browser,
    and an action of any other type calls nothing.  So approving a
    DELETE never writes a file, and approving a file action never
    runs a command. *)
Theorem runAction_calls_fit (a : AgentAction) (w w1 : W) (r : ExecError + unit)
        (evs : list Event) :
  runAction a w = (r, w1, evs) -> Forall (callFits a) evs.
Proof.
  revert w r w1 evs. change (emitsOnly (callFits a) (runAction a)).
  unfold runAction. apply emitsOnly_bind; [apply emitsOnly_root|]. intro root.
  destruct (str_eqb (type a) MODIFY) eqn:E1.
  { apply str_eqb_eq in E1.
    apply emitsOnly_bind; [apply emitsOnly_required|]. intro p.
    apply emitsOnly_bind; [apply emitsOnly_query; exact E1|]. intro fullText.
    apply emitsOnly_bind; [apply emitsOnly_call; exact E1|]. intros _.
    apply emitsOnly_bind; [apply emitsOnly_required|]. intro b.
    destruct (locate fullText b);
      [apply emitsOnly_call; exact E1 | apply emitsOnly_throw | apply emitsOnly_throw]. }
  destruct (str_eqb (type a) CREATE) eqn:E2.
  { apply str_eqb_eq in E2.
    apply emitsOnly_bind; [apply emitsOnly_required|]. intro p.
    apply emitsOnly_call. exact E2. }
  destruct (str_eqb (type a) DELETE) eqn:E3.
  { apply str_eqb_eq in E3.
    apply emitsOnly_bind; [apply emitsOnly_required|]. intro p.
    apply emitsOnly_call. exact E3. }
  destruct (str_eqb (type a) SHELL) eqn:E4.
  { apply str_eqb_eq in E4. apply emitsOnly_call. exact E4. }
  destruct (str_eqb (type a) FETCH) eqn:E5; [|apply emitsOnly_ret].
  apply str_eqb_eq in E5.
  destruct (url a) as [u|]; [destruct (truthy u)|];
    [apply emitsOnly_call; exact E5 | apply emitsOnly_ret | apply emitsOnly_ret].
Qed.

(** X19. Clearing the chat drops every queued action, approved or not,
    without running any: the queue is empty, the history holds the
    notice alone, host and calls are untouched, and afterwards
    approving any id does nothing and bulk approval only hides its
    button.  The view, when there is one, is told to clear and is
    sent the new history, never the bulk button. *)
Theorem clearChat_drops_queue (view : bool) (st : @Provider W) :
  let st' := fst (clearChat view st) in
  pendingActions st' = []
  /\ chatHistory st' = [clearedNotice]
  /\ world st' = world st /\ trace st' = trace st
  /\ (forall actionId, executeAction actionId st' = st')
  /\ handleApproveAll st' = postMessage (toggleApproveAll false) st'
  /\ snd (clearChat view st)
     = if view then [clearChatMsg; restoreHistoryMsg [clearedNotice]] else [].
Proof.
  cbv zeta. unfold clearChat, restoreHistory. cbn [fst snd pendingActions chatHistory world trace].
  repeat split. destruct view; reflexivity.
Qed.

End CallsAndView.

Lemma runAction_calls_fit_witness :
  Forall (callFits modifyB)
         [OpenTextDocument (lit "/w/f.txt"); ShowTextDocument (lit "/w/f.txt");
          EditReplace (lit "/w/f.txt") (mkRange (positionAt 1) (positionAt 2)) (Some (lit "B"))].
Proof.
  apply (runAction_calls_fit modifyB sampleWorld
           (mkMem (Some (lit "/w")) [(lit "/w/f.txt", lit "aBc")] [] []) (inr tt)).
  vm_compute. reflexivity.
Defined.

(** * From a pasted block to the host *)

Lemma takeBody_single (b : str) :
  (forall pre post, b <> pre ++ lit "{{" ++ post) -> takeBody b = (b, []).
Proof.
  induction b as [|c b IH]; intro H; [reflexivity|].
  assert (He : atBlockEnd (c :: b) = false).
  { cbn [atBlockEnd]. destruct (stripPrefix (lit "{{") (c :: b)) as [r|] eqn:E; [|reflexivity].
    exfalso. apply stripPrefix_Some in E. exact (H [] r E). }
  cbn [takeBody]. rewrite He. rewrite IH; [reflexivity|].
  intros pre post ->. exact (H (c :: pre) post eq_refl).
Qed.

Lemma execLoop_nil (n : nat) : execLoop n [] = [].
Proof. destruct n; reflexivity. Qed.

Lemma matchBlocks_single (w b : str) :
  isMarkerWord w = true ->
  (forall pre post, b <> pre ++ lit "{{" ++ post) ->
  matchBlocks (lit "{{TOOL_CALL:" ++ w ++ lit "}}" ++ b) = [(w, b)].
Proof.
  intros Hw Hb. unfold matchBlocks.
  change (lit "{{TOOL_CALL:" ++ w ++ lit "}}" ++ b)
    with (123%N :: (lit "{TOOL_CALL:" ++ w ++ lit "}}" ++ b)) at 2.
  cbn [execLoop execAction].
  change (123%N :: (lit "{TOOL_CALL:" ++ w ++ lit "}}" ++ b))
    with (lit "{{TOOL_CALL:" ++ w ++ lit "}}" ++ b).
  rewrite (matchMarker_render w b Hw), (takeBody_single b Hb), execLoop_nil.
  reflexivity.
Qed.

Lemma findIndex_last (actionId : str) (queue : list AgentAction) (a : AgentAction) :
  (forall b, In b queue -> id b <> actionId) -> id a = actionId ->
  findIndex (hasId actionId) (queue ++ [a]) = Some (length queue)
  /\ nth_error (queue ++ [a]) (length queue) = Some a
  /\ removeAt (length queue) (queue ++ [a]) = queue.
Proof.
  intros Hq Ha. induction queue as [|x queue IH]; simpl.
  - unfold hasId. rewrite Ha, str_eqb_refl. repeat split; reflexivity.
  - assert (Hx : hasId actionId x = false).
    { apply str_eqb_neq. apply Hq. left. reflexivity. }
    rewrite Hx. destruct IH as (I1 & I2 & I3).
    { intros b Hb. apply Hq. right. exact Hb. }
    rewrite I1, I3. repeat split; [exact I2].
Qed.

Lemma buildAction_id (i ty body : str) : id (buildAction i ty body) = i.
Proof.
  unfold buildAction.
  repeat match goal with |- context [if ?c then _ else _] => destruct c end; reflexivity.
Qed.

Section EndToEnd.

Context {W : Type} {host : Host W}.

Lemma hostCalls_posts (ms : list WebviewMsg) : hostCalls (map PostMessage ms) = [].
Proof. induction ms as [|m ms IH]; [reflexivity | exact IH]. Qed.

(** Parsing leaves the host alone and makes no call to it. *)
Lemma parse_frame (rand : nat -> str) (aiResponse : str) (st : @Provider W) :
  world (parseAndConfirmActions rand aiResponse st) = world st
  /\ hostCalls (trace (parseAndConfirmActions rand aiResponse st)) = hostCalls (trace st).
Proof.
  unfold parseAndConfirmActions.
  rewrite confirmLoop_all by apply execLoop_words.
  set (acts := actionsOf rand 0 (matchBlocks aiResponse)).
  assert (Hm : hostCalls (map (fun a => PostMessage (addMessage (actionMessage a))) acts) = []).
  { rewrite <- (map_map (fun a => addMessage (actionMessage a)) PostMessage).
    apply hostCalls_posts. }
  destruct (Nat.ltb 0 _); unfold addToHistory, postMessage, emit;
    cbn [world trace pendingActions chatHistory];
    rewrite !hostCalls_app, Hm; (split; [reflexivity|]);
    unfold hostCalls; simpl; rewrite !app_nil_r; reflexivity.
Qed.

Ltac right_nest := repeat (rewrite <- app_assoc || rewrite <- app_comm_cons).

(** A response that is one block, approved right away. *)
Lemma single_block_approved (rand : nat -> str) (w b : str) (st : @Provider W)
      (wf : W) (evs : list Event) :
  isMarkerWord w = true ->
  (forall pre post, b <> pre ++ lit "{{" ++ post) ->
  (forall q, In q (pendingActions st) -> id q <> rand 0) ->
  runAction (buildAction (rand 0) w b) (world st) = (inr tt, wf, evs) ->
  let st1 := parseAndConfirmActions rand (lit "{{TOOL_CALL:" ++ w ++ lit "}}" ++ b) st in
  let st2 := executeAction (rand 0) st1 in
  pendingActions st1 = pendingActions st ++ [buildAction (rand 0) w b]
  /\ world st2 = wf
  /\ pendingActions st2 = pendingActions st
  /\ hostCalls (trace st2) = hostCalls (trace st) ++ evs.
Proof.
  intros Hw Hb Hq Hr st1 st2.
  assert (Hp : pendingActions st1 = pendingActions st ++ [buildAction (rand 0) w b]).
  { unfold st1. rewrite parse_queues_batch, parsedBatch_all, (matchBlocks_single w b Hw Hb).
    reflexivity. }
  destruct (parse_frame rand (lit "{{TOOL_CALL:" ++ w ++ lit "}}" ++ b) st) as [Hw1 Hh1].
  fold st1 in Hw1, Hh1.
  destruct (findIndex_last (rand 0) (pendingActions st) (buildAction (rand 0) w b) Hq
              (buildAction_id _ _ _)) as (Hi & Hn & Hrem).
  rewrite <- Hp in Hi, Hn, Hrem. rewrite <- Hw1 in Hr.
  split; [exact Hp|].
  unfold st2. rewrite (executeAction_completes _ _ _ st1 wf evs Hi Hn Hr).
  unfold completedWith. cbn [world trace pendingActions chatHistory].
  split; [reflexivity|]. split; [exact Hrem|].
  rewrite app_assoc, hostCalls_app, hostCalls_app, Hh1.
  rewrite (hostCalls_all evs (runAction_host_calls _ _ _ _ _ Hr)).
  destruct (Nat.eqb _ 0); unfold hostCalls; simpl; rewrite app_nil_r; reflexivity.
Qed.

(** X20. From text to terminal.  A pasted SHELL block with its command
    on the label's line, approved under an open workspace, sends the
    trimmed command line to the terminal, makes no other call, and
    leaves the queue as it was before the paste. *)
Theorem shell_block_end_to_end (rand : nat -> str) (c : char) (v root : str)
        (st : @Provider W) (w1 : W) :
  let body := LF :: lit "COMMAND: " ++ (c :: v) ++ [LF] in
  let st1 := parseAndConfirmActions rand (lit "{{TOOL_CALL:SHELL}}" ++ body) st in
  let st2 := executeAction (rand 0) st1 in
  isWhiteSpace c = false -> c <> 42%N ->
  forallb (fun x => negb (isLineTerminator x)) (c :: v) = true ->
  indexOf body (lit "{{") = None ->
  (forall q, In q (pendingActions st) -> id q <> rand 0) ->
  workspaceRoot (world st) = Some root -> truthy root = true ->
  terminalSendText (world st) (Some (trim (c :: v))) = Some w1 ->
  world st2 = w1
  /\ pendingActions st2 = pendingActions st
  /\ hostCalls (trace st2)
     = hostCalls (trace st) ++ [TerminalSendText (Some (trim (c :: v)))].
Proof.
  intros body st1 st2 Hc Hs Hv Hb Hq Hr Ht Hsend.
  assert (Hcmd : getField body (lit "COMMAND") = Some (trim (c :: v))).
  { exact (getField_value (lit "COMMAND") (lit "COMMAND:") [LF] [32%N] [] false c v
             (or_intror (or_introl eq_refl)) eq_refl eq_refl eq_refl Hc Hs Hv). }
  assert (Ha : buildAction (rand 0) SHELL body
               = {| id := rand 0; type := SHELL; path := None; content := None;
                    before := None; command := Some (trim (c :: v)); url := None |}).
  { unfold buildAction. rewrite Hcmd. reflexivity. }
  assert (Hrun : runAction (buildAction (rand 0) SHELL body) (world st)
                 = (inr tt, w1, [TerminalSendText (Some (trim (c :: v)))])).
  { rewrite Ha. unfold runAction, bind, getWorkspaceRoot, call. rewrite Hr, Ht.
    cbn [type command]. change (str_eqb SHELL MODIFY) with false.
    change (str_eqb SHELL CREATE) with false. change (str_eqb SHELL DELETE) with false.
    rewrite str_eqb_refl. cbv iota. rewrite Hsend. reflexivity. }
  destruct (single_block_approved rand SHELL body st w1 _ eq_refl
              (no_occurrence _ _ Hb) Hq Hrun) as (_ & H2 & H3 & H4).
  split; [exact H2|]. split; [exact H3 | exact H4].
Qed.

(** X21. From text to file.  A pasted CREATE block in the format of the
    prompt, approved under an open workspace, writes the fenced text,
    as written, to the trimmed path resolved against the root, makes
    no other call, and leaves the queue as it was before the paste. *)
Theorem create_block_end_to_end (rand : nat -> str) (c : char) (v text root : str)
        (st : @Provider W) (w1 : W) :
  let head := LF :: lit "FILE: " ++ (c :: v) ++ [LF] in
  let body := head ++ lit "CONTENT:" ++ [LF] ++ lit "```"
              ++ LF :: text ++ LF :: lit "```" ++ [LF] in
  let st1 := parseAndConfirmActions rand (lit "{{TOOL_CALL:CREATE}}" ++ body) st in
  let st2 := executeAction (rand 0) st1 in
  let file := resolve root (trim (c :: v)) in
  isWhiteSpace c = false -> c <> 42%N ->
  forallb (fun x => negb (isLineTerminator x)) (c :: v) = true ->
  indexOf (map canon body) (map canon (lit "CONTENT:")) = Some (length head) ->
  indexOf text (lit "```") = None ->
  indexOf body (lit "{{") = None ->
  (forall q, In q (pendingActions st) -> id q <> rand 0) ->
  workspaceRoot (world st) = Some root -> truthy root = true ->
  writeFile (world st) file text = Some w1 ->
  world st2 = w1
  /\ pendingActions st2 = pendingActions st
  /\ hostCalls (trace st2) = hostCalls (trace st) ++ [WriteFile file text].
Proof.
  intros head body st1 st2 file Hc Hs Hv Hl Hf Hb Hq Hr Ht Hwrite.
  assert (Hpath : getField body (lit "FILE") = Some (trim (c :: v))).
  { unfold body, head.
    change ((LF :: lit "FILE: " ++ (c :: v) ++ [LF]) ++ lit "CONTENT:" ++ [LF]
            ++ lit "```" ++ LF :: text ++ LF :: lit "```" ++ [LF])
      with (LF :: (lit "FILE: " ++ (c :: v) ++ [LF]) ++ lit "CONTENT:" ++ [LF]
            ++ lit "```" ++ LF :: text ++ LF :: lit "```" ++ [LF]).
    rewrite <- !app_assoc.
    exact (getField_value (lit "FILE") (lit "FILE:") [LF] [32%N] _ false c v
             (or_introl eq_refl) eq_refl eq_refl eq_refl Hc Hs Hv). }
  assert (Htext : getCodeBlock body (lit "CONTENT") = Some text).
  { exact (getCodeBlock_written (lit "CONTENT") head [LF] [] text [LF]
             Hl eq_refl eq_refl Hf). }
  assert (Ha : buildAction (rand 0) CREATE body
               = {| id := rand 0; type := CREATE; path := Some (trim (c :: v));
                    content := Some text; before := None; command := None;
                    url := None |}).
  { unfold buildAction. rewrite Hpath, Htext. reflexivity. }
  assert (Hrun : runAction (buildAction (rand 0) CREATE body) (world st)
                 = (inr tt, w1, [WriteFile file text])).
  { rewrite Ha. unfold runAction, bind, getWorkspaceRoot, required, ret, call.
    rewrite Hr, Ht. cbn [type path content orEmpty].
    change (str_eqb CREATE MODIFY) with false. rewrite str_eqb_refl. cbv iota beta zeta.
    fold file. rewrite Hwrite. reflexivity. }
  destruct (single_block_approved rand CREATE body st w1 _ eq_refl
              (no_occurrence _ _ Hb) Hq Hrun) as (_ & H2 & H3 & H4).
  split; [exact H2|]. split; [exact H3 | exact H4].
Qed.

(** X22. From text to edit.  A pasted MODIFY block in the format of the
    prompt, approved under an open workspace, opens and shows the file
    at the trimmed path and, when the BEFORE text occurs in it,
    replaces the range of its first occurrence with the AFTER text as
    written; the queue is left as it was before the paste. *)
Theorem modify_block_end_to_end (rand : nat -> str) (c : char)
        (v old new root fullText : str) (offset : nat) (st : @Provider W) (w1 w2 : W) :
  let head := LF :: lit "FILE: " ++ (c :: v) ++ [LF] in
  let mid := head ++ lit "BEFORE:" ++ [LF] ++ lit "```"
             ++ LF :: old ++ LF :: lit "```" ++ [LF] in
  let body := mid ++ lit "AFTER:" ++ [LF] ++ lit "```"
              ++ LF :: new ++ LF :: lit "```" ++ [LF] in
  let st1 := parseAndConfirmActions rand (lit "{{TOOL_CALL:MODIFY}}" ++ body) st in
  let st2 := executeAction (rand 0) st1 in
  let file := resolve root (trim (c :: v)) in
  let r := mkRange (positionAt offset) (positionAt (offset + length old)) in
  isWhiteSpace c = false -> c <> 42%N ->
  forallb (fun x => negb (isLineTerminator x)) (c :: v) = true ->
  indexOf (map canon body) (map canon (lit "BEFORE:")) = Some (length head) ->
  indexOf (map canon body) (map canon (lit "AFTER:")) = Some (length mid) ->
  indexOf old (lit "```") = None ->
  indexOf new (lit "```") = None ->
  indexOf body (lit "{{") = None ->
  (forall q, In q (pendingActions st) -> id q <> rand 0) ->
  workspaceRoot (world st) = Some root -> truthy root = true ->
  openTextDocument (world st) file = Some fullText ->
  showTextDocument (world st) file = Some w1 ->
  indexOf fullText old = Some offset ->
  editReplace w1 file r (Some new) = Some w2 ->
  world st2 = w2
  /\ pendingActions st2 = pendingActions st
  /\ hostCalls (trace st2)
     = hostCalls (trace st)
       ++ [OpenTextDocument file; ShowTextDocument file; EditReplace file r (Some new)].
Proof.
  intros head mid body st1 st2 file r Hc Hs Hv Hlb Hla Hfo Hfn Hb Hq Hr Ht Ho Hsh Hx He.
  assert (Ef : body = [LF] ++ lit "FILE:" ++ [] ++ [32%N] ++ (c :: v)
                      ++ LF :: (lit "BEFORE:" ++ [LF] ++ lit "```"
                                ++ LF :: old ++ LF :: lit "```" ++ [LF]
                                ++ lit "AFTER:" ++ [LF] ++ lit "```"
                                ++ LF :: new ++ LF :: lit "```" ++ [LF])).
  { unfold body, mid, head. right_nest. reflexivity. }
  assert (Hpath : getField body (lit "FILE") = Some (trim (c :: v))).
  { rewrite Ef.
    exact (getField_value (lit "FILE") (lit "FILE:") [LF] [32%N] _ false c v
             (or_introl eq_refl) eq_refl eq_refl eq_refl Hc Hs Hv). }
  assert (Eb : body = head ++ (lit "BEFORE" ++ lit ":") ++ [LF] ++ lit "```" ++ []
                      ++ LF :: old ++ LF :: lit "```"
                      ++ (LF :: lit "AFTER:" ++ [LF] ++ lit "```"
                          ++ LF :: new ++ LF :: lit "```" ++ [LF])).
  { unfold body, mid. right_nest. reflexivity. }
  assert (Hold : getCodeBlock body (lit "BEFORE") = Some old).
  { rewrite Eb in Hlb |- *.
    exact (getCodeBlock_written (lit "BEFORE") head [LF] [] old _ Hlb eq_refl eq_refl Hfo). }
  assert (Hnew : getCodeBlock body (lit "AFTER") = Some new).
  { exact (getCodeBlock_written (lit "AFTER") mid [LF] [] new [LF] Hla eq_refl eq_refl Hfn). }
  assert (Ha : buildAction (rand 0) MODIFY body
               = {| id := rand 0; type := MODIFY; path := Some (trim (c :: v));
                    content := Some new; before := Some old; command := None;
                    url := None |}).
  { unfold buildAction. rewrite Hpath, Hold, Hnew. reflexivity. }
  assert (Hrun : runAction (buildAction (rand 0) MODIFY body) (world st)
                 = (inr tt, w2,
                    [OpenTextDocument file; ShowTextDocument file;
                     EditReplace file r (Some new)])).
  { rewrite Ha.
    exact (runAction_modify_exact
             (mkAction (rand 0) MODIFY (Some (trim (c :: v))) (Some new) (Some old) None None)
             (world st) w1 w2 root (trim (c :: v)) old fullText offset
             eq_refl Hr Ht eq_refl eq_refl Ho Hsh Hx He). }
  destruct (single_block_approved rand MODIFY body st w2 _ eq_refl
              (no_occurrence _ _ Hb) Hq Hrun) as (_ & H2 & H3 & H4).
  split; [exact H2|]. split; [exact H3 | exact H4].
Qed.

End EndToEnd.

Lemma shell_block_end_to_end_witness :
  let rand := fun _ : nat => lit "id" in
  let st := memProvider sampleWorld [modifyB] in
  let st1 := parseAndConfirmActions rand
               (lit "{{TOOL_CALL:SHELL}}" ++ LF :: lit "COMMAND: " ++ lit "ls -la  " ++ [LF])
               st in
  let st2 := executeAction (rand 0) st1 in
  world st2 = mkMem (Some (lit "/w")) [(lit "/w/f.txt", lit "abc")] [Some (lit "ls -la")] []
  /\ pendingActions st2 = [modifyB]
  /\ hostCalls (trace st2) = [] ++ [TerminalSendText (Some (trim (lit "ls -la  ")))].
Proof.
  intros rand st.
  apply (shell_block_end_to_end rand 108%N (lit "s -la  ") (lit "/w") st
           (mkMem (Some (lit "/w")) [(lit "/w/f.txt", lit "abc")] [Some (lit "ls -la")] []));
    try (vm_compute; reflexivity).
  - discriminate.
  - intros q [<-|[]]. vm_compute. discriminate.
Defined.

Lemma create_block_end_to_end_witness :
  let rand := fun _ : nat => lit "id" in
  let st := memProvider sampleWorld [] in
  let st1 := parseAndConfirmActions rand
               (lit "{{TOOL_CALL:CREATE}}"
                ++ (LF :: lit "FILE: " ++ lit "a.js " ++ [LF]) ++ lit "CONTENT:" ++ [LF]
                ++ lit "```" ++ LF :: lit "f = () => { return `x` }" ++ LF :: lit "```" ++ [LF])
               st in
  let st2 := executeAction (rand 0) st1 in
  world st2
  = mkMem (Some (lit "/w"))
          [(lit "/w/a.js", lit "f = () => { return `x` }"); (lit "/w/f.txt", lit "abc")] [] []
  /\ pendingActions st2 = []
  /\ hostCalls (trace st2)
     = [] ++ [WriteFile (resolve (lit "/w") (trim (lit "a.js ")))
                        (lit "f = () => { return `x` }")].
Proof.
  intros rand st.
  apply (create_block_end_to_end rand 97%N (lit ".js ") (lit "f = () => { return `x` }")
           (lit "/w") st
           (mkMem (Some (lit "/w"))
                  [(lit "/w/a.js", lit "f = () => { return `x` }"); (lit "/w/f.txt", lit "abc")]
                  [] []));
    try (vm_compute; reflexivity).
  - discriminate.
  - intros q [].
Defined.

Lemma modify_block_end_to_end_witness :
  let rand := fun _ : nat => lit "id" in
  let st := memProvider sampleWorld [] in
  let st1 := parseAndConfirmActions rand
               (lit "{{TOOL_CALL:MODIFY}}"
                ++ ((LF :: lit "FILE: " ++ lit "f.txt" ++ [LF]) ++ lit "BEFORE:" ++ [LF]
                    ++ lit "```" ++ LF :: lit "b" ++ LF :: lit "```" ++ [LF])
                ++ lit "AFTER:" ++ [LF] ++ lit "```" ++ LF :: lit "B" ++ LF :: lit "```" ++ [LF])
               st in
  let st2 := executeAction (rand 0) st1 in
  world st2 = mkMem (Some (lit "/w")) [(lit "/w/f.txt", lit "aBc")] [] []
  /\ pendingActions st2 = []
  /\ hostCalls (trace st2)
     = [] ++ [OpenTextDocument (resolve (lit "/w") (trim (lit "f.txt")));
              ShowTextDocument (resolve (lit "/w") (trim (lit "f.txt")));
              EditReplace (resolve (lit "/w") (trim (lit "f.txt")))
                          (mkRange (positionAt 1) (positionAt (1 + length (lit "b"))))
                          (Some (lit "B"))].
Proof.
  intros rand st.
  apply (modify_block_end_to_end rand 102%N (lit ".txt") (lit "b") (lit "B") (lit "/w")
           (lit "abc") 1 st sampleWorld
           (mkMem (Some (lit "/w")) [(lit "/w/f.txt", lit "aBc")] [] []));
    try (vm_compute; reflexivity).
  - discriminate.
  - intros q [].
Defined.

(** * The prompt *)

Lemma takeBody_noMarker (t : str) :
  noMarkerStart t = true -> takeBody t = (t, []).
Proof.
  induction t as [|c t IH]; intro H; [reflexivity|].
  cbn [noMarkerStart] in H. apply andb_true_iff in H. destruct H as [He H].
  apply negb_true_iff in He.
  cbn [takeBody]. rewrite He, (IH H). reflexivity.
Qed.

(** A marker starts with a brace, so none starts inside text without
    braces, nor across its end. *)
Lemma noMarkerStart_after_prose (p t : str) :
  noBrace p = true -> noMarkerStart t = true -> noMarkerStart (p ++ t) = true.
Proof.
  intros Hp Ht. induction p as [|c p IH]; [exact Ht|].
  simpl in Hp. apply andb_true_iff in Hp. destruct Hp as [Hc Hp].
  apply negb_true_iff in Hc.
  change ((c :: p) ++ t) with (c :: (p ++ t)). cbn [noMarkerStart atBlockEnd].
  rewrite (stripPrefix_no_brace c _ Hc), (IH Hp). reflexivity.
Qed.

Lemma renderBlock_body_app (w b t : str) :
  renderBlock (w, b ++ t) = renderBlock (w, b) ++ t.
Proof. unfold renderBlock. cbn [fst snd]. rewrite <- !app_assoc. reflexivity. Qed.

Lemma atBlockEnd_renderBlock (wb : str * str) (t : str) :
  atBlockEnd (renderBlock wb ++ t) = true.
Proof. reflexivity. Qed.

Lemma execAction_block_then (w b t : str) :
  isMarkerWord w = true -> noBrace b = true -> atBlockEnd t = true ->
  execAction (renderBlock (w, b) ++ t) = Some (w, b, t).
Proof.
  intros Hw Hb Ht.
  assert (E : renderBlock (w, b) ++ t
              = 123%N :: (lit "{TOOL_CALL:" ++ w ++ lit "}}" ++ b ++ t)).
  { unfold renderBlock. cbn [fst snd]. rewrite <- !app_assoc. reflexivity. }
  rewrite E. cbn [execAction].
  change (123%N :: (lit "{TOOL_CALL:" ++ w ++ lit "}}" ++ b ++ t))
    with (lit "{{TOOL_CALL:" ++ w ++ lit "}}" ++ (b ++ t)).
  rewrite (matchMarker_render w _ Hw), (takeBody_noBrace b t Hb Ht). reflexivity.
Qed.

Lemma execAction_last_block (w b : str) :
  isMarkerWord w = true -> noMarkerStart b = true ->
  execAction (renderBlock (w, b)) = Some (w, b, []).
Proof.
  intros Hw Hb. unfold renderBlock. cbn [fst snd].
  change (lit "{{TOOL_CALL:" ++ w ++ lit "}}" ++ b)
    with (123%N :: (lit "{TOOL_CALL:" ++ w ++ lit "}}" ++ b)).
  cbn [execAction].
  change (123%N :: (lit "{TOOL_CALL:" ++ w ++ lit "}}" ++ b))
    with (lit "{{TOOL_CALL:" ++ w ++ lit "}}" ++ b).
  rewrite (matchMarker_render w b Hw), (takeBody_noMarker b Hb). reflexivity.
Qed.

Lemma execLoop_blocks_then_last (blocks : list (str * str)) (w b : str) : forall n,
  Forall (fun wb => isMarkerWord (fst wb) = true /\ noBrace (snd wb) = true) blocks ->
  isMarkerWord w = true -> noMarkerStart b = true ->
  length blocks + 1 < n ->
  execLoop n (renderBlocks blocks ++ renderBlock (w, b)) = blocks ++ [(w, b)].
Proof.
  induction blocks as [|[w1 b1] blocks IH]; intros n Hf Hw Hb Hn.
  - destruct n as [|n]; [lia|].
    change (renderBlocks [] ++ renderBlock (w, b)) with (renderBlock (w, b)).
    cbn [execLoop]. rewrite (execAction_last_block w b Hw Hb), execLoop_nil. reflexivity.
  - destruct n as [|n]; [lia|]. inversion Hf as [|? ? [Hw1 Hb1] Hf']; subst.
    cbn [fst snd] in Hw1, Hb1.
    assert (E : renderBlocks ((w1, b1) :: blocks) ++ renderBlock (w, b)
                = renderBlock (w1, b1) ++ (renderBlocks blocks ++ renderBlock (w, b))).
    { unfold renderBlocks. cbn [map concat]. rewrite <- app_assoc. reflexivity. }
    rewrite E. cbn [execLoop].
    rewrite (execAction_block_then w1 b1 _ Hw1 Hb1).
    + rewrite (IH n Hf' Hw Hb) by (simpl in Hn; lia). reflexivity.
    + destruct blocks as [|wb blocks]; reflexivity.
Qed.

Lemma matchBlocks_blocks_then_last (prose : str) (blocks : list (str * str)) (w b : str) :
  noBrace prose = true ->
  Forall (fun wb => isMarkerWord (fst wb) = true /\ noBrace (snd wb) = true) blocks ->
  isMarkerWord w = true -> noMarkerStart b = true ->
  matchBlocks (prose ++ renderBlocks blocks ++ renderBlock (w, b)) = blocks ++ [(w, b)].
Proof.
  intros Hp Hf Hw Hb. unfold matchBlocks. cbn [execLoop].
  rewrite (execAction_prose prose _ Hp).
  change (execLoop (S (length (prose ++ renderBlocks blocks ++ renderBlock (w, b))))
                   (renderBlocks blocks ++ renderBlock (w, b))
          = blocks ++ [(w, b)]).
  apply (execLoop_blocks_then_last blocks w b _ Hf Hw Hb).
  rewrite !length_app. pose proof (renderBlocks_length blocks).
  unfold renderBlock. cbn [fst snd]. rewrite !length_app. simpl. lia.
Qed.

(** The loop over the open documents, in closed form. *)
Lemma openFiles_from (textDocuments : list TextDocument) : forall acc,
  fold_left
    (fun openFilesContext doc =>
       if isListed doc then openFilesContext ++ openFileEntry doc else openFilesContext)
    textDocuments acc
  = acc ++ concat (map openFileEntry (filter isListed textDocuments)).
Proof.
  induction textDocuments as [|doc docs IH]; intro acc; cbn [fold_left filter].
  - cbn [map concat]. rewrite app_nil_r. reflexivity.
  - rewrite IH. destruct (isListed doc); [|reflexivity].
    cbn [map concat]. rewrite <- app_assoc. reflexivity.
Qed.

Lemma openFiles_listed (textDocuments : list TextDocument) :
  openFiles textDocuments = concat (map openFileEntry (filter isListed textDocuments)).
Proof. unfold openFiles. rewrite openFiles_from. reflexivity. Qed.

Lemma listed_twice (textDocuments : list TextDocument) :
  filter isListed (filter isListed textDocuments) = filter isListed textDocuments.
Proof.
  induction textDocuments as [|doc docs IH]; [reflexivity|].
  cbn [filter]. destruct (isListed doc) eqn:E; [|exact IH].
  cbn [filter]. rewrite E, IH. reflexivity.
Qed.

Lemma openFiles_truthy (textDocuments : list TextDocument) :
  truthy (openFiles textDocuments) = existsb isListed textDocuments.
Proof.
  rewrite openFiles_listed.
  induction textDocuments as [|doc docs IH]; [reflexivity|].
  cbn [filter existsb]. destruct (isListed doc); [reflexivity|exact IH].
Qed.

Section PromptFacts.

Context {W : Type}.

(** X24. The examples of the prompt are written in the format the
    parser reads.  Applied as a response, the prompt yields exactly
    five actions, one of each kind in the order MODIFY, CREATE,
    DELETE, SHELL, FETCH, with the placeholder texts as their fields:
    the numbered headings between the examples change no field, and
    the context and the instruction, which end up in the body of the
    FETCH example, neither change its address nor add an action as
    long as no marker starts in them. *)
Theorem prompt_examples_are_actions (rand : nat -> str)
        (folders : option (list WorkspaceFolder)) (textDocuments : list TextDocument)
        (written : bool) (userInstruction : str) (options : PromptOptions)
        (st st' : @Provider W) :
  let contextText := fst (gatherContext folders textDocuments options) in
  let prompt :=
    fst (handleCopyPrompt folders textDocuments written userInstruction options st) in
  noMarkerStart (contextText ++ lit "User Request: " ++ userInstruction) = true ->
  parsedBatch rand prompt st' = promptExamples rand.
Proof.
  intros contextText prompt H.
  set (tail := contextText ++ lit "User Request: " ++ userInstruction) in *.
  assert (Ep : prompt = promptHeader ++ tail).
  { unfold prompt, handleCopyPrompt, tail, contextText.
    destruct (gatherContext folders textDocuments options) as [c l]. reflexivity. }
  pose (prose := takeWhile (fun c => negb (char_eqb c 123%N)) promptHeader).
  pose (blocks := removelast (matchBlocks promptHeader)).
  pose (body := snd (last (matchBlocks promptHeader) ([], []))).
  assert (Eh : promptHeader = prose ++ renderBlocks blocks ++ renderBlock (FETCH, body))
    by (vm_compute; reflexivity).
  assert (Hprose : noBrace prose = true) by (vm_compute; reflexivity).
  assert (Hbody : noBrace body = true) by (vm_compute; reflexivity).
  assert (Hblocks : Forall (fun wb => isMarkerWord (fst wb) = true
                                      /\ noBrace (snd wb) = true) blocks).
  { apply Forall_forall. intros wb Hin.
    assert (Hall : forallb (fun wb => isMarkerWord (fst wb) && noBrace (snd wb)) blocks = true)
      by (vm_compute; reflexivity).
    rewrite forallb_forall in Hall. apply andb_true_iff. exact (Hall wb Hin). }
  assert (Em : matchBlocks prompt = blocks ++ [(FETCH, body ++ tail)]).
  { rewrite Ep, Eh, <- !app_assoc, <- renderBlock_body_app.
    apply (matchBlocks_blocks_then_last prose blocks FETCH (body ++ tail) Hprose Hblocks).
    - vm_compute. reflexivity.
    - exact (noMarkerStart_after_prose body tail Hbody H). }
  assert (Eu : getField (body ++ tail) (lit "URL") = Some [35831; 27714; 22320; 22336]%N).
  { change (body ++ tail)
      with ([LF] ++ lit "URL:" ++ (if false then lit "**" else []) ++ lit " "
            ++ (35831%N :: [27714; 22320; 22336]%N) ++ LF :: (LF :: tail)).
    rewrite (getField_value (lit "URL")); try (vm_compute; reflexivity).
    - right. right. left. reflexivity.
    - discriminate. }
  rewrite parsedBatch_all, Em.
  assert (Ea : forall k bs t,
             actionsOf rand k (bs ++ [(FETCH, t)])
             = actionsOf rand k bs ++ [buildAction (rand (k + length bs)) FETCH t]).
  { intros k bs t. revert k. induction bs as [|[w1 b1] bs IH]; intro k.
    - cbn [actionsOf app length]. rewrite Nat.add_0_r. reflexivity.
    - cbn [actionsOf app length]. rewrite IH, <- Nat.add_succ_comm. reflexivity. }
  rewrite Ea.
  assert (Ef : buildAction (rand (0 + length blocks)) FETCH (body ++ tail)
               = mkAction (rand 4) FETCH None None None None
                          (Some [35831; 27714; 22320; 22336]%N)).
  { unfold buildAction. rewrite Eu. reflexivity. }
  rewrite Ef. vm_compute. reflexivity.
Qed.

(** X25. Documents under [node_modules], and documents that are not
    files on disk, never reach the prompt; and asking for the open
    files when no document qualifies gives the prompt and the log
    line of not asking. *)
Theorem unlisted_documents_are_ignored (folders : option (list WorkspaceFolder))
        (textDocuments : list TextDocument) (written : bool) (userInstruction : str)
        (options : PromptOptions) (st : @Provider W) :
  handleCopyPrompt folders textDocuments written userInstruction options st
  = handleCopyPrompt folders (filter isListed textDocuments) written userInstruction
      (mkOptions (includeStructure options)
                 (includeOpenFiles options && existsb isListed textDocuments))
      st.
Proof.
  assert (E : gatherContext folders textDocuments options
              = gatherContext folders (filter isListed textDocuments)
                  (mkOptions (includeStructure options)
                             (includeOpenFiles options && existsb isListed textDocuments))).
  { unfold gatherContext. cbn [includeStructure includeOpenFiles]. cbv zeta.
    destruct (includeOpenFiles options); cbn [andb];
      [|destruct (includeStructure options); reflexivity].
    rewrite !openFiles_truthy.
    destruct (existsb isListed textDocuments) eqn:Ex;
      [|destruct (includeStructure options); reflexivity].
    assert (Ex' : existsb isListed (filter isListed textDocuments) = true).
    { apply existsb_exists. apply existsb_exists in Ex. destruct Ex as [d [Hin Hd]].
      exists d. split; [|exact Hd]. apply filter_In. split; assumption. }
    rewrite Ex', !openFiles_listed, listed_twice. reflexivity. }
  unfold handleCopyPrompt. rewrite E. reflexivity.
Qed.

End PromptFacts.

Lemma prompt_examples_are_actions_witness :
  noMarkerStart
    (fst (gatherContext sampleFolders sampleDocuments (mkOptions true true))
     ++ lit "User Request: " ++ lit "add {a: 1} to b")
  = true
  /\ parsedBatch (fun k => lit "id")
       (fst (handleCopyPrompt sampleFolders sampleDocuments true (lit "add {a: 1} to b")
               (mkOptions true true) (memProvider sampleWorld [])))
       (memProvider sampleWorld [])
     = promptExamples (fun k => lit "id").
Proof.
  split; [vm_compute; reflexivity|].
  apply (prompt_examples_are_actions (fun k => lit "id") sampleFolders sampleDocuments true
           (lit "add {a: 1} to b") (mkOptions true true)
           (memProvider sampleWorld []) (memProvider sampleWorld [])).
  vm_compute. reflexivity.
Defined.

(** * The dispatcher *)

Section DispatchFacts.

Context {W : Type} {host : Host W}.

Lemma copyPrompt_frame (folders : option (list WorkspaceFolder))
      (textDocuments : list TextDocument) (written : bool) (inputValue : str)
      (options : PromptOptions) (st : @Provider W) :
  let st' := snd (handleCopyPrompt folders textDocuments written inputValue options st) in
  world st' = world st
  /\ hostCalls (trace st') = hostCalls (trace st)
  /\ pendingActions st' = pendingActions st.
Proof.
  unfold handleCopyPrompt.
  destruct (gatherContext folders textDocuments options) as [contextText logMsg].
  cbn [snd]. destruct written; [|tauto].
  unfold addToHistory, postMessage, emit. cbn [world trace pendingActions chatHistory].
  rewrite hostCalls_app. unfold hostCalls at 2. cbn [filter isHostCall].
  rewrite app_nil_r. tauto.
Qed.


Lemma handleApproveAll_keeps_or_removes (st : @Provider W) (a : AgentAction) :
  In a (pendingActions (handleApproveAll st)) -> In a (pendingActions st).
Proof.
  rewrite handleApproveAll_tail. cbn [pendingActions].
  apply (proj2 (approve_ids_balance _ st)).
Qed.

Lemma step_queue (i : Input) (st : @Provider W) (a : AgentAction) :
  isApply i = false ->
  In a (pendingActions (step i st)) -> In a (pendingActions st).
Proof.
  destruct i as [[folders docs written inputValue options|rand inputValue|actionId| | |]|view];
    cbn [isApply step onDidReceiveMessage]; intro H; try discriminate; try tauto.
  - destruct (copyPrompt_frame folders docs written inputValue options st) as (_ & _ & Hp).
    rewrite Hp. tauto.
  - apply executeAction_keeps_or_removes.
  - apply handleApproveAll_keeps_or_removes.
  - unfold clearChat. cbn [fst pendingActions]. intros [].
Qed.


(** X27. The queue grows only when a response is applied.  Over any
    sequence of inputs with no [applyChange] among them, every action
    queued at the end was queued at the start: approvals, prompts and
    reloads add none. *)
Theorem queue_grows_only_by_apply (inputs : list Input) (st : @Provider W)
        (a : AgentAction) :
  existsb isApply inputs = false ->
  In a (pendingActions (run inputs st)) -> In a (pendingActions st).
Proof.
  revert st. induction inputs as [|i inputs IH]; intros st H Ha; [exact Ha|].
  cbn [existsb] in H. apply orb_false_iff in H. destruct H as [Hi H].
  unfold run in Ha. cbn [fold_left] in Ha. fold (run inputs (step i st)) in Ha.
  apply (step_queue i st a Hi). exact (IH (step i st) H Ha).
Qed.

End DispatchFacts.


Lemma queue_grows_only_by_apply_witness :
  let inputs := [received (approveAction (lit "no such id"));
                 received (copyPrompt sampleFolders sampleDocuments true (lit "go")
                                      (mkOptions false true));
                 received approveAll] in
  let st := memProvider sampleWorld [shellLs; createG] in
  In shellLs (pendingActions st).
Proof.
  intros inputs st.
  apply (queue_grows_only_by_apply inputs st shellLs); vm_compute; [reflexivity|].
  left. reflexivity.
Defined.
